(** * Trip aggregation sample: reduction cycle, summary writer and
      on-demand aggregation, embedded from the TypeScript sources.

    - [TripReduction]        packages/trip-reduction-function/index.ts
    - [DataReduction]        lib/data-reduction.ts (table key, query tasks)
    - [CreateTripSummaries]  packages/create-trip-summaries/index.ts
    - [TripsApiBackend]      packages/trips-api-backend/index.ts

    JavaScript objects used as dictionaries are finite maps, strings are
    [string], the two AWS stores are explicit state threaded through a small
    state-and-exception monad that also records every request issued. *)

From stdpp Require Import gmap strings list pretty.
From stdpp Require Import sorting.
From Stdlib Require QArith Qround Lqa.
From Equations Require Import Equations.
From Stdlib Require Ascii.


(** ** JavaScript values and strings *)

#[warnings="-register-all"]
Inductive JsValue :=
| JsUndefined
| JsNull
| JsBool (b : bool)
| JsNum (z : Z)
| JsStr (s : string)
| JsArr (l : list JsValue)
| JsObj (fields : gmap string JsValue).

(** [!!v] *)
Definition truthy (v : JsValue) : bool :=
  match v with
  | JsUndefined | JsNull => false
  | JsBool b => b
  | JsNum z => negb (Z.eqb z 0)
  | JsStr s => negb (String.eqb s EmptyString)
  | JsArr _ | JsObj _ => true
  end.

(** Errors a handler invocation can end with: the JavaScript exceptions the
    handlers can provoke ([SyntaxError] from [JSON.parse], [CsvError] from
    csv-parse), and a rejected SDK request with its code. *)
Inductive Error :=
| TypeError
| SyntaxError
| CsvError
| AwsError (code : string).

Inductive Result (A : Type) :=
| Ok (a : A)
| Err (e : Error).
Arguments Ok {A} a.
Arguments Err {A} e.

(** Characters the handlers split on, and the two that a string literal
    cannot hold directly. *)
Module Chars.
Import Stdlib.Strings.Ascii.
Definition slash : ascii := "/"%char.
Definition equals : ascii := "="%char.
Definition lbrace : ascii := "{"%char.
Definition rbrace : ascii := "}"%char.
Definition newline : ascii := ascii_of_nat 10.
Definition dquote : ascii := ascii_of_nat 34.
End Chars.

Definition dq : string := String Chars.dquote EmptyString.
Definition nl : string := String Chars.newline EmptyString.

(** [s.split(sep)] for a one-character separator. *)
Fixpoint split (sep : Ascii.ascii) (s : string) : list string :=
  match s with
  | EmptyString => [EmptyString]
  | String c s' =>
      if Ascii.eqb c sep then EmptyString :: split sep s'
      else match split sep s' with
           | [] => [String c EmptyString]
           | x :: xs => String c x :: xs
           end
  end.

(** [parts.join(sep)] on an array of strings. *)
Definition join (sep : string) (parts : list string) : string :=
  String.concat sep parts.

(** [s] has no occurrence of the character [c]. *)
Fixpoint lacks (c : Ascii.ascii) (s : string) : bool :=
  match s with
  | EmptyString => true
  | String d s' => negb (Ascii.eqb d c) && lacks c s'
  end.

(** ** packages/trip-reduction-function/index.ts *)

Module TripReduction.

Record InitialInput := {
  bucketName : string;
  key : string
}.

Record StateMachineInput := {
  FinishedTripsSummaryQuery : string;
  ReducedTripsQuery : string;
  QueryFilterExpression : string;
  FormattedDate : string
}.

(** The object literal [rawStateMachineInput] starts from. *)
Definition rawStateMachineInput0 : gmap string string :=
  <["year" := EmptyString]> (<["month" := EmptyString]> (<["day" := EmptyString]>
    (<["hour" := EmptyString]> (<["minute" := EmptyString]> ∅)))).

(** [obj[name] = value] on a plain object, for a string [value]: an own
    property is created or overwritten, except for the name [__proto__],
    whose inherited setter ignores a value that is not an object. *)
Definition js_set (name value : string) (obj : gmap string string)
  : gmap string string :=
  if decide (name = "__proto__") then obj else <[name := value]> obj.

(** Body of the [keyParams.forEach] callback. *)
Definition forEach_param (obj : gmap string string) (param : string)
  : gmap string string :=
  match split Chars.equals param with
  | paramName :: paramValue :: _ => js_set paramName paramValue obj
  | _ => obj
  end.

(** [rawStateMachineInput] after the loop over [objectKey.split('/')]. *)
Definition extract (objectKey : string) : gmap string string :=
  foldl forEach_param rawStateMachineInput0 (split Chars.slash objectKey).

(** Read of one of the five own properties of the literal; they are never
    deleted, so the read never sees [undefined] (lemma [extract_own]). *)
Definition prop (obj : gmap string string) (name : string) : string :=
  default EmptyString (obj !! name).

Definition filter_expression (y mo d h mi : string) : string :=
  join " and "
    [ "a.year = '" +:+ y +:+ "'";
      "a.month = '" +:+ mo +:+ "'";
      "a.day = '" +:+ d +:+ "'";
      "a.hour = '" +:+ h +:+ "'";
      "a.minute = '" +:+ mi +:+ "'" ].

Section Handler.
(** [process.env.ATHENA_TABLE_NAME] *)
Variable AthenaTableName : string.

Definition quoted_table : string := dq +:+ AthenaTableName +:+ dq.

Definition summary_query_head : string :=
  join nl
    [ "SELECT ";
      "      a.deviceid as vehicle_id,";
      "      a.tripid as trip_id,";
      "      b.eventdate as start_date,";
      "      a.eventdate as end_date,";
      "      date_diff('second', from_iso8601_timestamp(b.eventdate), from_iso8601_timestamp(a.eventdate)) as duration,";
      "      (select count(1) from " ].

Definition summary_query_tail : string :=
  join nl
    [ " b";
      "      on a.tripid = b.tripid and b.eventtype = 'engine-start'";
      "    where ";
      "      a.eventtype = 'trip-finished'";
      "      and " ].

(** Text of the first template up to its [{}]. *)
Definition summary_query_prefix : string :=
  summary_query_head +:+ quoted_table
    +:+ " c where a.tripid = c.tripid) as event_count" +:+ nl
    +:+ "    FROM " +:+ quoted_table +:+ " a" +:+ nl
    +:+ "    LEFT JOIN " +:+ quoted_table +:+ summary_query_tail.

Definition FinishedTripsSummaryQuery_template : string :=
  summary_query_prefix +:+ "{}" +:+ ";".

Definition reduced_query_tail : string :=
  join nl
    [ " a";
      "          where a.eventtype = 'trip-finished' ";
      "              and " ].

(** Text of the second template up to its [{}]. *)
Definition reduced_query_prefix : string :=
  "SELECT *" +:+ nl
    +:+ "      FROM " +:+ quoted_table +:+ " a" +:+ nl
    +:+ "      where tripid in (SELECT tripid " +:+ nl
    +:+ "          FROM " +:+ quoted_table +:+ reduced_query_tail.

Definition reduced_query_suffix : string :=
  ")" +:+ nl +:+ "      order by tripid, eventdate;".

Definition ReducedTripsQuery_template : string :=
  reduced_query_prefix +:+ "{}" +:+ reduced_query_suffix.

Definition handler (realEvent : InitialInput) : Result StateMachineInput :=
  let rawStateMachineInput := extract (key realEvent) in
  Ok {| FinishedTripsSummaryQuery := FinishedTripsSummaryQuery_template;
        ReducedTripsQuery := ReducedTripsQuery_template;
        QueryFilterExpression :=
          filter_expression
            (prop rawStateMachineInput "year")
            (prop rawStateMachineInput "month")
            (prop rawStateMachineInput "day")
            (prop rawStateMachineInput "hour")
            (prop rawStateMachineInput "minute");
        FormattedDate :=
          join "-"
            [ prop rawStateMachineInput "year";
              prop rawStateMachineInput "month";
              prop rawStateMachineInput "day";
              prop rawStateMachineInput "hour";
              prop rawStateMachineInput "minute" ] |}.
End Handler.

End TripReduction.

(** ** lib/data-reduction.ts *)

Module DataReduction.
Import TripReduction.

(** [partitionKey.name] of [tripSummaryTable]. *)
Definition tripSummaryTable_partitionKey : string := "trip_id".

(** The intrinsic [States.Format(template, args...)] of the workflow
    engine, for templates without backslash escapes: every [{}] is
    replaced by the next argument, and the call fails when the number of
    placeholders differs from the number of arguments. *)
Fixpoint States_Format (template : string) (args : list string)
  : option string :=
  match template with
  | EmptyString =>
      match args with
      | [] => Some EmptyString
      | _ :: _ => None
      end
  | String c rest =>
      if Ascii.eqb c Chars.lbrace then
        match rest with
        | String d rest' =>
            if Ascii.eqb d Chars.rbrace then
              match args with
              | a :: args' => String.append a <$> States_Format rest' args'
              | [] => None
              end
            else String c <$> States_Format rest args
        | EmptyString => String c <$> States_Format rest args
        end
      else String c <$> States_Format rest args
  end.

(** [queryString] of [findFinishedTripsTask]. *)
Definition findFinishedTripsTask_queryString (input : StateMachineInput)
  : option string :=
  States_Format (FinishedTripsSummaryQuery input)
                [QueryFilterExpression input].

(** [queryString] of [createTripsFileTask]. *)
Definition createTripsFileTask_queryString (input : StateMachineInput)
  : option string :=
  States_Format (ReducedTripsQuery input) [QueryFilterExpression input].

End DataReduction.

(** ** The trip summary query, as the query engine evaluates it

    [FinishedTripsSummaryQuery] of packages/trip-reduction-function is SQL
    text; this is its meaning over the rows of the events table, clause by
    clause, with SQL's nulls ([None]) and three-valued conditions. *)

Module Athena.

(** A row of the events table: the data columns may be null, the
    partition columns are not. *)
Record EventRow := {
  eventid : option string;
  tripid : option string;
  deviceid : option string;
  eventdate : option string;
  eventtype : option string;
  year : string;
  month : string;
  day : string;
  hour : string;
  minute : string
}.

(** A row of the result: the columns of the select list. *)
Record SummaryRow := {
  vehicle_id : option string;
  trip_id : option string;
  start_date : option string;
  end_date : option string;
  duration : option Z;
  event_count : Z
}.

(** [x = y]: unknown when an operand is null. *)
Definition sql_eq (x y : option string) : option bool :=
  match x, y with
  | Some a, Some b => Some (bool_decide (a = b))
  | _, _ => None
  end.

(** [p and q] *)
Definition sql_and (p q : option bool) : option bool :=
  match p, q with
  | Some false, _ | _, Some false => Some false
  | Some true, Some true => Some true
  | _, _ => None
  end.

(** A row passes [on] and [where] when the condition is true, not when
    it is false or unknown. *)
Definition is_true (p : option bool) : bool :=
  match p with
  | Some true => true
  | _ => false
  end.

(** [l LEFT JOIN r ON on]: every row of [l] with each row of [r] that
    matches it, or once with nulls when none does. *)
Definition left_join {A B} (on : A → B → option bool)
    (l : list A) (r : list B) : list (A * option B) :=
  a ← l;
  match filter (λ b, is_true (on a b) = true) r with
  | [] => [(a, None)]
  | matches => (λ b, (a, Some b)) <$> matches
  end.

(** [date_diff('second', t1, t2)] on instants in milliseconds. *)
Definition date_diff_second (t1 t2 : option Z) : option Z :=
  match t1, t2 with
  | Some x, Some y => Some (Z.quot (y - x) 1000)
  | _, _ => None
  end.

Section FinishedTripsSummaryQuery.
(** [from_iso8601_timestamp] on a text that is not null: the instant
    in milliseconds, or [None] when the engine rejects the text and the
    query fails. *)
Variable from_iso8601_timestamp : string → option Z.
(** The rows of the table named by [AthenaTableName]. *)
Variable table : list EventRow.
(** The condition substituted for the placeholder, on the row [a]. *)
Variable filter_condition : EventRow → option bool.

(** [on a.tripid = b.tripid and b.eventtype = 'engine-start'] *)
Definition on_clause (a b : EventRow) : option bool :=
  sql_and (sql_eq (tripid a) (tripid b))
          (sql_eq (eventtype b) (Some "engine-start")).

(** [where a.eventtype = 'trip-finished' and <filter>] *)
Definition where_clause (ab : EventRow * option EventRow) : option bool :=
  sql_and (sql_eq (eventtype ab.1) (Some "trip-finished"))
          (filter_condition ab.1).

(** [(select count(1) from T c where a.tripid = c.tripid)] *)
Definition event_count_subquery (a : EventRow) : Z :=
  Z.of_nat (length (filter (λ c, is_true (sql_eq (tripid a) (tripid c)) = true)
                           table)).

(** [from_iso8601_timestamp(d)]: null for null; the outer [None] is a
    failure of the query. *)
Definition timestamp (d : option string) : option (option Z) :=
  match d with
  | None => Some None
  | Some text => Some <$> from_iso8601_timestamp text
  end.

(** The select list on a joined row. *)
Definition select_list (ab : EventRow * option EventRow)
  : option SummaryRow :=
  t1 ← timestamp (ab.2 ≫= eventdate);
  t2 ← timestamp (eventdate ab.1);
  Some {| vehicle_id := deviceid ab.1;
          trip_id := tripid ab.1;
          start_date := ab.2 ≫= eventdate;
          end_date := eventdate ab.1;
          duration := date_diff_second t1 t2;
          event_count := event_count_subquery ab.1 |}.

Definition FinishedTripsSummaryQuery : option (list SummaryRow) :=
  mapM select_list
    (filter (λ ab, is_true (where_clause ab) = true)
            (left_join on_clause table table)).
End FinishedTripsSummaryQuery.

(** The condition [a.year = 'Y' and a.month = 'M' and a.day = 'D' and
    a.hour = 'H' and a.minute = 'Min'] for values without quotes. *)
Definition partition_filter (Y M D H Min : string) (a : EventRow)
  : option bool :=
  sql_and (sql_eq (Some (year a)) (Some Y))
    (sql_and (sql_eq (Some (month a)) (Some M))
       (sql_and (sql_eq (Some (day a)) (Some D))
          (sql_and (sql_eq (Some (hour a)) (Some H))
                   (sql_eq (Some (minute a)) (Some Min))))).

(** A table and an ISO-8601 reader for two dates, to run the query on. *)
Definition sample_row (id type date min : string) : EventRow :=
  {| eventid := None; tripid := Some id; deviceid := Some "v1";
     eventdate := Some date; eventtype := Some type;
     year := "2023"; month := "01"; day := "02"; hour := "03";
     minute := min |}.

Definition sample_table : list EventRow :=
  [ sample_row "t1" "engine-start" "2023-01-02T03:01:00.000Z" "01";
    sample_row "t1" "keep-alive" "2023-01-02T03:02:00.000Z" "02";
    sample_row "t1" "trip-finished" "2023-01-02T03:04:01.500Z" "04";
    sample_row "t2" "trip-finished" "2023-01-02T03:04:01.500Z" "04" ].

Definition sample_timestamp (text : string) : option Z :=
  if String.eqb text "2023-01-02T03:01:00.000Z" then Some 1672628460000%Z
  else if String.eqb text "2023-01-02T03:02:00.000Z" then Some 1672628520000%Z
  else if String.eqb text "2023-01-02T03:04:01.500Z" then Some 1672628641500%Z
  else None.
End Athena.

(** ** The AWS collaborators

    The Summary Store (the DynamoDB table [tripSummaryTable]) and the Object
    Store (S3) are state; a handler invocation is a computation over that
    state which may end with an exception and which logs every request it
    issues. *)

Module Aws.

(** Events of the stream answered by [selectObjectContent]. *)
Inductive SelectEvent :=
| RecordsEvent (Payload : string)
| EndEvent
| OtherEvent.

(** Library functions the handlers call, kept abstract: [JSON.parse]
    ([None] when it throws), [JSON.stringify], [parse] of csv-parse/sync
    with [columns: true, skipEmptyLines: true] ([None] when it throws),
    and the rows S3 Select streams for an object body and an
    expression. *)
Class Platform := {
  JSON_parse : string → option JsValue;
  JSON_stringify : JsValue → string;
  csv_parse : string → option (list (gmap string string));
  s3_select : string → string → list SelectEvent
}.

Inductive Call :=
| DynamoGet (Key : gmap string JsValue)
| DynamoUpdate (Key : gmap string JsValue) (attribute : string)
               (value : JsValue)
| DynamoBatchWrite (Items : list (gmap string JsValue))
| S3GetObject (Bucket Key : JsValue)
| S3PutObject (Bucket Key : JsValue) (Body : string)
| S3SelectObjectContent (Bucket Key : JsValue) (Expression : string).

(** [summaries]: the rows of the trip summaries table, by the value of
    their partition key. [objects]: object bodies by bucket and key.
    [requests]: the requests issued so far, oldest first. The other
    fields are the environment. [faults]: given the requests issued
    before a request and the request, the code with which the service
    rejects it, if it does. [unprocessed]: for a [batchWrite] that the
    service accepts, whether it leaves the item at a position of the
    batch unwritten; it names such items as [UnprocessedItems] in an
    answer that is not an error. [race]: of requests that are under way
    at the same time, given the requests issued before them and the
    positions of those not served yet, the one served next (a position
    in that list, taken modulo its length). *)
Record World := mkWorld {
  summaries : gmap string (gmap string JsValue);
  objects : gmap (string * string) string;
  requests : list Call;
  faults : list Call → Call → option string;
  unprocessed : list Call → Call → nat → bool;
  race : list Call → list nat → nat
}.

Definition log (c : Call) (w : World) : World :=
  mkWorld (summaries w) (objects w) (requests w ++ [c]) (faults w)
          (unprocessed w) (race w).
Definition set_summaries (t : gmap string (gmap string JsValue))
    (w : World) : World :=
  mkWorld t (objects w) (requests w) (faults w) (unprocessed w) (race w).
Definition set_objects (o : gmap (string * string) string)
    (w : World) : World :=
  mkWorld (summaries w) o (requests w) (faults w) (unprocessed w) (race w).
Definition set_requests (l : list Call) (w : World) : World :=
  mkWorld (summaries w) (objects w) l (faults w) (unprocessed w) (race w).

(** The service writes every item of every batch it accepts. *)
Definition nothing_unprocessed (w : World) : Prop :=
  ∀ issued c i, unprocessed w issued c i = false.

Definition M (A : Type) : Type := World → World * Result A.

#[export] Instance M_ret : MRet M := λ A a w, (w, Ok a).
#[export] Instance M_bind : MBind M := λ A B f m w,
  match m w with
  | (w', Ok a) => f a w'
  | (w', Err e) => (w', Err e)
  end.

Definition lift {A} (r : Result A) : M A := λ w, (w, r).

(** An SDK request: logged, then rejected by the environment or carried
    out. *)
Definition issue {A} (c : Call) (effect : World → World * Result A) : M A :=
  λ w, match faults w (requests w) c with
       | Some code => (log c w, Err (AwsError code))
       | None => effect (log c w)
       end.

(** *** DynamoDB DocumentClient *)

(** A [Key] is accepted when it consists of the table's partition key
    attribute alone, with a string value. *)
Definition key_value (Key : gmap string JsValue) : option string :=
  match Key !! DataReduction.tripSummaryTable_partitionKey with
  | Some (JsStr v) => if decide (size Key = 1) then Some v else None
  | _ => None
  end.

Definition is_undefined (v : JsValue) : bool :=
  match v with
  | JsUndefined => true
  | _ => false
  end.

(** The DocumentClient leaves properties that are [undefined] out of
    what it sends. *)
Fixpoint marshal (v : JsValue) : JsValue :=
  match v with
  | JsObj fields =>
      JsObj (omap (λ x, if is_undefined x then None else Some (marshal x))
                  fields)
  | JsArr l => JsArr (map marshal l)
  | _ => v
  end.

Definition marshal_item (Item : gmap string JsValue) : gmap string JsValue :=
  omap (λ x, if is_undefined x then None else Some (marshal x)) Item.

Definition validation : Error := AwsError "ValidationException".

Definition dynamodb_get (Key : gmap string JsValue)
  : M (option (gmap string JsValue)) :=
  issue (DynamoGet Key) (λ w,
    match key_value Key with
    | Some id => (w, Ok (summaries w !! id))
    | None => (w, Err validation)
    end).

(** [update] with [UpdateExpression: 'set <attribute> = :value']; the row
    is created when the key names none. *)
Definition dynamodb_update_set (Key : gmap string JsValue)
    (attribute : string) (value : JsValue) : M unit :=
  issue (DynamoUpdate Key attribute value) (λ w,
    match key_value Key with
    | Some id =>
        let old := default Key (summaries w !! id) in
        (set_summaries (<[id := <[attribute := marshal value]> old]>
                          (summaries w)) w, Ok ())
    | None => (w, Err validation)
    end).

Definition item_key (Item : gmap string JsValue) : option string :=
  match Item !! DataReduction.tripSummaryTable_partitionKey with
  | Some (JsStr v) => Some v
  | _ => None
  end.

(** A put request replaces the whole row stored under the item's key. *)
Definition put_row (t : gmap string (gmap string JsValue))
    (Item : gmap string JsValue) : gmap string (gmap string JsValue) :=
  match item_key Item with
  | Some id => <[id := Item]> t
  | None => t
  end.

(** The elements of [l] at the positions, counted from [i], that [left]
    does not name. *)
Fixpoint processed_from {A} (left : nat → bool) (i : nat) (l : list A)
  : list A :=
  match l with
  | [] => []
  | x :: l' =>
      if left i then processed_from left (S i) l'
      else x :: processed_from left (S i) l'
  end.

(** What the service does with a [batchWrite] of put requests on the
    table once it serves it, [issued] being the requests issued before
    it: it rejects the batch, or accepts it (between 1 and 25 items, each
    with the partition key attribute, no key twice) and writes the items
    it does not leave unprocessed. The answer to an accepted batch is not
    an error, whatever was left unprocessed. *)
Definition dynamodb_batchWrite_put (issued : list Call)
    (Items : list (gmap string JsValue)) : M unit :=
  λ w,
    match faults w issued (DynamoBatchWrite Items) with
    | Some code => (w, Err (AwsError code))
    | None =>
        let sent := marshal_item <$> Items in
        match mapM item_key sent with
        | Some ids =>
            if decide (0 < length sent ≤ 25 ∧ NoDup ids) then
              let written :=
                processed_from (unprocessed w issued (DynamoBatchWrite Items))
                               0 sent in
              (set_summaries (foldl put_row (summaries w) written) w, Ok ())
            else (w, Err validation)
        | None => (w, Err validation)
        end
    end.

(** *** S3 *)

Definition s3_location (Bucket Key : JsValue) : option (string * string) :=
  match Bucket, Key with
  | JsStr b, JsStr k => Some (b, k)
  | _, _ => None
  end.

Definition s3_getObject (Bucket Key : JsValue) : M string :=
  issue (S3GetObject Bucket Key) (λ w,
    match s3_location Bucket Key with
    | Some loc =>
        match objects w !! loc with
        | Some body => (w, Ok body)
        | None => (w, Err (AwsError "NoSuchKey"))
        end
    | None => (w, Err (AwsError "MissingRequiredParameter"))
    end).

Definition s3_putObject (Bucket Key : JsValue) (Body : string) : M unit :=
  issue (S3PutObject Bucket Key Body) (λ w,
    match s3_location Bucket Key with
    | Some loc => (set_objects (<[loc := Body]> (objects w)) w, Ok ())
    | None => (w, Err (AwsError "MissingRequiredParameter"))
    end).

Definition s3_selectObjectContent `{Platform} (Bucket Key : JsValue)
    (Expression : string) : M (list SelectEvent) :=
  issue (S3SelectObjectContent Bucket Key Expression) (λ w,
    match s3_location Bucket Key with
    | Some loc =>
        match objects w !! loc with
        | Some body => (w, Ok (s3_select body Expression))
        | None => (w, Err (AwsError "NoSuchKey"))
        end
    | None => (w, Err (AwsError "MissingRequiredParameter"))
    end).

(** The own property [name] of [x], as [{...x}] copies it. *)
Definition own (x : JsValue) (name : string) : JsValue :=
  match x with
  | JsObj fields => default JsUndefined (fields !! name)
  | _ => JsUndefined
  end.

(** [x.name] *)
Definition get_prop (x : JsValue) (name : string) : Result JsValue :=
  match x with
  | JsUndefined | JsNull => Err TypeError
  | JsObj fields => Ok (default JsUndefined (fields !! name))
  | _ => Ok JsUndefined
  end.

(** The order in which the service serves the requests at the positions
    [pending], as [next] picks them one by one. *)
Fixpoint serving_order (next : list nat → nat) (fuel : nat)
    (pending : list nat) : list nat :=
  match fuel, pending with
  | S fuel, i0 :: _ =>
      let n := next pending mod length pending in
      default i0 (pending !! n) :: serving_order next fuel (delete n pending)
  | _, _ => []
  end.

(** One request of those under way is served: the one at position [i]
    of [l], issued after the requests [before] and the requests for the
    elements of [l] in front of it. A failure does not replace an earlier
    one. *)
Definition serve_next {A} (request : A → Call)
    (served : list Call → A → M unit) (l : list A) (before : list Call)
    (state : World * Result unit) (i : nat) : World * Result unit :=
  match l !! i with
  | Some x =>
      let answer := served (before ++ (request <$> take i l)) x state.1 in
      (answer.1, match state.2 with
                 | Err e => Err e
                 | Ok _ => answer.2
                 end)
  | None => state
  end.

(** [await Promise.all(l.map(async x => await request(x).promise()))]:
    the requests are issued one after the other in the order of [l],
    each before any of them is answered; the service serves them in the
    order the race decides, each on the stores as the requests served
    before it left them. Every request is served, whatever becomes of
    the others; the first failure, if any, is the one thrown. *)
Definition Promise_all_map {A} (request : A → Call)
    (served : list Call → A → M unit) (l : list A) : M unit :=
  λ w,
    foldl (serve_next request served l (requests w))
          (set_requests (requests w ++ (request <$> l)) w, Ok ())
          (serving_order (race w (requests w)) (length l)
                         (seq 0 (length l))).

End Aws.

(** ** packages/create-trip-summaries/index.ts *)

Module CreateTripSummaries.
Import Aws.

(** [QueryResults]: for each element of [event.QueryResults], its
    [QueryExecution.ResultConfiguration.OutputLocation]. *)
Record Event := {
  QueryResults : list string
}.

(** [l.slice(i, j)] for [i <= j <= l.length]. *)
Definition slice {A} (i j : nat) (l : list A) : list A :=
  take (j - i) (drop i l).

Definition output_file (OutputLocation : string) : JsValue :=
  let result := slice 0 2 (reverse (split Chars.slash OutputLocation)) in
  JsObj {[ "Bucket" := from_option JsStr JsUndefined (result !! 1);
           "Key" := from_option JsStr JsUndefined (result !! 0) ]}.

(** The loop [for (let i = 0; i < tripsSummary.length; i += 25)], from
    the value [i] of its counter on. *)
Equations? chunks_from {A} (tripsSummary : list A) (i : nat)
  : list (list A) by wf (length tripsSummary - i) lt :=
  chunks_from tripsSummary i with decide (i < length tripsSummary) => {
    | left _ :=
        slice i (min (i + 25) (length tripsSummary)) tripsSummary
          :: chunks_from tripsSummary (i + 25);
    | right _ := [] }.
Proof. lia. Qed.

Definition queryResultFiles (event : Event) : list JsValue :=
  output_file <$> QueryResults event.

(** [queryResultFiles[1]] *)
Definition tripFile (event : Event) : JsValue :=
  default JsUndefined (queryResultFiles event !! 1).

(** [queryResultFiles[0]] *)
Definition summaryFile (event : Event) : JsValue :=
  default JsUndefined (queryResultFiles event !! 0).

(** A parsed row after [trip.RecordsFile = tripFile]. *)
Definition with_records_file (event : Event) (trip : gmap string string)
  : gmap string JsValue :=
  <["RecordsFile" := tripFile event]> (JsStr <$> trip).

Definition handler `{Platform} (event : Event) : M unit :=
  tripSummaryFile ← s3_getObject (own (summaryFile event) "Bucket")
                                 (own (summaryFile event) "Key");
  parsed ← lift (from_option Ok (Err CsvError) (csv_parse tripSummaryFile));
  let tripsSummary := with_records_file event <$> parsed in
  let tripSummaryChunks := chunks_from tripsSummary 0 in
  Promise_all_map DynamoBatchWrite dynamodb_batchWrite_put
                  tripSummaryChunks.

End CreateTripSummaries.

(** ** packages/trips-api-backend/index.ts *)

Module TripsApiBackend.
Import Aws.

Record ApiEvent := {
  TripId : string
}.

Section Handler.
Context `{Platform}.
(** [process.env.TRIP_RECORDS_BUCKET_NAME] *)
Variable TripRecordsBucketName : string.

(** [r && r.length], as a condition. *)
Definition nonempty (r : string) : bool :=
  truthy (JsStr r) && negb (Nat.eqb (String.length r) 0).

(** [parsedRecords] for one [Records] event. *)
Definition parsedRecords (Payload : string) : list JsValue :=
  List.filter truthy
    (map (λ r, default JsNull (JSON_parse r))
       (List.filter nonempty (split Chars.newline Payload))).

(** Body of the [for await] loop. *)
Definition on_record (tripRecords : list JsValue) (record : SelectEvent)
  : list JsValue :=
  match record with
  | RecordsEvent Payload => tripRecords ++ parsedRecords Payload
  | EndEvent => tripRecords
  | OtherEvent => tripRecords
  end.

Definition collect (tripRecordsStream : list SelectEvent) : list JsValue :=
  foldl on_record [] tripRecordsStream.

(** [{ ...tripSummary, Records: tripRecords }] *)
Definition enhance (tripSummary : JsValue) (tripRecords : list JsValue)
  : JsValue :=
  match tripSummary with
  | JsObj fields => JsObj (<["Records" := JsArr tripRecords]> fields)
  | _ => JsObj {[ "Records" := JsArr tripRecords ]}
  end.

Definition trip_object_key (tripId : string) : string :=
  "trips/" +:+ tripId +:+ ".json".

Definition select_expression (tripId : string) : string :=
  "select  * from s3object s where s." +:+ dq +:+ "tripid" +:+ dq
    +:+ " = '" +:+ tripId +:+ "'".

Definition handler (event : ApiEvent) : M JsValue :=
  Item ← dynamodb_get {[ "trip_id" := JsStr (TripId event) ]};
  let tripSummary := from_option JsObj JsUndefined Item in
  aggregationExecuted ← lift (get_prop tripSummary "AggregationExecuted");
  if negb (truthy aggregationExecuted) then
    recordsFile ← lift (get_prop tripSummary "RecordsFile");
    bucket ← lift (get_prop recordsFile "Bucket");
    key ← lift (get_prop recordsFile "Key");
    tripRecordsStream ←
      s3_selectObjectContent bucket key (select_expression (TripId event));
    let tripRecords := collect tripRecordsStream in
    let enhancedTrip := enhance tripSummary tripRecords in
    s3_putObject (JsStr TripRecordsBucketName)
                 (JsStr (trip_object_key (TripId event)))
                 (JSON_stringify enhancedTrip);;
    dynamodb_update_set {[ "TripId" := JsStr (TripId event) ]}
                        "AggregationExecuted" (JsBool true);;
    mret enhancedTrip
  else
    Body ← s3_getObject (JsStr TripRecordsBucketName)
                        (JsStr (trip_object_key (TripId event)));
    lift (from_option Ok (Err SyntaxError) (JSON_parse Body)).
End Handler.

End TripsApiBackend.

(** A platform on which the model runs on concrete inputs: [JSON.parse]
    restricted to the texts [null], [true], [false], [0], [1], [{}] and
    to objects whose properties are strings without escapes,
    [JSON.stringify] with the properties of an object in the order of the
    map and no escapes in strings, a csv parser for files without quotes,
    and an S3 Select for the expressions of the read API on such files:
    the rows whose [tripid] is the one asked for, each as a JSON object on
    a line of its own, in one [Records] event (none when no row is
    selected), followed by the [Stats] and [End] events. *)
Module Concrete.
Import Aws.

Definition parse_literal (s : string) : option JsValue :=
  if String.eqb s "null" then Some JsNull
  else if String.eqb s "true" then Some (JsBool true)
  else if String.eqb s "false" then Some (JsBool false)
  else if String.eqb s "0" then Some (JsNum 0)
  else if String.eqb s "1" then Some (JsNum 1)
  else if String.eqb s "{}" then Some (JsObj ∅)
  else None.

(** The properties of an object text that was cut at its double quotes,
    after the opening brace: [k], [:], [v], and [,] or the closing
    brace. *)
Fixpoint parse_members (parts : list string) (fields : gmap string JsValue)
  : option JsValue :=
  match parts with
  | k :: colon :: v :: sep :: rest =>
      if negb (String.eqb colon ":") then None
      else if String.eqb sep "," then
        parse_members rest (<[k := JsStr v]> fields)
      else if String.eqb sep "}" then
        match rest with
        | [] => Some (JsObj (<[k := JsStr v]> fields))
        | _ :: _ => None
        end
      else None
  | _ => None
  end.

Definition parse_object (s : string) : option JsValue :=
  match split Chars.dquote s with
  | first :: parts =>
      if String.eqb first "{" then parse_members parts ∅ else None
  | [] => None
  end.

Definition parse (s : string) : option JsValue :=
  match parse_literal s with
  | Some v => Some v
  | None => parse_object s
  end.

Fixpoint stringify (v : JsValue) : string :=
  match v with
  | JsUndefined | JsNull => "null"
  | JsBool b => if b then "true" else "false"
  | JsNum z => pretty z
  | JsStr s => dq +:+ s +:+ dq
  | JsArr l => "[" +:+ join "," (map stringify l) +:+ "]"
  | JsObj fields =>
      "{" +:+ join ","
                (map (λ kv : string * string,
                        dq +:+ kv.1 +:+ dq +:+ ":" +:+ kv.2)
                     (map_to_list
                        (omap (λ x, if is_undefined x then None
                                    else Some (stringify x)) fields)))
          +:+ "}"
  end.

Definition comma : Ascii.ascii := Ascii.ascii_of_nat 44.

Definition parse_unquoted_csv (text : string)
  : option (list (gmap string string)) :=
  match List.filter (λ l, negb (String.eqb l EmptyString))
                    (split Chars.newline text) with
  | [] => Some []
  | header :: lines =>
      Some ((λ l, list_to_map (zip (split comma header) (split comma l)))
              <$> lines)
  end.

Definition quote : Ascii.ascii := Ascii.ascii_of_nat 39.

(** [s] without its prefix [p], when it starts with [p]. *)
Fixpoint strip_prefix (p s : string) : option string :=
  match p, s with
  | EmptyString, _ => Some s
  | String c p', String d s' =>
      if Ascii.eqb c d then strip_prefix p' s' else None
  | String _ _, EmptyString => None
  end.

(** The trip id [t] of the expression
    [select  * from s3object s where s."tripid" = 't']. *)
Definition selected_trip (Expression : string) : option string :=
  match strip_prefix ("select  * from s3object s where s." +:+ dq
                        +:+ "tripid" +:+ dq +:+ " = '") Expression with
  | Some rest =>
      match split quote rest with
      | [t; EmptyString] => Some t
      | _ => None
      end
  | None => None
  end.

Definition select_rows (body Expression : string) : list SelectEvent :=
  match selected_trip Expression, parse_unquoted_csv body with
  | Some t, Some rows =>
      let lines :=
        (λ row : gmap string string,
           stringify (JsObj (JsStr <$> row)) +:+ nl)
          <$> List.filter (λ row : gmap string string,
                             bool_decide (row !! "tripid" = Some t)) rows in
      match lines with
      | [] => [OtherEvent; EndEvent]
      | _ :: _ =>
          [RecordsEvent (String.concat EmptyString lines); OtherEvent;
           EndEvent]
      end
  | _, _ => [OtherEvent; EndEvent]
  end.

Definition platform : Platform := {|
  JSON_parse := parse;
  JSON_stringify := stringify;
  csv_parse := parse_unquoted_csv;
  s3_select := select_rows
|}.

(** An environment that rejects nothing, leaves nothing unprocessed and
    serves requests in the order in which they were issued. *)
Definition no_faults : list Call → Call → option string := λ _ _, None.
Definition all_written : list Call → Call → nat → bool := λ _ _ _, false.
Definition in_order : list Call → list nat → nat := λ _ _, 0.

(** Two stored summaries, [t1] not yet aggregated and [t2] aggregated,
    a reduced-records file, a trip-summary result file with rows for
    [t2] and [t3], and the aggregated object of [t2]. *)
Definition world : World :=
  mkWorld
    {[ "t1" := {[ "trip_id" := JsStr "t1";
                  "RecordsFile" := JsObj {[ "Bucket" := JsStr "reduced";
                                            "Key" := JsStr "records.csv" ]} ]};
       "t2" := {[ "trip_id" := JsStr "t2";
                  "AggregationExecuted" := JsBool true ]} ]}
    {[ ("reduced", "records.csv") :=
         "tripid,eventtype" +:+ nl +:+ "t1,engine-start" +:+ nl
           +:+ "t2,engine-start" +:+ nl +:+ "t1,trip-finished" +:+ nl;
       ("reduced", "summary.csv") :=
         "trip_id,vehicle_id" +:+ nl +:+ "t2,v9" +:+ nl +:+ "t3,v7" +:+ nl;
       ("aggregated", "trips/t2.json") := "true" ]}
    [] no_faults all_written in_order.
End Concrete.

(** What the extractor is specified to compute, in the words of the
    specification, for comparison with [TripReduction.extract]. *)
Module PartitionSpec.
Import TripReduction.

(** The name and the value a segment supplies: the text before its first
    [=] and the text between its first and second [=]. *)
Definition segment_entry (param : string) : option (string * string) :=
  match split Chars.equals param with
  | n :: v :: _ => Some (n, v)
  | _ => None
  end.

(** Value supplied for [name] by a list of segments, the last segment
    that names it taking precedence. *)
Fixpoint supplied (name : string) (params : list string) : option string :=
  match params with
  | [] => None
  | p :: ps =>
      match supplied name ps with
      | Some v => Some v
      | None =>
          match segment_entry p with
          | Some (n, v) => if decide (n = name) then Some v else None
          | None => None
          end
      end
  end.

(** "Each segment of the form name=value is mapped to the entry
    {name: value}". *)
Definition maps_each_segment (objectKey : string) (m : gmap string string)
  : Prop :=
  ∀ param name value,
    param ∈ split Chars.slash objectKey →
    param = name +:+ "=" +:+ value →
    m !! name = Some value.

Definition partition_names : list string :=
  ["year"; "month"; "day"; "hour"; "minute"].
End PartitionSpec.

(** ** The claims of the specification about the stores, in its words *)

Module CacheSpec.
Import Aws.

(** An error that tells the caller the trip is unknown. *)
Definition not_found (e : Error) : bool :=
  match e with
  | AwsError code =>
      bool_decide (code ∈ ["NotFound"; "NoSuchKey";
                           "ResourceNotFoundException"])
  | _ => false
  end.

(** "aggregationExecuted = true implies an AggregatedTrip object exists
    at the canonical location for that tripId". *)
Definition cache_filled (TripRecordsBucketName : string) (w : World) : Prop :=
  ∀ id item v,
    summaries w !! id = Some item →
    item !! "AggregationExecuted" = Some v →
    truthy v = true →
    is_Some (objects w
               !! (TripRecordsBucketName, TripsApiBackend.trip_object_key id)).

(** "Re-processing never transitions the flag from true to false". *)
Definition flag_preserved (w w' : World) : Prop :=
  ∀ id item,
    summaries w !! id = Some item →
    item !! "AggregationExecuted" = Some (JsBool true) →
    ∃ item', summaries w' !! id = Some item' ∧
             item' !! "AggregationExecuted" = Some (JsBool true).

Section Records.
Context `{Platform}.

(** "Exactly the successfully parsed lines, in delivery order". *)
Definition parsed_lines (stream : list SelectEvent) : list JsValue :=
  flat_map (λ record,
              match record with
              | RecordsEvent Payload =>
                  omap JSON_parse (split Chars.newline Payload)
              | _ => []
              end) stream.

(** The value kept for a line: the line is not empty, parses, and its
    value is truthy. *)
Definition kept_line (r : string) : option JsValue :=
  if String.eqb r EmptyString then None
  else match JSON_parse r with
       | Some v => if truthy v then Some v else None
       | None => None
       end.

Definition kept_lines (stream : list SelectEvent) : list JsValue :=
  flat_map (λ record,
              match record with
              | RecordsEvent Payload =>
                  omap kept_line (split Chars.newline Payload)
              | _ => []
              end) stream.

(** The lines of a scan with [OutputSerialization: { JSON: {} }]: the
    scan writes every row it selects as one JSON object, so a line of
    the stream that parses at all (a record can be cut in two by the end
    of a payload) parses to an object. *)
Definition object_line (r : string) : bool :=
  match JSON_parse r with
  | Some (JsObj _) | None => true
  | Some _ => false
  end.

Definition object_lines (stream : list SelectEvent) : bool :=
  forallb (λ record,
             match record with
             | RecordsEvent Payload =>
                 forallb object_line (split Chars.newline Payload)
             | _ => true
             end) stream.
End Records.
End CacheSpec.

(** ** What can happen to the two stores *)

Module System.
Import Aws.

Section Steps.
Context `{Platform}.
Variable TripRecordsBucketName : string.

(** The result file a writer invocation reads is an output of the trip
    summary query: it has no [AggregationExecuted] column. *)
Definition summary_result_file (event : CreateTripSummaries.Event)
    (w : World) : Prop :=
  ∀ b k body rows,
    s3_location (own (CreateTripSummaries.summaryFile event) "Bucket")
                (own (CreateTripSummaries.summaryFile event) "Key")
      = Some (b, k) →
    objects w !! (b, k) = Some body →
    csv_parse body = Some rows →
    Forall (λ row : gmap string string,
              row !! "AggregationExecuted" = None) rows.

(** One step: an invocation of the read API, an invocation of the
    summary writer, an object written by someone else (the query
    engine storing a result file), or a change of the environment. *)
Inductive step : World → World → Prop :=
| step_get_aggregated_trip event w :
    step w (TripsApiBackend.handler TripRecordsBucketName event w).1
| step_create_trip_summaries event w :
    summary_result_file event w →
    step w (CreateTripSummaries.handler event w).1
| step_object_stored b k body w :
    step w (set_objects (<[(b, k) := body]> (objects w)) w)
| step_environment f u r w :
    step w (mkWorld (summaries w) (objects w) (requests w) f u r).
End Steps.
End System.

(** ** The trips file query, as the query engine evaluates it

    [ReducedTripsQuery] of packages/trip-reduction-function, clause by
    clause, over the rows of the events table. *)

Module ReducedTrips.
Import Athena.

(** [p or q] *)
Definition sql_or (p q : option bool) : option bool :=
  match p, q with
  | Some true, _ | _, Some true => Some true
  | Some false, Some false => Some false
  | _, _ => None
  end.

(** [x in (v1, ..., vn)], that is [x = v1 or ... or x = vn]. *)
Definition sql_in (x : option string) (values : list (option string))
  : option bool :=
  foldr (λ v rest, sql_or (sql_eq x v) rest) (Some false) values.

(** Comparison of two values of a sort column, ascending: nulls come
    last, texts are compared character by character. *)
Definition compare_nulls_last (x y : option string) : comparison :=
  match x, y with
  | Some a, Some b => String.compare a b
  | Some _, None => Lt
  | None, Some _ => Gt
  | None, None => Eq
  end.

(** [order by tripid, eventdate] *)
Definition compare_rows (a b : EventRow) : comparison :=
  match compare_nulls_last (tripid a) (tripid b) with
  | Eq => compare_nulls_last (eventdate a) (eventdate b)
  | c => c
  end.

(** [a] may come before [b]. *)
Definition order_by (a b : EventRow) : Prop :=
  negb (bool_decide (compare_rows a b = Gt)) = true.

#[export] Instance order_by_dec a b : Decision (order_by a b).
Proof. unfold order_by. apply _. Defined.

Section ReducedTripsQuery.
(** The rows of the table named by [AthenaTableName]. *)
Variable table : list EventRow.
(** The condition substituted for the placeholder, on the row [a] of the
    inner query. *)
Variable filter_condition : EventRow → option bool.

(** [(SELECT tripid FROM T a where a.eventtype = 'trip-finished'
    and <filter>)] *)
Definition finished_tripids : list (option string) :=
  tripid <$>
    filter (λ a, is_true (sql_and (sql_eq (eventtype a) (Some "trip-finished"))
                                  (filter_condition a)) = true)
           table.

(** [where tripid in (...)] *)
Definition in_finished_trips (a : EventRow) : option bool :=
  sql_in (tripid a) finished_tripids.

(** [SELECT * FROM T a where ...], before the rows are ordered. *)
Definition selected : list EventRow :=
  filter (λ a, is_true (in_finished_trips a) = true) table.

(** The result, with rows that agree on both sort columns in the order
    a merge sort leaves them in. *)
Definition ReducedTripsQuery : list EventRow :=
  merge_sort order_by selected.

(** A result the engine may answer with: the selected rows, in an
    order that respects the sort columns. *)
Definition answer (result : list EventRow) : Prop :=
  result ≡ₚ selected ∧ Sorted order_by result.
End ReducedTripsQuery.
End ReducedTrips.

(** ** Further stores, events and tables to run the model on *)

Module Scenarios.
Import Aws Concrete Athena.

(** A store with a summary that names no records file, one whose
    aggregated object does not parse and one whose records file is not
    in the Object Store; a result file without rows, one with the same
    trip twice and one without [trip_id] column. *)
Definition bare_world : World :=
  mkWorld {[ "t7" := {[ "trip_id" := JsStr "t7" ]};
             "t8" := {[ "trip_id" := JsStr "t8";
                        "AggregationExecuted" := JsBool true ]};
             "t9" := {[ "trip_id" := JsStr "t9";
                        "RecordsFile" :=
                          JsObj {[ "Bucket" := JsStr "reduced";
                                   "Key" := JsStr "gone.csv" ]} ]} ]}
          {[ ("aggregated", "trips/t8.json") := "{oops";
             ("reduced", "empty.csv") := "trip_id,vehicle_id" +:+ nl;
             ("reduced", "twice.csv") :=
               "trip_id,vehicle_id" +:+ nl +:+ "t5,v1" +:+ nl +:+ "t5,v1" +:+ nl;
             ("reduced", "nokey.csv") := "vehicle_id" +:+ nl +:+ "v1" +:+ nl ]}
          [] no_faults all_written in_order.

(** [Concrete.world] with a service that leaves every item of every
    batch unprocessed. *)
Definition throttled_world : World :=
  mkWorld (summaries world) (objects world) [] no_faults (λ _ _ _, true)
          in_order.

(** [bare_world] with a service that serves first the request that was
    issued last. *)
Definition last_first : list Call → list nat → nat :=
  λ _ pending, length pending - 1.

Definition racing_world : World :=
  mkWorld (summaries bare_world) (objects bare_world) [] no_faults
          all_written last_first.

(** The event of a cycle whose two result files are those of
    [Concrete.world]. *)
Definition cycle_event : CreateTripSummaries.Event :=
  {| CreateTripSummaries.QueryResults :=
       ["s3://reduced/summary.csv"; "s3://reduced/records.csv"] |}.

(** [sample_table] with a second [engine-start] row for [t1]. *)
Definition restarted_table : list EventRow :=
  sample_row "t1" "engine-start" "2023-01-02T03:02:00.000Z" "02"
    :: sample_table.
End Scenarios.

(** ** packages/vehicle-simulator: records.ts, trip.ts, simulator.ts

    One turn of [Simulator.runSimulationIteration], from its call to
    its first suspension (the wait for the [putRecordBatch] requests): it
    runs without interleaving, on the simulator's fields and on the
    [Trip] objects they refer to. Objects live in a heap, arrays hold
    references, so that a change made through one array is seen through
    the others. Numbers are integers where the code counts and rationals
    where it draws them; the results of [uuid()], [Math.random()],
    [Date.now()] and [new Date().toISOString()] come from the
    environment, call by call. *)

Module Simulator.

(** trip.ts *)
Inductive TripStatus := ACTIVE | FINISHED.

(** records.ts *)
Inductive EventType := ENGINE_START | KEEP_ALIVE | TRIP_FINISHED.

Definition EventType_value (t : EventType) : string :=
  match t with
  | ENGINE_START => "engine-start"
  | KEEP_ALIVE => "keep-alive"
  | TRIP_FINISHED => "trip-finished"
  end.

#[export] Instance TripStatus_eq_dec : EqDecision TripStatus.
Proof. solve_decision. Defined.

#[export] Instance EventType_eq_dec : EqDecision EventType.
Proof. solve_decision. Defined.

(** [Status] is the field [TripStatus]. *)
Record Trip := mkTrip {
  Id : string;
  VehicleId : string;
  TripDuration : Z;
  TargetTripDuration : QArith_base.Q;
  Status : TripStatus;
  Ticker : Z
}.

(** [Type_] is the field [EventType]; [RandomData] is [undefined] in
    every record the simulator builds. *)
Record EventRecord := {
  EventId : string;
  TripId : string;
  DeviceId : string;
  EventTime : Z;
  EventDate : string;
  Type_ : EventType
}.

Module Props.
(** [SimulatorProps] *)
Record SimulatorProps := {
  DeliveryStreamName : string;
  TargetVehicles : Z;
  TargetTripDuration : QArith_base.Q;
  TargetTripCount : option Z
}.
End Props.

(** What the environment answers to the [n]-th call made to it. *)
Record Env := {
  uuid : nat → string;
  Math_random : nat → QArith_base.Q;
  Date_now : nat → Z;
  Date_toISOString : nat → string
}.

(** The fields of the simulator, the heap of [Trip] objects, the number
    of calls made to the environment, the [putRecordBatch] requests
    issued and the trips for which a publication timer was set. *)
Record State := mkState {
  heap : gmap nat Trip;
  trips : list nat;
  finishedTrips : Z;
  simulationIterationCount : Z;
  calls : nat;
  batches : list (list EventRecord);
  timers : list nat
}.

Definition set_heap (h : gmap nat Trip) (s : State) : State :=
  mkState h (trips s) (finishedTrips s) (simulationIterationCount s)
          (calls s) (batches s) (timers s).
Definition set_trips (l : list nat) (s : State) : State :=
  mkState (heap s) l (finishedTrips s) (simulationIterationCount s)
          (calls s) (batches s) (timers s).
Definition set_finishedTrips (n : Z) (s : State) : State :=
  mkState (heap s) (trips s) n (simulationIterationCount s)
          (calls s) (batches s) (timers s).
Definition set_simulationIterationCount (n : Z) (s : State) : State :=
  mkState (heap s) (trips s) (finishedTrips s) n
          (calls s) (batches s) (timers s).
Definition set_calls (n : nat) (s : State) : State :=
  mkState (heap s) (trips s) (finishedTrips s) (simulationIterationCount s)
          n (batches s) (timers s).
Definition set_batches (b : list (list EventRecord)) (s : State) : State :=
  mkState (heap s) (trips s) (finishedTrips s) (simulationIterationCount s)
          (calls s) b (timers s).
Definition set_timers (t : list nat) (s : State) : State :=
  mkState (heap s) (trips s) (finishedTrips s) (simulationIterationCount s)
          (calls s) (batches s) t.

Definition Sim (A : Type) : Type := State → State * A.

#[export] Instance Sim_ret : MRet Sim := λ A a s, (s, a).
#[export] Instance Sim_bind : MBind Sim := λ A B f m s,
  let '(s', a) := m s in f a s'.

(** A read of the fields, and a change of them. *)
Definition get {A} (f : State → A) : Sim A := λ s, (s, f s).
Definition modify (f : State → State) : Sim unit := λ s, (f s, ()).

(** [l.map(f)] for a callback with effects, in the order of [l]. *)
Fixpoint map_array {A B} (f : A → Sim B) (l : list A) : Sim (list B) :=
  match l with
  | [] => mret []
  | x :: xs => y ← f x; ys ← map_array f xs; mret (y :: ys)
  end.

(** The references of [l] whose object passes the test [p] in the heap
    [h]. *)
Definition passing (p : Trip → bool) (h : gmap nat Trip) (l : list nat)
  : list nat :=
  List.filter (λ r, from_option p false (h !! r)) l.

(** [l.filter(t => p(t))] on an array of trips: the test reads the
    objects as they are when the filter runs. *)
Definition filter_trips (p : Trip → bool) (l : list nat) : Sim (list nat) :=
  get (λ s, passing p (heap s) l).

Definition with_Status (st : TripStatus) (t : Trip) : Trip :=
  mkTrip (Id t) (VehicleId t) (TripDuration t) (TargetTripDuration t) st
         (Ticker t).
Definition with_TripDuration (d : Z) (t : Trip) : Trip :=
  mkTrip (Id t) (VehicleId t) d (TargetTripDuration t) (Status t) (Ticker t).

(** An assignment to a field of the object [trip]. *)
Definition update (trip : nat) (f : Trip → Trip) : Sim unit :=
  modify (λ s, set_heap (alter f trip (heap s)) s).

(** [new] object: a reference that is not in use. *)
Definition alloc (t : Trip) : Sim nat :=
  λ s, let r := fresh (dom (heap s)) in
       (set_heap (<[r := t]> (heap s)) s, r).

(** [x >= y] for an integer [x] and a number [y] *)
Definition number_ge (x : Z) (y : QArith_base.Q) : bool :=
  QArith_base.Qle_bool y (QArith_base.inject_Z x).

(** [Math.round(x)]: the integer nearest to [x], the upper one of two. *)
Definition Math_round (x : QArith_base.Q) : Z :=
  Qround.Qfloor (QArith_base.Qplus x (QArith_base.Qmake 1 2)).

(** The fields that only the turn itself assigns. *)
Definition same_fields (s s' : State) : Prop :=
  trips s' = trips s ∧ finishedTrips s' = finishedTrips s ∧
  simulationIterationCount s' = simulationIterationCount s ∧
  batches s' = batches s ∧ timers s' = timers s.

(** The record [e] is a report of the type [type] on the trip [r] of the
    heap [h]. *)
Definition reports (h : gmap nat Trip) (type : EventType) (r : nat)
    (e : EventRecord) : Prop :=
  Type_ e = type ∧
  TripId e = from_option Id EmptyString (h !! r) ∧
  DeviceId e = from_option VehicleId EmptyString (h !! r).

(** The records with the type [type] and the trip id [id]. *)
Definition records_of (type : EventType) (id : string)
    (records : list EventRecord) : list EventRecord :=
  filter (λ e, Type_ e = type ∧ TripId e = id) records.

(** The loop [for (let i = 0; i < iterationRecords.length; i += 500)],
    from the value [i] of its counter on. *)
Equations? recordChunks_from {A} (iterationRecords : list A) (i : nat)
  : list (list A) by wf (length iterationRecords - i) lt :=
  recordChunks_from iterationRecords i
    with decide (i < length iterationRecords) => {
    | left _ :=
        CreateTripSummaries.slice i
          (min (length iterationRecords) (i + 500)) iterationRecords
          :: recordChunks_from iterationRecords (i + 500);
    | right _ := [] }.
Proof. lia. Qed.

Section Iteration.
Variable env : Env.
Variable props : Props.SimulatorProps.

Definition call {A} (answer : Env → nat → A) : Sim A :=
  λ s, (set_calls (S (calls s)) s, answer env (calls s)).

(** The record literal the three [map] callbacks return. *)
Definition event (trip : nat) (type : EventType) : Sim EventRecord :=
  id ← call uuid;
  now ← call Date_now;
  date ← call Date_toISOString;
  get (λ s, {| EventId := id;
               TripId := from_option Id EmptyString (heap s !! trip);
               DeviceId := from_option VehicleId EmptyString (heap s !! trip);
               EventTime := now;
               EventDate := date;
               Type_ := type |}).

(** Callback of [tripsToFinish.map]. *)
Definition finish (trip : nat) : Sim EventRecord :=
  update trip (with_Status FINISHED);;
  event trip TRIP_FINISHED.

(** Callback of [new Array(newTripCount).fill(null).map]. *)
Definition create (index : nat) : Sim nat :=
  id ← call uuid;
  vehicle ← call uuid;
  r1 ← call Math_random;
  r2 ← call Math_random;
  alloc {| Id := id;
           VehicleId := vehicle;
           TripDuration := 0%Z;
           TargetTripDuration :=
             QArith_base.Qmult (Props.TargetTripDuration props)
               (QArith_base.Qminus (QArith_base.inject_Z 1)
                  (QArith_base.Qminus
                     (QArith_base.Qmult r1 (QArith_base.Qmake 3 10))
                     (QArith_base.Qmake 15 100)));
           Status := ACTIVE;
           Ticker := Math_round
                       (QArith_base.Qmult r2 (QArith_base.inject_Z 10)) |}.

(** What [create] allocates: a trip that has not started, with an [Id]
    and a ticker drawn after the first [c] calls to the environment. *)
Definition created (h : gmap nat Trip) (c : nat) (h' : gmap nat Trip)
    (r : nat) : Prop :=
  h !! r = None ∧
  ∃ t k k',
    h' !! r = Some t ∧ Status t = ACTIVE ∧ TripDuration t = 0%Z ∧
    c ≤ k ∧ Id t = uuid env k ∧
    Ticker t = Math_round (QArith_base.Qmult (Math_random env k')
                                             (QArith_base.inject_Z 10)).

(** Callback of [newTrips.map]. *)
Definition start (trip : nat) : Sim EventRecord :=
  event trip ENGINE_START.

(** Callback of [activeTrips.map]. *)
Definition keep_alive (trip : nat) : Sim EventRecord :=
  update trip (λ t, with_TripDuration (TripDuration t + 1)%Z t);;
  event trip KEEP_ALIVE.

(** [this.props.TargetTripCount], as a condition. *)
Definition has_TargetTripCount : option Z :=
  match Props.TargetTripCount props with
  | Some n => if Z.eqb n 0 then None else Some n
  | None => None
  end.

Inductive Outcome :=
| Suspended (tickerTrips : list nat)
| RangeError.

(** The number of trips to create. *)
Definition newTripCount (s : State) : Z :=
  let tripCount := Z.of_nat (length (trips s)) in
  let newTripCount := (Props.TargetVehicles props - tripCount)%Z in
  match has_TargetTripCount with
  | Some target =>
      let availableTrips :=
        (target - Z.of_nat (length (trips s)) - finishedTrips s)%Z in
      Z.min availableTrips newTripCount
  | None => newTripCount
  end.

(** From the filter that drops the finished trips to the end. *)
Definition populate_and_report (tickerTrips : list nat)
    (finished : list EventRecord) : Sim Outcome :=
  this_trips ← get trips;
  kept ← filter_trips (λ t, negb (bool_decide (Status t = FINISHED)))
                      this_trips;
  modify (set_trips kept);;
  count ← get newTripCount;
  if decide (4294967295 < count)%Z then mret RangeError
  else
    (if decide (0 < count)%Z then
       newTrips ← map_array create (seq 0 (Z.to_nat count));
       modify (λ s, set_trips (trips s ++ newTrips) s)
     else mret ());;
    newTrips ← filter_trips (λ t, Z.eqb (TripDuration t) 0) tickerTrips;
    started ← map_array start newTrips;
    activeTrips ← filter_trips (λ t, bool_decide (Status t = ACTIVE))
                               tickerTrips;
    alive ← map_array keep_alive activeTrips;
    let iterationRecords := ([] ++ finished) ++ started ++ alive in
    modify (λ s, set_batches
                   (batches s ++ recordChunks_from iterationRecords 0) s);;
    mret (Suspended tickerTrips).

Definition runSimulationIteration : Sim Outcome :=
  modify (λ s, set_simulationIterationCount
                 (simulationIterationCount s + 1)%Z s);;
  count ← get simulationIterationCount;
  let ticker := Z.rem count 10 in
  this_trips ← get trips;
  tickerTrips ← filter_trips (λ t, Z.eqb (Ticker t) ticker) this_trips;
  trips ← filter_trips (λ t, bool_decide (Status t = ACTIVE)) this_trips;
  tripsToFinish ←
    filter_trips (λ t, number_ge (TripDuration t) (TargetTripDuration t))
                 trips;
  finished ← map_array finish tripsToFinish;
  modify (λ s, set_timers (timers s ++ tripsToFinish) s);;
  modify (λ s, set_finishedTrips
                 (finishedTrips s + Z.of_nat (length tripsToFinish))%Z s);;
  populate_and_report tickerTrips finished.

(** The test made when the turn resumes, on the objects as they are
    then: whether the process exits. *)
Definition exits (tickerTrips : list nat) (s : State) : bool :=
  match has_TargetTripCount with
  | Some target =>
      bool_decide
        (target ≤ Z.of_nat
                    (length (filter_trips
                               (λ t, bool_decide (Status t = FINISHED))
                               tickerTrips s).2))%Z
  | None => false
  end.

(** [n] turns in a row, as the timer starts them; a turn that raises
    leaves the fields as they are at that point. *)
Fixpoint turns (n : nat) (s : State) : State :=
  match n with
  | 0 => s
  | S n => turns n (runSimulationIteration s).1
  end.
End Iteration.

(** The arrays [tickerTrips] and [tripsToFinish] of a turn that starts
    in the state [s]. *)
Definition tickerTrips (s : State) : list nat :=
  passing (λ t, Z.eqb (Ticker t) (Z.rem (simulationIterationCount s + 1) 10))
          (heap s) (trips s).

Definition tripsToFinish (s : State) : list nat :=
  passing (λ t, number_ge (TripDuration t) (TargetTripDuration t)) (heap s)
    (passing (λ t, bool_decide (Status t = ACTIVE)) (heap s) (trips s)).

(** [r] refers to a trip that is under way. *)
Definition underway (s : State) (r : nat) : Prop :=
  ∃ t, heap s !! r = Some t ∧ Status t = ACTIVE.

(** [r] is one of the simulator's trips, refers to [t], and [t] is under
    way, has not reached its target duration, and has a ticker that is
    not one of 0, ..., 9. *)
Definition stalled (s : State) (r : nat) (t : Trip) : Prop :=
  heap s !! r = Some t ∧ r ∈ trips s ∧ Status t = ACTIVE ∧
  ¬ (0 ≤ Ticker t ≤ 9)%Z ∧
  number_ge (TripDuration t) (TargetTripDuration t) = false.

(** No other object of the heap [h] has the [Id] of [t]. *)
Definition only_trip (h : gmap nat Trip) (r : nat) (t : Trip) : Prop :=
  ∀ r' t', h !! r' = Some t' → Id t' = Id t → r' = r.

(** The fields as the class initialises them. *)
Definition constructed : State := mkState ∅ [] 0 0 0 [] [].

(** [startSimulation], after the endpoint was fetched: the fields as it
    sets them before the first turn ([simulationStartTime] is a reading
    of the clock that is only logged). *)
Definition startSimulation (s : State) : State :=
  set_simulationIterationCount (-1)%Z
    (set_calls (S (calls s)) (set_trips [] s)).

End Simulator.

Module SimulatorScenarios.
Import Simulator.

(** packages/vehicle-simulator/index.ts: the configuration the
    simulator is started with. *)
Definition index_props : Props.SimulatorProps :=
  {| Props.DeliveryStreamName :=
       "TripAggregationDataIngestion_TelemetryIngestion";
     Props.TargetVehicles := 100;
     Props.TargetTripDuration := QArith_base.inject_Z 1800;
     Props.TargetTripCount := None |}.

(** The same with a target trip count. *)
Definition counted_props : Props.SimulatorProps :=
  {| Props.DeliveryStreamName :=
       "TripAggregationDataIngestion_TelemetryIngestion";
     Props.TargetVehicles := 100;
     Props.TargetTripDuration := QArith_base.inject_Z 1800;
     Props.TargetTripCount := Some 3%Z |}.

(** An environment that numbers its answers and draws 0.95 every
    time. *)
Definition numbering : Env :=
  {| uuid := λ n, String (Ascii.ascii_of_nat 117) (pretty n);
     Math_random := λ _, QArith_base.Qmake 19 20;
     Date_now := λ n, Z.of_nat n;
     Date_toISOString := λ n, pretty n |}.

(** A trip with the ticker 10, and a simulator that has just this
    trip. *)
Definition waiting_trip : Trip :=
  mkTrip "t0" "v0" 0 (QArith_base.inject_Z 1800) ACTIVE 10.

Definition waiting : State :=
  mkState {[ 0 := waiting_trip ]} [0] 0 (-1) 0 [] [].
End SimulatorScenarios.

(** * Properties *)

(** ** Strings *)

Lemma split_lacks c s : lacks c s = true → split c s = [s].
Proof.
  induction s as [|d s IH]; simpl; [done|].
  intros [Hd Hs]%andb_prop. apply negb_true_iff in Hd. rewrite Hd.
  by rewrite (IH Hs).
Qed.

Lemma split_app_sep c a b :
  lacks c a = true → split c (a +:+ String c b) = a :: split c b.
Proof.
  induction a as [|d a IH]; simpl.
  - intros _. by rewrite Ascii.eqb_refl.
  - intros [Hd Ha]%andb_prop. apply negb_true_iff in Hd. rewrite Hd.
    by rewrite (IH Ha).
Qed.

Lemma append_cons d (a b : string) : String d a +:+ b = String d (a +:+ b).
Proof. reflexivity. Qed.

Lemma split_nonempty c s : split c s ≠ [].
Proof.
  destruct s as [|d s]; simpl; [done|].
  destruct (Ascii.eqb d c); [done|]. by destruct (split c s).
Qed.

Lemma split_app c a b :
  split c (a +:+ String c b) = split c a ++ split c b.
Proof.
  induction a as [|d a IH].
  - simpl. by rewrite Ascii.eqb_refl.
  - rewrite append_cons. simpl. rewrite IH.
    destruct (Ascii.eqb d c); [done|].
    destruct (split c a) as [|x xs] eqn:Ha; [|done].
    by destruct (split_nonempty _ _ Ha).
Qed.

Lemma append_empty_r (a : string) : a +:+ EmptyString = a.
Proof. induction a as [|d a IH]; [done|]. by rewrite append_cons, IH. Qed.

Lemma lacks_app c a b : lacks c (a +:+ b) = lacks c a && lacks c b.
Proof.
  induction a as [|d a IH]; simpl; [done|]. by rewrite IH, andb_assoc.
Qed.

Lemma append_assoc (a b c : string) : (a +:+ b) +:+ c = a +:+ (b +:+ c).
Proof.
  induction a as [|d a IH]; [done|]. by rewrite !append_cons, IH.
Qed.

(** ** Partition key extraction *)

Section PartitionKeys.
Import TripReduction PartitionSpec.

Lemma segment_entry_form name value :
  lacks Chars.equals name = true →
  lacks Chars.equals value = true →
  segment_entry (name +:+ "=" +:+ value) = Some (name, value).
Proof.
  intros Hn Hv. unfold segment_entry.
  change (name +:+ "=" +:+ value) with (name +:+ String Chars.equals value).
  by rewrite split_app_sep, (split_lacks _ value).
Qed.

(** A segment with more than one [=] supplies the text between the first
    and the second. *)
Lemma segment_entry_cut name value rest :
  lacks Chars.equals name = true →
  lacks Chars.equals value = true →
  rest = EmptyString ∨ (∃ more, rest = "=" +:+ more) →
  segment_entry (name +:+ "=" +:+ value +:+ rest) = Some (name, value).
Proof.
  intros Hn Hv [->|[more ->]].
  - rewrite append_empty_r. by apply segment_entry_form.
  - unfold segment_entry.
    change (name +:+ "=" +:+ value +:+ "=" +:+ more)
      with (name +:+ String Chars.equals (value +:+ String Chars.equals more)).
    rewrite !split_app_sep by done.
    destruct (split Chars.equals more) as [|x xs] eqn:Hm; [|done].
    by destruct (split_nonempty _ _ Hm).
Qed.

Lemma forEach_param_skip m param :
  lacks Chars.equals param = true → forEach_param m param = m.
Proof. intros H. unfold forEach_param. by rewrite split_lacks. Qed.

Lemma forEach_param_lookup m param name :
  name ≠ "__proto__" →
  forEach_param m param !! name =
    match segment_entry param with
    | Some (n, v) => if decide (n = name) then Some v else m !! name
    | None => m !! name
    end.
Proof.
  intros Hname. unfold forEach_param, segment_entry, js_set.
  destruct (split Chars.equals param) as [|n [|v rest]]; try done.
  destruct (decide (n = name)) as [->|Hne].
  - rewrite decide_False by done. apply lookup_insert_eq.
  - case_decide; [done|]. by apply lookup_insert_ne.
Qed.

Lemma forEach_param_proto m param :
  forEach_param m param !! "__proto__" = m !! "__proto__".
Proof.
  unfold forEach_param, js_set.
  destruct (split Chars.equals param) as [|n [|v rest]]; try done.
  case_decide; [done|]. by apply lookup_insert_ne.
Qed.

Lemma foldl_forEach_proto params m :
  foldl forEach_param m params !! "__proto__" = m !! "__proto__".
Proof.
  revert m. induction params as [|p ps IH]; intros m; simpl; [done|].
  by rewrite IH, forEach_param_proto.
Qed.

Lemma foldl_forEach_lookup params m name :
  name ≠ "__proto__" →
  foldl forEach_param m params !! name =
    match supplied name params with
    | Some v => Some v
    | None => m !! name
    end.
Proof.
  intros Hname. revert m.
  induction params as [|p ps IH]; intros m; simpl; [done|].
  rewrite IH. destruct (supplied name ps); [done|].
  rewrite forEach_param_lookup by done.
  destruct (segment_entry p) as [[n v]|]; [|done]. by case_decide.
Qed.

Lemma supplied_app name pre post :
  supplied name (pre ++ post) =
    match supplied name post with
    | Some v => Some v
    | None => supplied name pre
    end.
Proof.
  induction pre as [|p pre IH]; simpl; [by destruct (supplied name post)|].
  rewrite IH. by destruct (supplied name post).
Qed.

(** The five partition names are own properties after the loop, whatever
    the key is. *)
Lemma extract_own objectKey name :
  name ∈ partition_names → is_Some (extract objectKey !! name).
Proof.
  intros Hin. unfold extract.
  assert (name ≠ "__proto__") as Hname.
  { intros ->. unfold partition_names in Hin.
    repeat (apply elem_of_cons in Hin as [Hin|Hin]; [discriminate|]).
    by apply elem_of_nil in Hin. }
  rewrite foldl_forEach_lookup by done.
  destruct (supplied name _); [by eexists|].
  unfold partition_names in Hin.
  repeat (apply elem_of_cons in Hin as [->|Hin]; [by eexists|]).
  by apply elem_of_nil in Hin.
Qed.

Example extract_abc :
  extract "a=1/b=2/c=3" =
    <["a" := "1"]> (<["b" := "2"]> (<["c" := "3"]> rawStateMachineInput0)).
Proof. vm_compute. reflexivity. Qed.

(** C6, as worded, fails: a name supplied twice keeps only its last
    value, so the segment [a=1] of [a=1/a=2] is not mapped to [{a: 1}]; the
    value of [a=1=2] is cut at its second [=]; and the segment
    [__proto__=x] creates no entry. *)
Lemma extract_counterexamples :
  ¬ maps_each_segment "a=1/a=2" (extract "a=1/a=2") ∧
  ¬ maps_each_segment "a=1=2" (extract "a=1=2") ∧
  ¬ maps_each_segment "__proto__=x" (extract "__proto__=x").
Proof.
  split_and!; intros H.
  - assert (extract "a=1/a=2" !! "a" = Some "1") as Habs.
    { apply (H "a=1" "a" "1"); [|done]. vm_compute. apply list_elem_of_here. }
    vm_compute in Habs. discriminate.
  - assert (extract "a=1=2" !! "a" = Some "1=2") as Habs.
    { apply (H "a=1=2" "a" "1=2"); [|done]. vm_compute. apply list_elem_of_here. }
    vm_compute in Habs. discriminate.
  - assert (extract "__proto__=x" !! "__proto__" = Some "x") as Habs.
    { apply (H "__proto__=x" "__proto__" "x"); [|done].
      vm_compute. apply list_elem_of_here. }
    vm_compute in Habs. discriminate.
Qed.

(** C6 (amended): the handler never raises, whatever the key. A segment
    [name=value] whose name is not [__proto__] and is not supplied again
    by a later segment is mapped to the entry [name: value]; when the
    segment goes on with a second [=], the value is the text between the
    first and the second. No key gives an entry [__proto__]. A segment
    without [=] is skipped and leaves the result of the other segments
    as it is. A name that no segment supplies has the entry of the
    object literal, if it has one there: each of year, month, day, hour
    and minute is the empty string, and there is no other entry. *)
Theorem partition_extraction_last_wins
    (AthenaTableName bucket objectKey : string) :
  (∃ out, handler AthenaTableName
            {| bucketName := bucket; key := objectKey |} = Ok out) ∧
  (∀ pre post name value rest,
      split Chars.slash objectKey
        = pre ++ (name +:+ "=" +:+ value +:+ rest) :: post →
      lacks Chars.equals name = true →
      lacks Chars.equals value = true →
      rest = EmptyString ∨ (∃ more, rest = "=" +:+ more) →
      name ≠ "__proto__" →
      supplied name post = None →
      extract objectKey !! name = Some value) ∧
  extract objectKey !! "__proto__" = None ∧
  (∀ pre post param,
      split Chars.slash objectKey = pre ++ param :: post →
      lacks Chars.equals param = true →
      extract objectKey = foldl forEach_param rawStateMachineInput0 (pre ++ post)) ∧
  (∀ name,
      name ≠ "__proto__" →
      supplied name (split Chars.slash objectKey) = None →
      extract objectKey !! name = rawStateMachineInput0 !! name) ∧
  (∀ name,
      name ∈ partition_names →
      supplied name (split Chars.slash objectKey) = None →
      extract objectKey !! name = Some EmptyString).
Proof.
  split; [by eexists|]. split_and!.
  - intros pre post name value rest Hsplit Hn Hv Hrest Hname Hlater.
    unfold extract. rewrite Hsplit, foldl_forEach_lookup by done.
    rewrite supplied_app. simpl. rewrite Hlater.
    rewrite segment_entry_cut by done. by rewrite decide_True.
  - unfold extract. by rewrite foldl_forEach_proto.
  - intros pre post param Hsplit Hparam.
    unfold extract. rewrite Hsplit, !foldl_app. simpl.
    by rewrite forEach_param_skip.
  - intros name Hname Hnone.
    unfold extract. by rewrite foldl_forEach_lookup, Hnone by done.
  - intros name Hin Hnone.
    assert (name ≠ "__proto__") as Hname.
    { intros ->. unfold partition_names in Hin.
      repeat (apply elem_of_cons in Hin as [Hin|Hin]; [discriminate|]).
      by apply elem_of_nil in Hin. }
    unfold extract. rewrite foldl_forEach_lookup, Hnone by done.
    unfold partition_names in Hin.
    repeat (apply elem_of_cons in Hin as [->|Hin]; [done|]).
    by apply elem_of_nil in Hin.
Qed.

Lemma partition_extraction_last_wins_witness :
  extract "raw/year=2023/month=01/day=02/hour=03/minute=04/part-0001"
    !! "year" = Some "2023"
  ∧ extract "raw/hour=03=x/part-0001" !! "hour" = Some "03"
  ∧ extract "raw/hour=03/part-0001" !! "minute" = Some EmptyString.
Proof.
  split_and!.
  - apply (proj1 (proj2 (partition_extraction_last_wins
             "aggregated_trips" "bucket"
             "raw/year=2023/month=01/day=02/hour=03/minute=04/part-0001"))
           ["raw"] ["month=01"; "day=02"; "hour=03"; "minute=04"; "part-0001"]
           "year" "2023" EmptyString);
      [reflexivity | reflexivity | reflexivity | by left | discriminate
      | reflexivity].
  - apply (proj1 (proj2 (partition_extraction_last_wins
             "aggregated_trips" "bucket" "raw/hour=03=x/part-0001"))
           ["raw"] ["part-0001"] "hour" "03" "=x");
      [reflexivity | reflexivity | reflexivity | right; by exists "x"
      | discriminate | reflexivity].
  - apply (proj2 (proj2 (proj2 (proj2 (proj2 (partition_extraction_last_wins
             "aggregated_trips" "bucket" "raw/hour=03/part-0001"))))) "minute");
      [ do 4 apply list_elem_of_further; apply list_elem_of_here
      | reflexivity ].
Defined.

End PartitionKeys.

(** ** Query templates *)

Section QueryTemplates.
Import TripReduction DataReduction.

Lemma States_Format_lacks s t args :
  lacks Chars.lbrace s = true →
  States_Format (s +:+ t) args = String.append s <$> States_Format t args.
Proof.
  induction s as [|d s IH].
  - intros _. change (EmptyString +:+ t) with t.
    by destruct (States_Format t args).
  - intros H. simpl in H. apply andb_prop in H as [Hd Hs].
    apply negb_true_iff in Hd.
    rewrite append_cons. simpl. rewrite Hd, (IH Hs).
    by destruct (States_Format t args).
Qed.

Lemma States_Format_placeholder prefix suffix arg :
  lacks Chars.lbrace prefix = true →
  lacks Chars.lbrace suffix = true →
  States_Format (prefix +:+ "{}" +:+ suffix) [arg]
    = Some (prefix +:+ arg +:+ suffix).
Proof.
  intros Hp Hs. rewrite States_Format_lacks by done.
  change ("{}" +:+ suffix)
    with (String Chars.lbrace (String Chars.rbrace suffix)).
  simpl. rewrite <- (append_empty_r suffix) at 1.
  rewrite States_Format_lacks by done. simpl.
  by rewrite append_empty_r.
Qed.

Lemma quoted_table_lacks T :
  lacks Chars.lbrace T = true → lacks Chars.lbrace (quoted_table T) = true.
Proof.
  intros H. unfold quoted_table. rewrite !lacks_app, H. by vm_compute.
Qed.

Lemma summary_query_prefix_lacks T :
  lacks Chars.lbrace T = true →
  lacks Chars.lbrace (summary_query_prefix T) = true.
Proof.
  intros H. unfold summary_query_prefix.
  rewrite !lacks_app, !quoted_table_lacks by done. by vm_compute.
Qed.

Lemma reduced_query_prefix_lacks T :
  lacks Chars.lbrace T = true →
  lacks Chars.lbrace (reduced_query_prefix T) = true.
Proof.
  intros H. unfold reduced_query_prefix.
  rewrite !lacks_app, !quoted_table_lacks by done. by vm_compute.
Qed.

Lemma filter_expression_flat y mo d h mi :
  filter_expression y mo d h mi =
    "a.year = '" +:+ y +:+ "' and a.month = '" +:+ mo
      +:+ "' and a.day = '" +:+ d +:+ "' and a.hour = '" +:+ h
      +:+ "' and a.minute = '" +:+ mi +:+ "'".
Proof.
  unfold filter_expression, join. simpl String.concat.
  by rewrite !append_assoc.
Qed.

(** C7: two runs on the same notification key return the same templates
    and the same filter expression; the filter has the form
    [a.year = 'Y' and a.month = 'M' and a.day = 'D' and a.hour = 'H' and
    a.minute = 'Min'] for the extracted values; and the query strings the
    two query tasks build from that output both embed this very filter,
    in the place of the template's placeholder. *)
Theorem query_templates_deterministic_same_filter
    (AthenaTableName : string) (e1 e2 : InitialInput) :
  lacks Chars.lbrace AthenaTableName = true →
  key e1 = key e2 →
  ∃ out,
    handler AthenaTableName e1 = Ok out ∧
    handler AthenaTableName e2 = Ok out ∧
    QueryFilterExpression out =
      "a.year = '" +:+ prop (extract (key e1)) "year"
        +:+ "' and a.month = '" +:+ prop (extract (key e1)) "month"
        +:+ "' and a.day = '" +:+ prop (extract (key e1)) "day"
        +:+ "' and a.hour = '" +:+ prop (extract (key e1)) "hour"
        +:+ "' and a.minute = '" +:+ prop (extract (key e1)) "minute"
        +:+ "'" ∧
    findFinishedTripsTask_queryString out =
      Some (summary_query_prefix AthenaTableName
              +:+ QueryFilterExpression out +:+ ";") ∧
    createTripsFileTask_queryString out =
      Some (reduced_query_prefix AthenaTableName
              +:+ QueryFilterExpression out +:+ reduced_query_suffix).
Proof.
  intros HT Hkey. unfold handler. rewrite <- Hkey.
  eexists. split; [reflexivity|]. split; [reflexivity|].
  unfold findFinishedTripsTask_queryString, createTripsFileTask_queryString.
  cbn [QueryFilterExpression FinishedTripsSummaryQuery ReducedTripsQuery].
  split; [apply filter_expression_flat|].
  unfold FinishedTripsSummaryQuery_template, ReducedTripsQuery_template.
  split; apply States_Format_placeholder;
    auto using summary_query_prefix_lacks, reduced_query_prefix_lacks.
Qed.

Lemma query_templates_deterministic_same_filter_witness :
  ∃ out,
    handler "aggregated_trips"
      {| bucketName := "raw-bucket";
         key := "raw/year=2023/month=01/day=02/hour=03/minute=04/part-0001" |}
      = Ok out ∧
    QueryFilterExpression out =
      "a.year = '2023' and a.month = '01' and a.day = '02' and a.hour = '03' and a.minute = '04'" ∧
    findFinishedTripsTask_queryString out =
      Some (summary_query_prefix "aggregated_trips"
              +:+ QueryFilterExpression out +:+ ";").
Proof.
  destruct (query_templates_deterministic_same_filter "aggregated_trips"
              {| bucketName := "raw-bucket";
                 key := "raw/year=2023/month=01/day=02/hour=03/minute=04/part-0001" |}
              {| bucketName := "other-bucket";
                 key := "raw/year=2023/month=01/day=02/hour=03/minute=04/part-0001" |}
              eq_refl eq_refl)
    as (out & H1 & _ & H3 & H4 & _).
  exists out. split; [exact H1|]. split; [|exact H4].
  rewrite H3. reflexivity.
Defined.

End QueryTemplates.

(** ** Trip aggregation cache *)

Section AggregationCache.
Import Aws TripsApiBackend CacheSpec.
Context `{Platform}.
Variable TripRecordsBucketName : string.

Abbreviation handler := (TripsApiBackend.handler TripRecordsBucketName).

Ltac run_handler :=
  unfold TripsApiBackend.handler, mbind, M_bind, mret, M_ret, dynamodb_get,
    dynamodb_update_set, s3_getObject, s3_putObject, s3_selectObjectContent,
    issue, lift, s3_location; simpl.

Lemma key_value_trip_id id : key_value {[ "trip_id" := JsStr id ]} = Some id.
Proof.
  unfold key_value, DataReduction.tripSummaryTable_partitionKey.
  rewrite lookup_singleton_eq, map_size_singleton. by rewrite decide_True.
Qed.

Lemma key_value_TripId id : key_value {[ "TripId" := JsStr id ]} = None.
Proof.
  unfold key_value, DataReduction.tripSummaryTable_partitionKey.
  by rewrite lookup_singleton_ne.
Qed.

Ltac cases := repeat (case_match; simplify_eq/=; try done).

(** Whatever happens, an invocation leaves the Summary Store as it found
    it: the only write it attempts names the row by [TripId], which is
    not the key of the table. *)
Lemma handler_summaries_unchanged event w :
  summaries (handler event w).1 = summaries w.
Proof. run_handler. rewrite key_value_trip_id, key_value_TripId. cases. Qed.

(** Objects are added or overwritten, never removed. *)
Lemma handler_objects_kept event w loc :
  is_Some (objects w !! loc) → is_Some (objects (handler event w).1 !! loc).
Proof.
  intros Hloc. run_handler. rewrite key_value_trip_id, key_value_TripId.
  cases; rewrite lookup_insert; by case_decide.
Qed.

(** C3 (amended): for a tripId without a stored summary the invocation
    fails, having issued the Summary Store read and nothing else: no scan,
    no put, no object read, no update. The failure is the [TypeError] of
    reading [AggregationExecuted] from the missing item (or the error of
    the read itself), not a dedicated not-found error. *)
Theorem unknown_trip_fails_before_object_store event w :
  summaries w !! TripId event = None →
  ∃ e,
    (handler event w).2 = Err e ∧
    requests (handler event w).1 =
      requests w ++ [DynamoGet {[ "trip_id" := JsStr (TripId event) ]}] ∧
    objects (handler event w).1 = objects w ∧
    summaries (handler event w).1 = summaries w ∧
    (faults w (requests w)
       (DynamoGet {[ "trip_id" := JsStr (TripId event) ]}) = None →
     e = TypeError).
Proof.
  intros Hnone. run_handler. rewrite key_value_trip_id.
  destruct (faults w _ _) as [code|]; simpl.
  - by eexists.
  - rewrite Hnone. simpl. by eexists.
Qed.

(** C4: for a stored summary whose [AggregationExecuted] is true the
    invocation issues the Summary Store read and then only the read of
    the object [trips/<tripId>.json] in the trip records bucket: no scan,
    no put, no update, and both stores are left as they were. When the two
    reads are served and the object parses, its value is returned. *)
Theorem warm_path_returns_stored_object event w item v :
  summaries w !! TripId event = Some item →
  item !! "AggregationExecuted" = Some v →
  truthy v = true →
  let G := DynamoGet {[ "trip_id" := JsStr (TripId event) ]} in
  let O := S3GetObject (JsStr TripRecordsBucketName)
                       (JsStr (trip_object_key (TripId event))) in
  summaries (handler event w).1 = summaries w ∧
  objects (handler event w).1 = objects w ∧
  (requests (handler event w).1 = requests w ++ [G] ∨
   requests (handler event w).1 = requests w ++ [G; O]) ∧
  (∀ Body trip,
      faults w (requests w) G = None →
      faults w (requests w ++ [G]) O = None →
      objects w !! (TripRecordsBucketName, trip_object_key (TripId event))
        = Some Body →
      JSON_parse Body = Some trip →
      (handler event w).2 = Ok trip ∧
      requests (handler event w).1 = requests w ++ [G; O]).
Proof.
  intros Hitem Hflag Htruthy G O. subst G O.
  run_handler. rewrite key_value_trip_id.
  destruct (faults w _ _) as [code|] eqn:HG; simpl.
  { split_and!; try done. by left. }
  rewrite Hitem. simpl. rewrite Hflag. simpl. rewrite Htruthy. simpl.
  destruct (faults w (requests w ++ _) _) as [code|] eqn:HO; simpl.
  { split_and!; try done. right; by rewrite <- app_assoc. }
  destruct (objects w !! _) as [Body|] eqn:Hobj; simpl.
  - split_and!; try done; [right; by rewrite <- app_assoc|].
    intros ? trip _ _ [= <-] Hparse. rewrite Hparse.
    split; [done|by rewrite <- app_assoc].
  - split_and!; try done. right; by rewrite <- app_assoc.
Qed.

(** *** Cold path *)

Lemma nonempty_spec r : nonempty r = negb (String.eqb r EmptyString).
Proof. by destruct r. Qed.

Lemma parsedRecords_kept Payload :
  parsedRecords Payload = omap kept_line (split Chars.newline Payload).
Proof.
  unfold parsedRecords.
  induction (split Chars.newline Payload) as [|r lines IH]; [done|].
  simpl. rewrite nonempty_spec. unfold kept_line at 1.
  destruct (String.eqb r EmptyString); simpl; [done|].
  destruct (JSON_parse r) as [v|]; simpl; [|done].
  destruct (truthy v); by rewrite IH.
Qed.

Lemma foldl_on_record stream tripRecords :
  foldl on_record tripRecords stream = tripRecords ++ kept_lines stream.
Proof.
  revert tripRecords.
  induction stream as [|record stream IH]; intros acc; simpl.
  - by rewrite app_nil_r.
  - rewrite IH. destruct record; simpl; [|done..].
    by rewrite parsedRecords_kept, app_assoc.
Qed.

Lemma collect_kept_lines stream : collect stream = kept_lines stream.
Proof. apply foldl_on_record. Qed.

(** The request that sets the flag is the fourth and last of an
    invocation, directly after the put of the aggregated object, and is
    only issued once that put has been carried out. *)
Lemma update_follows_put event w calls i K a v :
  requests (handler event w).1 = requests w ++ calls →
  calls !! i = Some (DynamoUpdate K a v) →
  ∃ Body,
    i = 3 ∧ length calls = 4 ∧
    calls !! 2 = Some (S3PutObject (JsStr TripRecordsBucketName)
                         (JsStr (trip_object_key (TripId event))) Body) ∧
    objects (handler event w).1
      !! (TripRecordsBucketName, trip_object_key (TripId event)) = Some Body ∧
    K = {[ "TripId" := JsStr (TripId event) ]} ∧
    a = "AggregationExecuted" ∧ v = JsBool true.
Proof.
  run_handler. rewrite key_value_trip_id, key_value_TripId.
  cases; rewrite <- ?app_assoc; intros Hcalls%app_inv_head Hi; subst calls;
    repeat (destruct i as [|i]; simplify_eq/=);
    eexists; split_and!; try done; apply lookup_insert_eq.
Qed.

(** What is put is the stored summary with the collected records. *)
Lemma put_body_is_enhanced event w calls Bucket Key Body :
  requests (handler event w).1 = requests w ++ calls →
  S3PutObject Bucket Key Body ∈ calls →
  ∃ item f b k object,
    summaries w !! TripId event = Some item ∧
    item !! "RecordsFile" = Some (JsObj f) ∧
    f !! "Bucket" = Some (JsStr b) ∧
    f !! "Key" = Some (JsStr k) ∧
    objects w !! (b, k) = Some object ∧
    Body = JSON_stringify
             (JsObj (<["Records" :=
                         JsArr (collect
                                  (s3_select object
                                     (select_expression (TripId event))))]>
                       item)).
Proof.
  run_handler. rewrite key_value_trip_id, key_value_TripId.
  unfold get_prop.
  cases; rewrite <- ?app_assoc; intros Hcalls%app_inv_head Hin; subst calls;
    repeat (apply elem_of_cons in Hin as [Hin|Hin]; simplify_eq/=);
    try (by apply elem_of_nil in Hin);
    repeat match goal with
           | Hx : default _ ?o = _ |- _ => destruct o eqn:?; simplify_eq/=
           | Hx : from_option _ _ ?o = _ |- _ =>
               destruct o eqn:?; simplify_eq/=
           end;
    by do 5 eexists.
Qed.

Lemma kept_object_line r :
  JSON_parse EmptyString = None →
  object_line r = true →
  kept_line r = JSON_parse r.
Proof.
  intros Hempty Hline. unfold kept_line, object_line in *.
  destruct (String.eqb r EmptyString) eqn:Hr.
  - apply String.eqb_eq in Hr as ->. by rewrite Hempty.
  - destruct (JSON_parse r) as [[]|]; done.
Qed.

Lemma kept_object_lines stream :
  JSON_parse EmptyString = None →
  object_lines stream = true →
  kept_lines stream = parsed_lines stream.
Proof.
  intros Hempty. unfold kept_lines, parsed_lines, object_lines.
  induction stream as [|record stream IH]; simpl; [done|].
  intros [Hrecord Hstream]%andb_prop. rewrite (IH Hstream). f_equal.
  destruct record as [Payload| |]; [|done..].
  induction (split Chars.newline Payload) as [|r lines IHl]; [done|].
  cbn [forallb] in Hrecord. apply andb_prop in Hrecord as [Hr Hlines].
  cbn [omap list_omap]. rewrite (kept_object_line r) by done.
  by rewrite <- (IHl Hlines).
Qed.

(** C10: the collection never fails, whatever the lines of the payloads
    are: it is a function of the stream, and it keeps, in delivery
    order, the values of the lines that are not empty, parse as JSON and
    parse to a truthy value. On the lines of a scan (every line that
    parses, parses to an object) these are exactly the lines that
    parse, empty lines and lines that do not parse being dropped; and
    the object put on the cold path is the stored summary with exactly
    these records as [Records]. *)
Theorem unparsable_lines_dropped :
  (∀ stream, collect stream = kept_lines stream) ∧
  (∀ stream,
      JSON_parse EmptyString = None →
      object_lines stream = true →
      collect stream = parsed_lines stream) ∧
  (∀ event w calls Bucket Key Body,
      JSON_parse EmptyString = None →
      requests (handler event w).1 = requests w ++ calls →
      S3PutObject Bucket Key Body ∈ calls →
      ∃ item f b k object,
        summaries w !! TripId event = Some item ∧
        item !! "RecordsFile" = Some (JsObj f) ∧
        f !! "Bucket" = Some (JsStr b) ∧
        f !! "Key" = Some (JsStr k) ∧
        objects w !! (b, k) = Some object ∧
        let stream := s3_select object (select_expression (TripId event)) in
        (object_lines stream = true →
         Body = JSON_stringify
                  (JsObj (<["Records" := JsArr (parsed_lines stream)]> item)))).
Proof.
  split_and!.
  - apply collect_kept_lines.
  - intros stream Hempty Hlines.
    by rewrite collect_kept_lines, kept_object_lines.
  - intros event w calls Bucket Key Body Hempty Hcalls Hin.
    destruct (put_body_is_enhanced _ _ _ _ _ _ Hcalls Hin)
      as (item & f & b & k & object & ? & ? & ? & ? & ? & ->).
    exists item, f, b, k, object. split_and!; try done.
    intros stream Hlines. subst stream.
    by rewrite collect_kept_lines, kept_object_lines.
Qed.

End AggregationCache.

(** ** Summary writer *)

Section SummaryWriter.
Import Aws CreateTripSummaries CacheSpec.
Context `{Platform}.

Lemma chunks_from_step {A} (l : list A) i :
  chunks_from l i =
    if decide (i < length l)
    then slice i (min (i + 25) (length l)) l :: chunks_from l (i + 25)
    else [].
Proof.
  rewrite chunks_from_equation_1. destruct (decide (i < length l)).
  - by rewrite chunks_from_clause_1_equation_1.
  - by rewrite chunks_from_clause_1_equation_2.
Qed.

Lemma chunks_from_spec {A} (l : list A) (n i : nat) :
  length l - i ≤ n →
  concat (chunks_from l i) = drop i l ∧
  Forall (λ chunk, 0 < length chunk ≤ 25) (chunks_from l i) ∧
  length (chunks_from l i) = (length l - i + 24) / 25.
Proof.
  revert i. induction n as [|n IH]; intros i Hn;
    rewrite chunks_from_step; case_decide as Hlt; try lia.
  - split_and!; [by rewrite drop_ge by lia|done|].
    replace (length l - i) with 0 by lia. done.
  - destruct (IH (i + 25)) as (Hconcat & Hall & Hlen); [lia|].
    split_and!.
    + simpl. rewrite Hconcat. unfold slice.
      rewrite <- (take_drop (min (i + 25) (length l) - i) (drop i l)) at 2.
      f_equal. rewrite drop_drop.
      destruct (decide (i + 25 ≤ length l)).
      * f_equal. lia.
      * by rewrite !drop_ge by lia.
    + constructor; [|done]. unfold slice.
      rewrite length_take, length_drop. lia.
    + cbn [length]. rewrite Hlen. clear -Hlt.
      destruct (decide (i + 25 ≤ length l)).
      * replace (length l - i + 24) with (length l - (i + 25) + 24 + 1 * 25)
          by lia.
        rewrite Nat.div_add by lia. lia.
      * replace (length l - (i + 25) + 24) with 24 by lia.
        change (24 / 25) with 0.
        apply Nat.div_unique with (r := length l - i - 1); lia.
  - split_and!; [by rewrite drop_ge by lia|done|].
    replace (length l - i) with 0 by lia. done.
Qed.

Lemma chunks_from_0 {A} (l : list A) :
  concat (chunks_from l 0) = l ∧
  Forall (λ chunk, 0 < length chunk ≤ 25) (chunks_from l 0) ∧
  length (chunks_from l 0) = (length l + 24) / 25.
Proof.
  destruct (chunks_from_spec l (length l) 0) as (? & ? & Hlen); [lia|].
  rewrite Nat.sub_0_r in Hlen. by rewrite drop_0 in *.
Qed.

Lemma elem_of_concat_2 {A} (x : A) l ls : l ∈ ls → x ∈ l → x ∈ concat ls.
Proof.
  induction ls as [|l' ls IH]; [by intros ?%elem_of_nil|].
  simpl. rewrite elem_of_cons, elem_of_app. intros [->|Hin] Hx; auto.
Qed.

(** *** Rows after a put *)

Lemma put_row_lookup t Item id :
  put_row t Item !! id =
    if decide (item_key Item = Some id) then Some Item else t !! id.
Proof.
  unfold put_row. destruct (item_key Item) as [id'|]; [|by case_decide].
  case_decide as Hid.
  - injection Hid as ->. apply lookup_insert_eq.
  - apply lookup_insert_ne. congruence.
Qed.

Lemma foldl_put_row_lookup items t id :
  (foldl put_row t items !! id = t !! id ∧
   ∀ Item, Item ∈ items → item_key Item ≠ Some id) ∨
  (∃ Item, Item ∈ items ∧ item_key Item = Some id ∧
           foldl put_row t items !! id = Some Item).
Proof.
  induction items as [|x items IH] using rev_ind.
  { left. split; [done|]. by intros ? ?%elem_of_nil. }
  rewrite foldl_snoc, put_row_lookup. case_decide as Hx.
  { right. exists x. rewrite elem_of_app.
    split_and!; [right; apply list_elem_of_here|done..]. }
  destruct IH as [[-> Hnone]|(it & Hin & Hk & ->)].
  - left. split; [done|].
    intros it [?| ->%list_elem_of_singleton]%elem_of_app; [by apply Hnone|done].
  - right. exists it. rewrite elem_of_app. auto.
Qed.

(** *** One batch *)

Lemma elem_of_processed_from {A} (left : nat → bool) i (l : list A) x :
  x ∈ processed_from left i l → x ∈ l.
Proof.
  revert i. induction l as [|y l IH]; intros i; simpl; [done|].
  destruct (left i).
  - intros Hx. apply list_elem_of_further. by apply (IH (S i)).
  - intros [->|Hx]%elem_of_cons; [apply list_elem_of_here|].
    apply list_elem_of_further. by apply (IH (S i)).
Qed.

Lemma processed_from_lookup {A} (left : nat → bool) i (l : list A) j x :
  l !! j = Some x → left (i + j) = false → x ∈ processed_from left i l.
Proof.
  revert i j. induction l as [|y l IH]; intros i j; [done|].
  destruct j as [|j]; simpl.
  - intros [= ->]. rewrite Nat.add_0_r. intros ->. apply list_elem_of_here.
  - intros Hj Hleft.
    assert (x ∈ processed_from left (S i) l) as Hx.
    { apply (IH _ j); [done|]. by replace (S i + j) with (i + S j) by lia. }
    destruct (left i); [done|by apply list_elem_of_further].
Qed.

(** Serving a batch touches the rows only. *)
Lemma batchWrite_run issued Items w :
  let w' := (dynamodb_batchWrite_put issued Items w).1 in
  requests w' = requests w ∧ objects w' = objects w ∧
  faults w' = faults w ∧ unprocessed w' = unprocessed w ∧
  race w' = race w.
Proof.
  unfold dynamodb_batchWrite_put.
  repeat (case_match; simplify_eq/=); done.
Qed.

(** Every row after a batch was there before or is an item of the batch
    with the key of the row. *)
Lemma batchWrite_rows issued Items w id :
  let w' := (dynamodb_batchWrite_put issued Items w).1 in
  summaries w' !! id = summaries w !! id ∨
  ∃ Item, Item ∈ Items ∧ item_key (marshal_item Item) = Some id ∧
          summaries w' !! id = Some (marshal_item Item).
Proof.
  unfold dynamodb_batchWrite_put.
  repeat (case_match; simplify_eq/=); try by left.
  match goal with
  | |- context [foldl put_row ?t ?items] =>
      destruct (foldl_put_row_lookup items t id)
        as [[-> _]|(it & Hin & Hk & ->)]; [by left|right]
  end.
  apply elem_of_processed_from, list_elem_of_fmap in Hin as (Item & -> & Hin).
  eauto.
Qed.

(** An item of an accepted batch that is not left unprocessed is
    written. *)
Lemma batchWrite_written issued Items w j Item id :
  Items !! j = Some Item →
  item_key (marshal_item Item) = Some id →
  unprocessed w issued (DynamoBatchWrite Items) j = false →
  (dynamodb_batchWrite_put issued Items w).2 = Ok () →
  ∃ Item', Item' ∈ Items ∧ item_key (marshal_item Item') = Some id ∧
           summaries (dynamodb_batchWrite_put issued Items w).1 !! id
             = Some (marshal_item Item').
Proof.
  intros Hj Hkey Hleft. unfold dynamodb_batchWrite_put.
  repeat (case_match; simplify_eq/=); try done. intros _.
  match goal with
  | |- context [foldl put_row ?t ?items] =>
      destruct (foldl_put_row_lookup items t id)
        as [[_ Hnone]|(it & Hin & Hk & ->)]
  end.
  - exfalso. apply (Hnone (marshal_item Item)); [|done].
    apply (processed_from_lookup _ _ _ j); [|done].
    by rewrite list_lookup_fmap, Hj.
  - apply elem_of_processed_from, list_elem_of_fmap in Hin
      as (Item' & -> & Hin).
    eauto.
Qed.

(** *** The race *)

Lemma serving_order_perm next n pending :
  length pending = n → serving_order next n pending ≡ₚ pending.
Proof.
  revert pending. induction n as [|n IH]; intros pending Hlen.
  { by destruct pending. }
  destruct pending as [|i0 rest]; [done|].
  cbn [serving_order].
  assert (next (i0 :: rest) mod length (i0 :: rest) < length (i0 :: rest))
    as Hlt by (apply Nat.mod_upper_bound; simpl; lia).
  destruct (lookup_lt_is_Some_2 _ _ Hlt) as [x Hx]. rewrite Hx.
  change (default i0 (Some x)) with x.
  symmetry. etrans; [apply (delete_Permutation _ _ _ Hx)|].
  apply perm_skip. symmetry. apply IH.
  rewrite length_delete by (by eexists). simpl in *. lia.
Qed.

Lemma elem_of_serving_order next n i :
  i ∈ serving_order next n (seq 0 n) ↔ i < n.
Proof.
  rewrite (serving_order_perm next n (seq 0 n)) by apply length_seq.
  rewrite elem_of_seq. lia.
Qed.

Section Race.
Context {A : Type}.
Variable request : A → Call.
Variable served : list Call → A → M unit.
Variable l : list A.
Variable before : list Call.

Lemma serve_next_sticky st i e :
  st.2 = Err e → (serve_next request served l before st i).2 = Err e.
Proof.
  intros He. unfold serve_next. destruct (l !! i); simpl; by rewrite ?He.
Qed.

Lemma foldl_serve_sticky order st e :
  st.2 = Err e →
  (foldl (serve_next request served l before) st order).2 = Err e.
Proof.
  revert st. induction order as [|i order IH]; intros st He; simpl; [done|].
  apply IH. by apply serve_next_sticky.
Qed.

Lemma foldl_serve_ok order st :
  (foldl (serve_next request served l before) st order).2 = Ok () →
  st.2 = Ok ().
Proof.
  destruct (st.2) as [[]|e] eqn:He; [done|].
  by rewrite (foldl_serve_sticky order st e He).
Qed.

(** What every served request keeps holds in the end. *)
Lemma foldl_serve_inv (P : World → Prop) order st :
  (∀ i x w1,
      l !! i = Some x → P w1 →
      P (served (before ++ (request <$> take i l)) x w1).1) →
  P st.1 →
  P (foldl (serve_next request served l before) st order).1.
Proof.
  intros Hstep. revert st.
  induction order as [|i order IH]; intros st HP; simpl; [done|].
  apply IH. unfold serve_next.
  destruct (l !! i) as [x|] eqn:Hi; simpl; [by apply Hstep|done].
Qed.

(** A request that fails whenever it is served makes the whole fail. *)
Lemma foldl_serve_err order st i x :
  i ∈ order →
  l !! i = Some x →
  (∀ w1, ∃ e, (served (before ++ (request <$> take i l)) x w1).2 = Err e) →
  ∃ e, (foldl (serve_next request served l before) st order).2 = Err e.
Proof.
  intros Hin Hi Herr. revert st Hin.
  induction order as [|j order IH]; intros st Hin;
    [by apply elem_of_nil in Hin|].
  simpl. apply elem_of_cons in Hin as [<-|Hin]; [|by apply IH].
  destruct (Herr st.1) as [e He].
  destruct (st.2) as [[]|e'] eqn:Hst.
  - exists e. apply foldl_serve_sticky. unfold serve_next.
    rewrite Hi. simpl. by rewrite Hst.
  - exists e'. apply foldl_serve_sticky. by apply serve_next_sticky.
Qed.

(** What the request at position [i] brings about when it succeeds, and
    every request served after it keeps, holds in the end when the whole
    succeeds. *)
Lemma foldl_serve_reached (P Q : World → Prop) order st i x :
  l !! i = Some x →
  (∀ j y w1,
      l !! j = Some y → P w1 →
      P (served (before ++ (request <$> take j l)) y w1).1) →
  (∀ w1,
      P w1 →
      (served (before ++ (request <$> take i l)) x w1).2 = Ok () →
      Q (served (before ++ (request <$> take i l)) x w1).1) →
  (∀ j y w1,
      l !! j = Some y → P w1 → Q w1 →
      Q (served (before ++ (request <$> take j l)) y w1).1) →
  P st.1 →
  Q st.1 ∨ i ∈ order →
  (foldl (serve_next request served l before) st order).2 = Ok () →
  Q (foldl (serve_next request served l before) st order).1.
Proof.
  intros Hi HP Hest Hkeep. revert st.
  induction order as [|j order IH]; intros st HPst Hor Hok; simpl in *.
  { destruct Hor as [?|?%elem_of_nil]; done. }
  pose proof (foldl_serve_ok _ _ Hok) as Hj.
  apply IH; [| |done].
  - unfold serve_next. destruct (l !! j) as [y|] eqn:Hy; simpl; [|done].
    by apply (HP j).
  - destruct Hor as [HQ|[->|Hin]%elem_of_cons]; [| |by right]; left.
    + unfold serve_next. destruct (l !! j) as [y|] eqn:Hy; simpl; [|done].
      by apply (Hkeep j).
    + unfold serve_next in *. rewrite Hi in *. simpl in *.
      apply Hest; [done|]. by destruct (st.2).
Qed.

End Race.

(** *** Requests of a run *)

Lemma Promise_all_map_run chunks w :
  let w' := (Promise_all_map DynamoBatchWrite dynamodb_batchWrite_put
               chunks w).1 in
  requests w' = requests w ++ (DynamoBatchWrite <$> chunks) ∧
  objects w' = objects w ∧
  faults w' = faults w ∧
  unprocessed w' = unprocessed w ∧
  race w' = race w.
Proof.
  unfold Promise_all_map.
  apply (foldl_serve_inv _ _ _ _
           (λ w', requests w' = requests w ++ (DynamoBatchWrite <$> chunks) ∧
                  objects w' = objects w ∧ faults w' = faults w ∧
                  unprocessed w' = unprocessed w ∧ race w' = race w));
    [|done].
  intros i x w1 _ (Hr & Ho & Hf & Hu & Hc).
  destruct (batchWrite_run (requests w ++ (DynamoBatchWrite <$> take i chunks))
              x w1) as (? & ? & ? & ? & ?).
  split_and!; congruence.
Qed.

Lemma elem_of_concat_1 {A} (x : A) ls :
  x ∈ concat ls → ∃ l, l ∈ ls ∧ x ∈ l.
Proof.
  induction ls as [|l' ls IH]; simpl; [by intros ?%elem_of_nil|].
  rewrite elem_of_app. intros [Hx|Hx].
  - exists l'. split; [apply list_elem_of_here|done].
  - destruct (IH Hx) as (l & Hl & Hxl). exists l.
    split; [by apply list_elem_of_further|done].
Qed.

(** *** Rows after a run *)

(** Every row after the writes is a row that was there or an item that
    was sent, with the key of the row. *)
Lemma Promise_all_map_rows chunks w id :
  let w' := (Promise_all_map DynamoBatchWrite dynamodb_batchWrite_put
               chunks w).1 in
  summaries w' !! id = summaries w !! id ∨
  ∃ Item, Item ∈ concat chunks ∧ item_key (marshal_item Item) = Some id ∧
          summaries w' !! id = Some (marshal_item Item).
Proof.
  unfold Promise_all_map.
  apply (foldl_serve_inv _ _ _ _
           (λ w', summaries w' !! id = summaries w !! id ∨
                  ∃ Item, Item ∈ concat chunks ∧
                          item_key (marshal_item Item) = Some id ∧
                          summaries w' !! id = Some (marshal_item Item)));
    [|by left].
  intros i x w1 Hi Hw1.
  destruct (batchWrite_rows
              (requests w ++ (DynamoBatchWrite <$> take i chunks)) x w1 id)
    as [->|(Item & Hin & Hkey & ->)]; [done|right].
  exists Item. split_and!; [|done..].
  apply (elem_of_concat_2 _ x); [by apply list_elem_of_lookup_2 in Hi|done].
Qed.

(** When every write is accepted, an item that is not left unprocessed
    has been written: the row of its key is an item that was sent, with
    that key. *)
Lemma Promise_all_map_written chunks w c Items j Item id :
  chunks !! c = Some Items →
  Items !! j = Some Item →
  item_key (marshal_item Item) = Some id →
  (∀ issued, unprocessed w issued (DynamoBatchWrite Items) j = false) →
  (Promise_all_map DynamoBatchWrite dynamodb_batchWrite_put chunks w).2
    = Ok () →
  ∃ Item', Item' ∈ concat chunks ∧ item_key (marshal_item Item') = Some id ∧
           summaries (Promise_all_map DynamoBatchWrite dynamodb_batchWrite_put
                        chunks w).1 !! id
             = Some (marshal_item Item').
Proof.
  intros Hc Hj Hkey Hleft. unfold Promise_all_map.
  apply (foldl_serve_reached _ _ _ _
           (λ w1, unprocessed w1 = unprocessed w)
           (λ w1, ∃ Item', Item' ∈ concat chunks ∧
                           item_key (marshal_item Item') = Some id ∧
                           summaries w1 !! id = Some (marshal_item Item'))
           _ _ c Items); [done|..].
  - intros i y w1 _ Hu.
    destruct (batchWrite_run
                (requests w ++ (DynamoBatchWrite <$> take i chunks)) y w1)
      as (_ & _ & _ & Hu' & _).
    by rewrite Hu'.
  - intros w1 Hu Hok.
    destruct (batchWrite_written _ Items w1 j Item id Hj Hkey
                ltac:(by rewrite Hu) Hok) as (Item' & Hin & Hk & Hrow).
    exists Item'. split_and!; [|done..].
    apply (elem_of_concat_2 _ Items); [by apply list_elem_of_lookup_2 in Hc|done].
  - intros i y w1 Hi _ (Item' & Hin & Hk & Hrow).
    destruct (batchWrite_rows
                (requests w ++ (DynamoBatchWrite <$> take i chunks)) y w1 id)
      as [Hsame|(Item2 & Hin2 & Hk2 & Hrow2)].
    + exists Item'. by rewrite Hsame.
    + exists Item2. split_and!; [|done..].
      apply (elem_of_concat_2 _ y); [by apply list_elem_of_lookup_2 in Hi|done].
  - done.
  - right. apply elem_of_serving_order. by apply lookup_lt_Some in Hc.
Qed.

(** A batch that is refused whenever it is served makes the run fail. *)
Lemma Promise_all_map_err chunks Items w :
  Items ∈ chunks →
  (∀ issued w', ∃ e, (dynamodb_batchWrite_put issued Items w').2 = Err e) →
  ∃ e, (Promise_all_map DynamoBatchWrite dynamodb_batchWrite_put chunks w).2
         = Err e.
Proof.
  intros [c Hc]%list_elem_of_lookup_1 Herr. unfold Promise_all_map.
  apply (foldl_serve_err _ _ _ _ _ _ c Items); [|done|by intros ?].
  apply elem_of_serving_order. by apply lookup_lt_Some in Hc.
Qed.

(** *** The handler *)

Lemma s3_location_inv Bucket Key b k :
  s3_location Bucket Key = Some (b, k) → Bucket = JsStr b ∧ Key = JsStr k.
Proof. destruct Bucket, Key; simpl; naive_solver. Qed.

Lemma handler_run event w b k body rows :
  s3_location (own (summaryFile event) "Bucket")
              (own (summaryFile event) "Key") = Some (b, k) →
  faults w (requests w) (S3GetObject (JsStr b) (JsStr k)) = None →
  objects w !! (b, k) = Some body →
  csv_parse body = Some rows →
  handler event w =
    Promise_all_map DynamoBatchWrite dynamodb_batchWrite_put
      (chunks_from (with_records_file event <$> rows) 0)
      (log (S3GetObject (JsStr b) (JsStr k)) w).
Proof.
  intros [Hb Hk]%s3_location_inv Hfault Hbody Hrows.
  unfold handler, mbind, M_bind, s3_getObject, issue, lift.
  rewrite Hb, Hk, Hfault. simpl. by rewrite Hbody, Hrows.
Qed.

Lemma handler_ok_inv event w :
  (handler event w).2 = Ok () →
  ∃ b k body rows,
    s3_location (own (summaryFile event) "Bucket")
                (own (summaryFile event) "Key") = Some (b, k) ∧
    faults w (requests w) (S3GetObject (JsStr b) (JsStr k)) = None ∧
    objects w !! (b, k) = Some body ∧
    csv_parse body = Some rows.
Proof.
  unfold handler, mbind, M_bind, s3_getObject, issue, lift.
  destruct (faults w _ _) as [code|] eqn:Hfault; simpl; [done|].
  destruct (s3_location _ _) as [[b k]|] eqn:Hloc; simpl; [|done].
  destruct (objects w !! _) as [body|] eqn:Hbody; simpl; [|done].
  destruct (csv_parse body) as [rows|] eqn:Hrows; simpl; [|done].
  intros _. exists b, k, body, rows.
  apply s3_location_inv in Hloc as [Hb Hk]. by rewrite Hb, Hk in Hfault.
Qed.

Lemma with_records_file_lookup event row name :
  name ≠ "RecordsFile" →
  with_records_file event row !! name = JsStr <$> row !! name.
Proof.
  intros Hne. unfold with_records_file.
  by rewrite lookup_insert_ne, lookup_fmap.
Qed.

Lemma marshal_item_lookup Item name :
  marshal_item Item !! name =
    Item !! name ≫= λ x, if is_undefined x then None else Some (marshal x).
Proof. unfold marshal_item. apply lookup_omap. Qed.

Lemma sent_item_key event row :
  item_key (marshal_item (with_records_file event row)) = row !! "trip_id".
Proof.
  unfold item_key, DataReduction.tripSummaryTable_partitionKey.
  rewrite marshal_item_lookup, with_records_file_lookup by done.
  by destruct (row !! "trip_id").
Qed.

Lemma sent_item_flag event row :
  row !! "AggregationExecuted" = None →
  with_records_file event row !! "AggregationExecuted" = None ∧
  marshal_item (with_records_file event row) !! "AggregationExecuted" = None.
Proof.
  intros Hrow.
  rewrite marshal_item_lookup, with_records_file_lookup by done.
  by rewrite Hrow.
Qed.

(** The writer leaves the objects and the environment alone, and every
    row after a run was there before or is a parsed row of the result
    file with its [RecordsFile], stored under its [trip_id]. *)
Lemma handler_rows event w id :
  objects (handler event w).1 = objects w ∧
  faults (handler event w).1 = faults w ∧
  unprocessed (handler event w).1 = unprocessed w ∧
  race (handler event w).1 = race w ∧
  (summaries (handler event w).1 !! id = summaries w !! id ∨
   ∃ b k body rows row,
     s3_location (own (summaryFile event) "Bucket")
                 (own (summaryFile event) "Key") = Some (b, k) ∧
     objects w !! (b, k) = Some body ∧
     csv_parse body = Some rows ∧
     row ∈ rows ∧
     row !! "trip_id" = Some id ∧
     summaries (handler event w).1 !! id
       = Some (marshal_item (with_records_file event row))).
Proof.
  unfold handler, mbind, M_bind, s3_getObject, issue, lift.
  destruct (faults w _ _) as [code|] eqn:Hfault; simpl; [by auto 10|].
  destruct (s3_location _ _) as [[b k]|] eqn:Hloc; simpl; [|by auto 10].
  destruct (objects w !! _) as [body|] eqn:Hbody; simpl; [|by auto 10].
  destruct (csv_parse body) as [rows|] eqn:Hrows; simpl; [|by auto 10].
  match goal with
  | |- context [Promise_all_map _ _ ?c ?w1] =>
      destruct (Promise_all_map_run c w1) as (_ & Ho & Hf & Hu & Hc);
      pose proof (Promise_all_map_rows c w1 id) as Hr
  end.
  simpl in *. split_and!; [done..|].
  destruct Hr as [Hr|(Item & Hin & Hkey & Hr)]; [by left|right].
  rewrite (proj1 (chunks_from_0 _)) in Hin.
  apply list_elem_of_fmap in Hin as (row & -> & Hin).
  rewrite sent_item_key in Hkey.
  by exists b, k, body, rows, row.
Qed.

(** After a successful run, the row stored for the [trip_id] of a parsed
    row whose item the service did not leave unprocessed is one of the
    sent items with that [trip_id]. *)
Lemma handler_written_row event w b k body rows row id :
  s3_location (own (summaryFile event) "Bucket")
              (own (summaryFile event) "Key") = Some (b, k) →
  objects w !! (b, k) = Some body →
  csv_parse body = Some rows →
  row ∈ rows →
  row !! "trip_id" = Some id →
  (∀ issued Items i,
      Items !! i = Some (with_records_file event row) →
      unprocessed w issued (DynamoBatchWrite Items) i = false) →
  (handler event w).2 = Ok () →
  ∃ row',
    row' ∈ rows ∧ row' !! "trip_id" = Some id ∧
    summaries (handler event w).1 !! id
      = Some (marshal_item (with_records_file event row')).
Proof.
  intros Hloc Hbody Hrows Hrow Hid Hleft Hok.
  destruct (handler_ok_inv _ _ Hok)
    as (b' & k' & body' & rows' & Hloc' & Hfault & Hbody' & Hrows').
  rewrite Hloc in Hloc'. injection Hloc' as <- <-.
  rewrite Hbody in Hbody'. injection Hbody' as <-.
  rewrite Hrows in Hrows'. injection Hrows' as <-.
  rewrite (handler_run _ _ _ _ _ _ Hloc Hfault Hbody Hrows) in *.
  set (tripsSummary := with_records_file event <$> rows) in *.
  destruct (chunks_from_0 tripsSummary) as (Hconcat & _ & _).
  assert (with_records_file event row ∈ concat (chunks_from tripsSummary 0))
    as Hin by (rewrite Hconcat; by apply list_elem_of_fmap_2).
  apply elem_of_concat_1 in Hin as (Items & [c Hc]%list_elem_of_lookup_1
                                    & [j Hj]%list_elem_of_lookup_1).
  assert (item_key (marshal_item (with_records_file event row)) = Some id)
    as Hkey0 by (by rewrite sent_item_key).
  destruct (Promise_all_map_written (chunks_from tripsSummary 0)
              (log (S3GetObject (JsStr b) (JsStr k)) w) c Items j _ id Hc Hj
              Hkey0 (λ issued, Hleft issued Items j Hj) Hok)
    as (Item' & Hin' & Hkey & Hstored).
  rewrite Hconcat in Hin'.
  apply list_elem_of_fmap in Hin' as (row' & -> & Hin').
  rewrite sent_item_key in Hkey. by exists row'.
Qed.

(** C9: the parsed rows are cut into consecutive chunks of at most 25
    (none empty) whose concatenation is the list itself; there are
    ceil(n/25) of them, none for an empty list; and after the read of the
    result file the requests of the run are exactly one [batchWrite] per
    chunk, in order. *)
Theorem summaries_written_in_chunks_of_25 event w b k body rows :
  s3_location (own (summaryFile event) "Bucket")
              (own (summaryFile event) "Key") = Some (b, k) →
  faults w (requests w) (S3GetObject (JsStr b) (JsStr k)) = None →
  objects w !! (b, k) = Some body →
  csv_parse body = Some rows →
  let tripsSummary := with_records_file event <$> rows in
  let tripSummaryChunks := chunks_from tripsSummary 0 in
  concat tripSummaryChunks = tripsSummary ∧
  Forall (λ chunk, 0 < length chunk ≤ 25) tripSummaryChunks ∧
  length tripSummaryChunks = (length rows + 24) / 25 ∧
  requests (handler event w).1 =
    requests w ++ S3GetObject (JsStr b) (JsStr k)
      :: (DynamoBatchWrite <$> tripSummaryChunks).
Proof.
  intros Hloc Hfault Hbody Hrows tripsSummary tripSummaryChunks.
  destruct (chunks_from_0 tripsSummary) as (Hconcat & Hall & Hlen).
  split_and!; [done..| |].
  - subst tripSummaryChunks tripsSummary. by rewrite Hlen, length_fmap.
  - rewrite (handler_run _ _ _ _ _ _ Hloc Hfault Hbody Hrows).
    destruct (Promise_all_map_run tripSummaryChunks
                (log (S3GetObject (JsStr b) (JsStr k)) w)) as (Hreq & _).
    subst tripSummaryChunks tripsSummary. simpl in Hreq.
    by rewrite Hreq, <- app_assoc.
Qed.

(** C1 (amended): the writer never sets the flag, no item it sends has an
    [AggregationExecuted] attribute (the result file has no such column);
    but its writes replace whole rows. After a run on a result file with
    a row for a tripId, the row stored for that tripId is the one that
    was there, or it is one of the sent items and has no
    [AggregationExecuted] attribute, whatever the flag was before. When
    the run succeeds and the service did not leave the item of the row
    unprocessed (an outcome the writer does not look at), it is a sent
    item: a flag that was true is dropped. *)
Theorem summary_rewrite_drops_flag event w b k body rows row id :
  s3_location (own (summaryFile event) "Bucket")
              (own (summaryFile event) "Key") = Some (b, k) →
  objects w !! (b, k) = Some body →
  csv_parse body = Some rows →
  Forall (λ r : gmap string string, r !! "AggregationExecuted" = None) rows →
  row ∈ rows →
  row !! "trip_id" = Some id →
  (∀ calls Items Item,
      requests (handler event w).1 = requests w ++ calls →
      DynamoBatchWrite Items ∈ calls →
      Item ∈ Items →
      Item !! "AggregationExecuted" = None) ∧
  (summaries (handler event w).1 !! id = summaries w !! id ∨
   ∃ row',
     row' ∈ rows ∧ row' !! "trip_id" = Some id ∧
     summaries (handler event w).1 !! id
       = Some (marshal_item (with_records_file event row')) ∧
     marshal_item (with_records_file event row') !! "AggregationExecuted"
       = None) ∧
  ((handler event w).2 = Ok () →
   (∀ issued Items i,
       Items !! i = Some (with_records_file event row) →
       unprocessed w issued (DynamoBatchWrite Items) i = false) →
   ∃ row',
     row' ∈ rows ∧ row' !! "trip_id" = Some id ∧
     summaries (handler event w).1 !! id
       = Some (marshal_item (with_records_file event row')) ∧
     marshal_item (with_records_file event row') !! "AggregationExecuted"
       = None).
Proof.
  intros Hloc Hbody Hrows Hcols Hrow Hid.
  rewrite Forall_forall in Hcols.
  split_and!.
  - intros calls Items Item Hcalls Hin HItem.
    revert Hcalls.
    unfold handler, mbind, M_bind, s3_getObject, issue, lift.
    destruct (faults w _ _) as [code|] eqn:Hfault; simpl.
    { intros <-%app_inv_head.
      by apply elem_of_cons in Hin as [?|?%elem_of_nil]. }
    rewrite Hloc. simpl. rewrite Hbody. simpl. rewrite Hrows. simpl.
    set (tripsSummary := with_records_file event <$> rows).
    destruct (chunks_from_0 tripsSummary) as (Hconcat & _ & _).
    match goal with
    | |- context [Promise_all_map _ _ ?c ?w1] =>
        destruct (Promise_all_map_run c w1) as (Hreq & _)
    end.
    simpl in Hreq. rewrite Hreq, <- app_assoc.
    intros <-%app_inv_head.
    apply elem_of_cons in Hin as [?|Hin]; [done|].
    apply list_elem_of_fmap in Hin as (chunk & [= ->] & Hchunk).
    assert (Item ∈ tripsSummary) as HI.
    { rewrite <- Hconcat. by apply (elem_of_concat_2 _ chunk). }
    apply list_elem_of_fmap in HI as (row' & -> & Hrow').
    by apply sent_item_flag, Hcols.
  - destruct (handler_rows event w id)
      as (_ & _ & _ & _ & [Hsame|(b' & k' & body' & rows' & row' & Hloc'
                                   & Hbody' & Hrows' & Hrow' & Hid' & Hnew)]);
      [by left|right].
    rewrite Hloc in Hloc'. injection Hloc' as <- <-.
    rewrite Hbody in Hbody'. injection Hbody' as <-.
    rewrite Hrows in Hrows'. injection Hrows' as <-.
    exists row'. split_and!; [done..|]. by apply sent_item_flag, Hcols.
  - intros Hok Hleft.
    destruct (handler_written_row _ _ _ _ _ _ _ _ Hloc Hbody Hrows Hrow Hid
                Hleft Hok) as (row' & Hrow' & Hid' & Hstored).
    exists row'. split_and!; [done..|]. by apply sent_item_flag, Hcols.
Qed.

End SummaryWriter.

(** ** The cache-fill invariant *)

Section CacheFill.
Import Aws CacheSpec System.
Context `{Platform}.
Variable TripRecordsBucketName : string.

(** No step sets the flag: a row that has an [AggregationExecuted]
    attribute after a step is a row that was there before the step. The
    read API changes no row (its update is refused), and the writer
    stores rows without the attribute. *)
Lemma step_flag_not_set w w' id item v :
  step TripRecordsBucketName w w' →
  summaries w' !! id = Some item →
  item !! "AggregationExecuted" = Some v →
  summaries w !! id = Some item.
Proof.
  intros Hstep Hitem Hflag.
  destruct Hstep as [event w|event w Hfile|b k body w|f u r w]; [|..|done|done].
  - by rewrite handler_summaries_unchanged in Hitem.
  - destruct (handler_rows event w id)
      as (_ & _ & _ & _ & [Hsame|(b & k & body & rows & row & Hloc & Hbody
                                   & Hparse & Hrow & _ & Hnew)]).
    + by rewrite Hsame in Hitem.
    + rewrite Hnew in Hitem. injection Hitem as <-.
      specialize (Hfile _ _ _ _ Hloc Hbody Hparse).
      rewrite Forall_forall in Hfile.
      destruct (sent_item_flag event row (Hfile _ Hrow)) as [_ Hnone].
      by rewrite Hnone in Hflag.
Qed.

(** No step removes an object. *)
Lemma step_objects_kept w w' loc :
  step TripRecordsBucketName w w' →
  is_Some (objects w !! loc) → is_Some (objects w' !! loc).
Proof.
  intros Hstep Hloc.
  destruct Hstep as [event w|event w Hfile|b k body w|f u r w]; [| | |done].
  - by apply handler_objects_kept.
  - by rewrite (proj1 (handler_rows event w EmptyString)).
  - simpl. rewrite lookup_insert. by case_decide.
Qed.

Lemma step_cache_filled w w' :
  step TripRecordsBucketName w w' →
  cache_filled TripRecordsBucketName w →
  cache_filled TripRecordsBucketName w'.
Proof.
  intros Hstep Hinv id item v Hitem Hflag Htruthy.
  apply (step_objects_kept _ _ _ Hstep).
  apply (Hinv id item v); [|done..].
  by apply (step_flag_not_set _ _ _ _ _ Hstep Hitem Hflag).
Qed.

(** C5: whenever an invocation of the read API issues the request that
    sets [AggregationExecuted], that request is the fourth and last one
    it issues; the third is the put, at [trips/<tripId>.json] in the trip
    records bucket, of the composed object: the stored summary with the
    records collected from the scan as [Records]; and that put has been
    carried out (the object is there, with this very body). Hence a
    state in which every summary with a true flag has its object keeps
    that property through every step of the system: no step removes an
    object, and no step sets a flag (the update comes after the put, and
    the store refuses it). *)
Theorem object_persisted_before_flag_update :
  (∀ event w calls i K a v,
      requests (TripsApiBackend.handler TripRecordsBucketName event w).1
        = requests w ++ calls →
      calls !! i = Some (DynamoUpdate K a v) →
      ∃ item f b k object,
        summaries w !! TripsApiBackend.TripId event = Some item ∧
        item !! "RecordsFile" = Some (JsObj f) ∧
        f !! "Bucket" = Some (JsStr b) ∧
        f !! "Key" = Some (JsStr k) ∧
        objects w !! (b, k) = Some object ∧
        let Body :=
          JSON_stringify
            (JsObj (<["Records" :=
                        JsArr (TripsApiBackend.collect
                                 (s3_select object
                                    (TripsApiBackend.select_expression
                                       (TripsApiBackend.TripId event))))]>
                      item)) in
        i = 3 ∧ length calls = 4 ∧
        calls !! 2 =
          Some (S3PutObject (JsStr TripRecordsBucketName)
                  (JsStr (TripsApiBackend.trip_object_key
                            (TripsApiBackend.TripId event))) Body) ∧
        objects (TripsApiBackend.handler TripRecordsBucketName event w).1
          !! (TripRecordsBucketName,
              TripsApiBackend.trip_object_key (TripsApiBackend.TripId event))
          = Some Body ∧
        a = "AggregationExecuted" ∧ v = JsBool true) ∧
  (∀ w w' id item v,
      step TripRecordsBucketName w w' →
      summaries w' !! id = Some item →
      item !! "AggregationExecuted" = Some v →
      summaries w !! id = Some item) ∧
  (∀ w w' loc,
      step TripRecordsBucketName w w' →
      is_Some (objects w !! loc) → is_Some (objects w' !! loc)) ∧
  (∀ w w',
      cache_filled TripRecordsBucketName w →
      rtc (step TripRecordsBucketName) w w' →
      cache_filled TripRecordsBucketName w').
Proof.
  split_and!.
  - intros event w calls i K a v Hcalls Hi.
    destruct (update_follows_put _ _ _ _ _ _ _ _ Hcalls Hi)
      as (Body & ? & ? & Hput & Hobject & ? & ? & ?).
    destruct (put_body_is_enhanced _ _ _ _ _ _ _ Hcalls
                (list_elem_of_lookup_2 _ _ _ Hput))
      as (item & f & b & k & object & ? & ? & ? & ? & ? & ->).
    exists item, f, b, k, object. by split_and!.
  - apply step_flag_not_set.
  - apply step_objects_kept.
  - intros w w' Hinv Hsteps. induction Hsteps as [|w1 w2 w3 Hstep _ IH]; [done|].
    apply IH. by eapply step_cache_filled.
Qed.

End CacheFill.

(** ** Runs on the concrete platform *)

Section ConcreteRuns.
Import Aws CacheSpec Concrete.

Abbreviation get_trip id :=
  (@TripsApiBackend.handler platform "aggregated"
     {| TripsApiBackend.TripId := id |} world).

Abbreviation write_summaries :=
  (@CreateTripSummaries.handler platform
     {| CreateTripSummaries.QueryResults :=
          ["s3://reduced/summary.csv"; "s3://reduced/records.csv"] |} world).

(** C2: on the cold path the request that should set the flag names the
    row by the attribute [TripId], while the table is keyed, and the
    summary was fetched, by [trip_id]; the store rejects the request, the
    invocation ends with that error after the object has been put, and
    the stored flag is not set. *)
Lemma cold_path_update_rejected :
  (get_trip "t1").2 = Err (AwsError "ValidationException") ∧
  requests (get_trip "t1").1 =
    [ DynamoGet {[ "trip_id" := JsStr "t1" ]};
      S3SelectObjectContent (JsStr "reduced") (JsStr "records.csv")
        (TripsApiBackend.select_expression "t1");
      S3PutObject (JsStr "aggregated") (JsStr "trips/t1.json")
      (stringify
         (JsObj {[ "trip_id" := JsStr "t1";
                   "RecordsFile" := JsObj {[ "Bucket" := JsStr "reduced";
                                             "Key" := JsStr "records.csv" ]};
                   "Records" :=
                     JsArr [ JsObj {[ "tripid" := JsStr "t1";
                                      "eventtype" := JsStr "engine-start" ]};
                             JsObj {[ "tripid" := JsStr "t1";
                                      "eventtype" := JsStr "trip-finished" ]}
                           ] ]}));
      DynamoUpdate {[ "TripId" := JsStr "t1" ]} "AggregationExecuted"
                   (JsBool true) ] ∧
  key_value {[ "trip_id" := JsStr "t1" ]} = Some "t1" ∧
  key_value {[ "TripId" := JsStr "t1" ]} = None ∧
  summaries (get_trip "t1").1 !! "t1" ≫= (.!! "AggregationExecuted") = None ∧
  summaries (get_trip "t1").1 = summaries world.
Proof. split_and!; vm_compute; reflexivity. Qed.

(** C3, as worded, fails: the error of a read of an unknown trip is a
    [TypeError], not a not-found error. *)
Lemma unknown_trip_error_is_not_not_found :
  ¬ ∃ e, (get_trip "nonexistent").2 = Err e ∧ not_found e = true.
Proof. intros (e & He & Hnf). vm_compute in He. by injection He as <-. Qed.

Lemma unknown_trip_fails_before_object_store_witness :
  (get_trip "nonexistent").2 = Err TypeError ∧
  requests (get_trip "nonexistent").1
    = [DynamoGet {[ "trip_id" := JsStr "nonexistent" ]}].
Proof.
  destruct (unknown_trip_fails_before_object_store (H := platform)
              "aggregated" {| TripsApiBackend.TripId := "nonexistent" |}
              world eq_refl) as (e & He & Hreq & _ & _ & Hfault).
  split; [|exact Hreq]. rewrite He. f_equal. by apply Hfault.
Defined.

Lemma warm_path_returns_stored_object_witness :
  (get_trip "t2").2 = Ok (JsBool true) ∧
  requests (get_trip "t2").1 =
    [ DynamoGet {[ "trip_id" := JsStr "t2" ]};
      S3GetObject (JsStr "aggregated") (JsStr "trips/t2.json") ].
Proof.
  destruct (warm_path_returns_stored_object (H := platform) "aggregated"
              {| TripsApiBackend.TripId := "t2" |} world
              {[ "trip_id" := JsStr "t2"; "AggregationExecuted" := JsBool true ]}
              (JsBool true) eq_refl eq_refl eq_refl) as (_ & _ & _ & Hret).
  apply (Hret "true" (JsBool true)); reflexivity.
Defined.

(** C1, as worded, fails: the summary of [t2] has the flag set, the
    result file has a row for [t2], and after the writer has run the
    stored row of [t2] does not have the flag any more. *)
Lemma rewrite_resets_flag_counterexample :
  ¬ flag_preserved world write_summaries.1.
Proof.
  intros Hkept.
  destruct (Hkept "t2"
              {[ "trip_id" := JsStr "t2"; "AggregationExecuted" := JsBool true ]}
              eq_refl eq_refl) as (item' & Hrow & Hflag).
  assert (summaries write_summaries.1 !! "t2"
            ≫= (.!! "AggregationExecuted") = None) as Hnone
    by (vm_compute; reflexivity).
  rewrite Hrow in Hnone. simpl in Hnone. congruence.
Qed.

Lemma summary_rewrite_drops_flag_witness :
  write_summaries.2 = Ok () ∧
  ∃ item', summaries write_summaries.1 !! "t2" = Some item' ∧
           item' !! "AggregationExecuted" = None.
Proof.
  split; [vm_compute; reflexivity|].
  destruct (summary_rewrite_drops_flag (H := platform)
              {| CreateTripSummaries.QueryResults :=
                   ["s3://reduced/summary.csv"; "s3://reduced/records.csv"] |}
              world "reduced" "summary.csv"
              ("trip_id,vehicle_id" +:+ nl +:+ "t2,v9" +:+ nl +:+ "t3,v7" +:+ nl)
              [ {[ "trip_id" := "t2"; "vehicle_id" := "v9" ]};
                {[ "trip_id" := "t3"; "vehicle_id" := "v7" ]} ]
              {[ "trip_id" := "t2"; "vehicle_id" := "v9" ]} "t2"
              eq_refl eq_refl eq_refl)
    as (_ & _ & Hdrop).
  - repeat constructor.
  - apply list_elem_of_here.
  - reflexivity.
  - destruct Hdrop as (row' & _ & _ & Hrow & Hflag).
    + vm_compute. reflexivity.
    + intros issued Items i _. reflexivity.
    + eexists. split; [exact Hrow|exact Hflag].
Defined.

Lemma summaries_written_in_chunks_of_25_witness :
  ∃ chunk,
    requests write_summaries.1 =
      [ S3GetObject (JsStr "reduced") (JsStr "summary.csv");
        DynamoBatchWrite chunk ] ∧
    length chunk = 2.
Proof.
  destruct (summaries_written_in_chunks_of_25 (H := platform)
              {| CreateTripSummaries.QueryResults :=
                   ["s3://reduced/summary.csv"; "s3://reduced/records.csv"] |}
              world "reduced" "summary.csv"
              ("trip_id,vehicle_id" +:+ nl +:+ "t2,v9" +:+ nl +:+ "t3,v7" +:+ nl)
              [ {[ "trip_id" := "t2"; "vehicle_id" := "v9" ]};
                {[ "trip_id" := "t3"; "vehicle_id" := "v7" ]} ]
              eq_refl eq_refl eq_refl eq_refl)
    as (_ & _ & _ & Hreq).
  eexists. split; [exact Hreq|reflexivity].
Defined.

Lemma object_persisted_before_flag_update_witness :
  ∃ Body,
    requests (get_trip "t1").1 !! 2 =
      Some (S3PutObject (JsStr "aggregated") (JsStr "trips/t1.json") Body) ∧
    objects (get_trip "t1").1 !! ("aggregated", "trips/t1.json") = Some Body.
Proof.
  assert (requests (get_trip "t1").1 !! 3 =
            Some (DynamoUpdate {[ "TripId" := JsStr "t1" ]}
                    "AggregationExecuted" (JsBool true))) as Hupdate
    by (vm_compute; reflexivity).
  destruct (proj1 (object_persisted_before_flag_update (H := platform)
                     "aggregated")
              {| TripsApiBackend.TripId := "t1" |} world
              (requests (get_trip "t1").1) 3 _ _ _ eq_refl Hupdate)
    as (item & f & b & k & object & _ & _ & _ & _ & _ & _ & _ & Hput
        & Hobject & _).
  eexists. split; [exact Hput|exact Hobject].
Defined.

Lemma unparsable_lines_dropped_witness :
  @TripsApiBackend.collect platform
     [RecordsEvent (stringify (JsObj {[ "tripid" := JsStr "t1" ]}) +:+ nl
                      +:+ nl +:+ "{oops" +:+ nl
                      +:+ stringify (JsObj {[ "tripid" := JsStr "t2" ]}));
      EndEvent]
    = [JsObj {[ "tripid" := JsStr "t1" ]}; JsObj {[ "tripid" := JsStr "t2" ]}].
Proof.
  rewrite (proj1 (proj2 (unparsable_lines_dropped (H := platform)
                           "aggregated")));
    vm_compute; reflexivity.
Defined.

Example chunks_of_60 :
  length <$> CreateTripSummaries.chunks_from (seq 0 60) 0 = [25; 25; 10].
Proof. reflexivity. Qed.

End ConcreteRuns.

(** ** The trip summary query *)

Section SummaryQuery.
Import Athena.
Variable from_iso8601_timestamp : string → option Z.
Variable table : list EventRow.
Variable filter_condition : EventRow → option bool.

Abbreviation query :=
  (FinishedTripsSummaryQuery from_iso8601_timestamp table filter_condition).

Lemma sql_eq_true x y : sql_eq x y = Some true ↔ x = y ∧ is_Some x.
Proof.
  destruct x as [a|], y as [b|]; simpl;
    try (split; [done|by intros [? [? ?]]]).
  case_bool_decide as Hab; split; try done.
  - by intros _; subst.
  - by intros [[= ?] _].
Qed.

Lemma is_true_Some_true p : is_true p = true ↔ p = Some true.
Proof. by destruct p as [[]|]. Qed.

Lemma sql_and_true p q :
  sql_and p q = Some true ↔ p = Some true ∧ q = Some true.
Proof.
  destruct p as [[]|], q as [[]|]; simpl; split; try done; by intros [].
Qed.

Lemma on_clause_true a b :
  is_true (on_clause a b) = true ↔
  tripid a = tripid b ∧ is_Some (tripid a) ∧ eventtype b = Some "engine-start".
Proof.
  unfold on_clause.
  rewrite is_true_Some_true, sql_and_true, !sql_eq_true.
  split; [by intros [[? ?] [? ?]]|]. intros (? & ? & Ht). by rewrite Ht.
Qed.

Lemma where_clause_true ab :
  is_true (where_clause filter_condition ab) = true ↔
  eventtype ab.1 = Some "trip-finished" ∧ filter_condition ab.1 = Some true.
Proof.
  unfold where_clause.
  rewrite is_true_Some_true, sql_and_true, sql_eq_true.
  split; [by intros [[? ?] ?]|]. intros [Ht ?]. by rewrite Ht.
Qed.

Lemma left_join_elem {A B} (on : A → B → option bool) l r a ob :
  (a, ob) ∈ left_join on l r ↔
  a ∈ l ∧
  match ob with
  | Some b => b ∈ r ∧ is_true (on a b) = true
  | None => ∀ b, b ∈ r → is_true (on a b) ≠ true
  end.
Proof.
  unfold left_join. rewrite list_elem_of_bind. split.
  - intros (a' & Hin & Ha').
    destruct (filter _ r) as [|b0 matches] eqn:Hfilter.
    + apply list_elem_of_singleton in Hin as [= -> ->]. split; [done|].
      intros b Hb Hon.
      assert (b ∈ filter (λ b, is_true (on a' b) = true) r) as Hbin
        by by apply list_elem_of_filter.
      rewrite Hfilter in Hbin. by apply elem_of_nil in Hbin.
    + apply list_elem_of_fmap in Hin as (b & [= -> ->] & Hb).
      split; [done|]. rewrite <- Hfilter in Hb.
      by apply list_elem_of_filter in Hb as [? ?].
  - intros [Ha Hob]. exists a. split; [|done].
    destruct ob as [b|].
    + destruct Hob as [Hb Hon].
      assert (b ∈ filter (λ b, is_true (on a b) = true) r) as Hbin
        by by apply list_elem_of_filter.
      destruct (filter _ r) as [|b0 matches]; [by apply elem_of_nil in Hbin|].
      by apply (list_elem_of_fmap_2 (λ b, (a, Some b))).
    + destruct (filter _ r) as [|b0 matches] eqn:Hfilter;
        [apply list_elem_of_here|].
      assert (b0 ∈ filter (λ b, is_true (on a b) = true) r) as Hbin
        by (rewrite Hfilter; apply list_elem_of_here).
      apply list_elem_of_filter in Hbin as [Hon Hb]. by destruct (Hob b0 Hb).
Qed.

Lemma Forall2_elem_of_r {A B} (R : A → B → Prop) l k y :
  Forall2 R l k → y ∈ k → ∃ x, x ∈ l ∧ R x y.
Proof.
  induction 1 as [|x y' l k HR _ IH]; [by intros ?%elem_of_nil|].
  intros [->|Hin]%elem_of_cons.
  - exists x. split; [apply list_elem_of_here|done].
  - destruct (IH Hin) as (x' & ? & ?). exists x'.
    split; [by apply list_elem_of_further|done].
Qed.

Lemma Forall2_elem_of_l {A B} (R : A → B → Prop) l k x :
  Forall2 R l k → x ∈ l → ∃ y, y ∈ k ∧ R x y.
Proof.
  induction 1 as [|x' y l k HR _ IH]; [by intros ?%elem_of_nil|].
  intros [->|Hin]%elem_of_cons.
  - exists y. split; [apply list_elem_of_here|done].
  - destruct (IH Hin) as (y' & ? & ?). exists y'.
    split; [by apply list_elem_of_further|done].
Qed.

Lemma select_list_Some ab r :
  select_list from_iso8601_timestamp table ab = Some r ↔
  ∃ t1 t2,
    timestamp from_iso8601_timestamp (ab.2 ≫= eventdate) = Some t1 ∧
    timestamp from_iso8601_timestamp (eventdate ab.1) = Some t2 ∧
    r = {| vehicle_id := deviceid ab.1;
           trip_id := tripid ab.1;
           start_date := ab.2 ≫= eventdate;
           end_date := eventdate ab.1;
           duration := date_diff_second t1 t2;
           event_count := event_count_subquery table ab.1 |}.
Proof.
  unfold select_list.
  destruct (timestamp _ (ab.2 ≫= eventdate)) as [t1|]; simpl.
  - destruct (timestamp _ (eventdate ab.1)) as [t2|]; simpl.
    + split; [intros [= <-]; by exists t1, t2|].
      by intros (? & ? & [= <-] & [= <-] & ->).
    + split; [done|]. by intros (? & ? & _ & ? & _).
  - split; [done|]. by intros (? & ? & ? & _).
Qed.

Lemma event_count_plain a :
  event_count_subquery table a =
    Z.of_nat (length (filter (λ c, tripid a = tripid c ∧ is_Some (tripid a))
                             table)).
Proof.
  unfold event_count_subquery. do 2 f_equal. apply list_filter_iff.
  intros c. by rewrite is_true_Some_true, sql_eq_true.
Qed.

Lemma timestamp_text text t :
  timestamp from_iso8601_timestamp (Some text) = Some t →
  ∃ ms, from_iso8601_timestamp text = Some ms ∧ t = Some ms.
Proof.
  simpl. destruct (from_iso8601_timestamp text) as [ms|]; [|done].
  intros [= <-]. by exists ms.
Qed.

Lemma query_rows rows :
  query = Some rows →
  Forall2 (λ ab r, select_list from_iso8601_timestamp table ab = Some r)
    (filter (λ ab, is_true (where_clause filter_condition ab) = true)
            (left_join on_clause table table))
    rows.
Proof. apply mapM_Some_1. Qed.

(** C8: every row of the result comes from a row [a] of the table with
    event type [trip-finished] that satisfies the filter, and carries its
    device, trip and date; it is joined with an [engine-start] row of the
    same trip, whose date is the start date and from whose instant to
    that of [a] the duration is the difference in whole seconds, or, when
    the table has no such row, it appears once with a null start date and
    a null duration; the event count is the number of rows of the whole
    table with that trip id, whatever their partition. *)
Theorem finished_trips_summary_meaning rows :
  query = Some rows →
  (∀ r, r ∈ rows →
     ∃ a ob,
       a ∈ table ∧
       eventtype a = Some "trip-finished" ∧
       filter_condition a = Some true ∧
       vehicle_id r = deviceid a ∧
       trip_id r = tripid a ∧
       end_date r = eventdate a ∧
       event_count r =
         Z.of_nat (length (filter (λ c, tripid a = tripid c ∧ is_Some (tripid a))
                                  table)) ∧
       match ob with
       | Some b =>
           b ∈ table ∧ eventtype b = Some "engine-start" ∧
           tripid a = tripid b ∧ is_Some (tripid a) ∧
           start_date r = eventdate b ∧
           ∃ t1 t2,
             timestamp from_iso8601_timestamp (eventdate b) = Some t1 ∧
             timestamp from_iso8601_timestamp (eventdate a) = Some t2 ∧
             duration r = date_diff_second t1 t2
       | None =>
           (∀ b, b ∈ table → eventtype b = Some "engine-start" →
                 ¬ (tripid a = tripid b ∧ is_Some (tripid a))) ∧
           start_date r = None ∧ duration r = None
       end) ∧
  (∀ a,
     a ∈ table →
     eventtype a = Some "trip-finished" →
     filter_condition a = Some true →
     (∀ b, b ∈ table → eventtype b = Some "engine-start" →
           ¬ (tripid a = tripid b ∧ is_Some (tripid a))) →
     ∃ r, r ∈ rows ∧ trip_id r = tripid a ∧ end_date r = eventdate a ∧
          start_date r = None ∧ duration r = None) ∧
  (∀ a b started finished,
     a ∈ table → b ∈ table →
     eventtype a = Some "trip-finished" →
     filter_condition a = Some true →
     eventtype b = Some "engine-start" →
     tripid a = tripid b → is_Some (tripid a) →
     eventdate b = Some started →
     eventdate a = Some finished →
     ∃ r t1 t2,
       r ∈ rows ∧
       from_iso8601_timestamp started = Some t1 ∧
       from_iso8601_timestamp finished = Some t2 ∧
       trip_id r = tripid a ∧
       start_date r = Some started ∧ end_date r = Some finished ∧
       duration r = Some (Z.quot (t2 - t1) 1000)).
Proof.
  intros Hrows%query_rows. split_and!.
  - intros r Hr.
    destruct (Forall2_elem_of_r _ _ _ _ Hrows Hr) as ([a ob] & Hab & Hsel).
    apply list_elem_of_filter in Hab as [Hwhere Hjoin].
    apply where_clause_true in Hwhere as [Htype Hfilter].
    apply left_join_elem in Hjoin as [Ha Hob].
    apply select_list_Some in Hsel as (t1 & t2 & Ht1 & Ht2 & ->).
    simpl in *. exists a, ob. split_and!; try done.
    { apply event_count_plain. }
    destruct ob as [b|]; simpl in *.
    + destruct Hob as [Hb Hon]. apply on_clause_true in Hon as (? & ? & ?).
      split_and!; try done. by exists t1, t2.
    + injection Ht1 as <-. split_and!; try done.
      intros b Hb Hstart [Hsame Hsome]. apply (Hob b Hb).
      by apply on_clause_true.
  - intros a Ha Htype Hfilter Hnone.
    assert ((a, None) ∈ filter
              (λ ab, is_true (where_clause filter_condition ab) = true)
              (left_join on_clause table table)) as Hab.
    { apply list_elem_of_filter. split; [by apply where_clause_true|].
      apply left_join_elem. split; [done|].
      intros b Hb (? & ? & ?)%on_clause_true. by apply (Hnone b). }
    destruct (Forall2_elem_of_l _ _ _ _ Hrows Hab) as (r & Hr & Hsel).
    apply select_list_Some in Hsel as (t1 & t2 & Ht1 & Ht2 & ->).
    simpl in *. injection Ht1 as <-. by eexists.
  - intros a b started finished Ha Hb Htype Hfilter Hstart Hsame Hsome
      Hsd Hed.
    assert ((a, Some b) ∈ filter
              (λ ab, is_true (where_clause filter_condition ab) = true)
              (left_join on_clause table table)) as Hab.
    { apply list_elem_of_filter. split; [by apply where_clause_true|].
      apply left_join_elem. split; [done|]. split; [done|].
      by apply on_clause_true. }
    destruct (Forall2_elem_of_l _ _ _ _ Hrows Hab) as (r & Hr & Hsel).
    apply select_list_Some in Hsel as (t1 & t2 & Ht1 & Ht2 & ->).
    simpl in *. rewrite Hsd in Ht1. rewrite Hed in Ht2.
    apply timestamp_text in Ht1 as (ms1 & Hms1 & ->).
    apply timestamp_text in Ht2 as (ms2 & Hms2 & ->).
    eexists _, ms1, ms2. split_and!; try done.
Qed.

End SummaryQuery.

Section SummaryQueryRun.
Import Athena.

Lemma finished_trips_summary_meaning_witness :
  ∃ r,
    r ∈ default [] (FinishedTripsSummaryQuery sample_timestamp sample_table
                      (partition_filter "2023" "01" "02" "03" "04")) ∧
    trip_id r = Some "t2" ∧ start_date r = None ∧ duration r = None.
Proof.
  destruct (finished_trips_summary_meaning sample_timestamp sample_table
              (partition_filter "2023" "01" "02" "03" "04") _ eq_refl)
    as (_ & Hnone & _).
  destruct (Hnone (sample_row "t2" "trip-finished"
                     "2023-01-02T03:04:01.500Z" "04"))
    as (r & Hr & ? & ? & ? & ?).
  - do 3 apply list_elem_of_further. apply list_elem_of_here.
  - reflexivity.
  - reflexivity.
  - intros b Hb Hstart [Hsame _]. unfold sample_table in Hb.
    repeat (apply elem_of_cons in Hb as [->|Hb]; [discriminate|]).
    by apply elem_of_nil in Hb.
  - exists r. split_and!; done.
Defined.
End SummaryQueryRun.

(** ** Keys of the delivery stream *)

Section DeliveryKeys.
Import TripReduction PartitionSpec.

Lemma split_join c parts :
  parts ≠ [] →
  Forall (λ p, lacks c p = true) parts →
  split c (join (String c EmptyString) parts) = parts.
Proof.
  intros Hne Hall. induction Hall as [|p parts Hp Hall IH]; [done|].
  destruct parts as [|q parts].
  - simpl. by apply split_lacks.
  - change (join (String c EmptyString) (p :: q :: parts))
      with (p +:+ String c EmptyString
              +:+ join (String c EmptyString) (q :: parts)).
    change (p +:+ String c EmptyString +:+ ?x) with (p +:+ String c x).
    rewrite split_app_sep by done. by rewrite IH.
Qed.

Lemma split_segments_lack c c' s :
  lacks c s = true → Forall (λ p, lacks c p = true) (split c' s).
Proof.
  induction s as [|d s IH]; simpl.
  - intros _. by repeat constructor.
  - intros [Hd Hs]%andb_prop. specialize (IH Hs).
    destruct (Ascii.eqb d c'); [by constructor|].
    destruct (split c' s) as [|x xs]; [by repeat constructor; simpl; rewrite Hd|].
    inversion_clear IH. constructor; [|done]. simpl. by rewrite Hd.
Qed.

Lemma foldl_forEach_skip m params :
  Forall (λ p, lacks Chars.equals p = true) params →
  foldl forEach_param m params = m.
Proof.
  intros Hall. revert m. induction Hall as [|p ps Hp _ IH]; intros m; [done|].
  simpl. by rewrite forEach_param_skip, IH.
Qed.

Lemma forEach_param_named m name value :
  lacks Chars.equals name = true →
  forEach_param m (name +:+ "=" +:+ value)
    = js_set name (default EmptyString (head (split Chars.equals value))) m.
Proof.
  intros Hn. unfold forEach_param.
  change (name +:+ "=" +:+ value) with (name +:+ String Chars.equals value).
  rewrite split_app_sep by done.
  destruct (split Chars.equals value) as [|v vs] eqn:Hv; [|done].
  by destruct (split_nonempty _ _ Hv).
Qed.

Lemma partition_names_not_proto name :
  name ∈ partition_names → name ≠ "__proto__".
Proof.
  intros Hin ->. unfold partition_names in Hin.
  repeat (apply elem_of_cons in Hin as [Hin|Hin]; [discriminate|]).
  by apply elem_of_nil in Hin.
Qed.

(** X1: for an object key as the delivery stream writes them, any
    directories, then [year=Y/month=M/day=D/hour=H/minute=Min], then the
    file name, the handler returns the filter over exactly these five
    values and the date tag [Y-M-D-H-Min]. *)
Theorem delivery_key_partition
    (AthenaTableName bucket : string) pre Y M D H Min file :
  Forall (λ p, lacks Chars.slash p = true ∧ lacks Chars.equals p = true)
         (pre ++ [file]) →
  Forall (λ v, lacks Chars.slash v = true ∧ lacks Chars.equals v = true)
         [Y; M; D; H; Min] →
  handler AthenaTableName
    {| bucketName := bucket;
       key := join "/" (pre ++ [ "year=" +:+ Y; "month=" +:+ M; "day=" +:+ D;
                                 "hour=" +:+ H; "minute=" +:+ Min; file ]) |}
  = Ok {| FinishedTripsSummaryQuery :=
            FinishedTripsSummaryQuery_template AthenaTableName;
          ReducedTripsQuery := ReducedTripsQuery_template AthenaTableName;
          QueryFilterExpression := filter_expression Y M D H Min;
          FormattedDate := join "-" [Y; M; D; H; Min] |}.
Proof.
  intros Hdirs Hvalues.
  apply Forall_app in Hdirs as [Hpre Hfile].
  apply Forall_singleton in Hfile as [Hfile_s Hfile_e].
  repeat match goal with
         | Hx : Forall _ (_ :: _) |- _ =>
             let H1 := fresh "Hs" in let H2 := fresh "He" in
             apply Forall_cons in Hx as [[H1 H2] Hx]
         end.
  assert (extract (join "/" (pre ++ [ "year=" +:+ Y; "month=" +:+ M;
                                      "day=" +:+ D; "hour=" +:+ H;
                                      "minute=" +:+ Min; file ]))
          = <["minute" := Min]> (<["hour" := H]> (<["day" := D]>
              (<["month" := M]> (<["year" := Y]> rawStateMachineInput0)))))
    as Hextract.
  { unfold extract.
    change "/" with (String Chars.slash EmptyString).
    rewrite split_join.
    - rewrite foldl_app, (foldl_forEach_skip _ pre)
        by (eapply Forall_impl; [exact Hpre|by intros ? [_ ?]]).
      simpl.
      change ("year=" +:+ Y) with ("year" +:+ "=" +:+ Y).
      change ("month=" +:+ M) with ("month" +:+ "=" +:+ M).
      change ("day=" +:+ D) with ("day" +:+ "=" +:+ D).
      change ("hour=" +:+ H) with ("hour" +:+ "=" +:+ H).
      change ("minute=" +:+ Min) with ("minute" +:+ "=" +:+ Min).
      rewrite !forEach_param_named by done.
      rewrite !split_lacks by done. simpl.
      rewrite forEach_param_skip by done.
      unfold js_set. by rewrite !decide_False by done.
    - by destruct pre.
    - apply Forall_app. split.
      + eapply Forall_impl; [exact Hpre|by intros ? [? _]].
      + repeat constructor; try done;
          change (String ?c ?x) with (String c EmptyString +:+ x) at 1;
          rewrite ?lacks_app; simpl; by rewrite ?Hs, ?Hs0, ?Hs1, ?Hs2, ?Hs3. }
  unfold handler. cbn [key]. rewrite Hextract. do 2 f_equal.
Qed.

Lemma delivery_key_partition_witness :
  ∃ out,
    handler "aggregated_trips"
      {| bucketName := "raw";
         key := "raw/year=2023/month=01/day=02/hour=03/minute=04/part-0001" |}
      = Ok out ∧
    FormattedDate out = "2023-01-02-03-04".
Proof.
  eexists. split.
  - apply (delivery_key_partition "aggregated_trips" "raw" ["raw"]
             "2023" "01" "02" "03" "04" "part-0001");
      repeat constructor.
  - reflexivity.
Defined.

(** X2: a key without any [=] supplies nothing. The handler still
    answers: the filter compares every partition column with the empty
    string and the date tag is [----]. *)
Theorem key_without_equals_empty_partition
    (AthenaTableName bucket objectKey : string) :
  lacks Chars.equals objectKey = true →
  handler AthenaTableName {| bucketName := bucket; key := objectKey |}
  = Ok {| FinishedTripsSummaryQuery :=
            FinishedTripsSummaryQuery_template AthenaTableName;
          ReducedTripsQuery := ReducedTripsQuery_template AthenaTableName;
          QueryFilterExpression :=
            "a.year = '' and a.month = '' and a.day = '' and a.hour = '' and a.minute = ''";
          FormattedDate := "----" |}.
Proof.
  intros Hkey. unfold handler, extract. cbn [key].
  by rewrite foldl_forEach_skip by by apply split_segments_lack.
Qed.

Lemma key_without_equals_empty_partition_witness :
  ∃ out,
    handler "aggregated_trips" {| bucketName := "raw"; key := EmptyString |}
      = Ok out ∧
    FormattedDate out = "----".
Proof.
  eexists. split.
  - by apply (key_without_equals_empty_partition "aggregated_trips" "raw").
  - reflexivity.
Defined.

(** X3: the entries of the extracted object are the five partition names
    and the names supplied by a segment of the key, nothing else; in
    particular it never has an entry [__proto__]. *)
Theorem extract_entries objectKey name :
  is_Some (extract objectKey !! name) ↔
  name ∈ partition_names ∨
  (name ≠ "__proto__" ∧
   is_Some (supplied name (split Chars.slash objectKey))).
Proof.
  unfold extract. destruct (decide (name = "__proto__")) as [->|Hname].
  - rewrite foldl_forEach_proto. split.
    + by intros [? ?].
    + intros [Hin|[? _]]; [|done].
      by destruct (partition_names_not_proto _ Hin).
  - rewrite foldl_forEach_lookup by done.
    destruct (supplied name _) as [v|]; [by split; eauto|].
    split.
    + intros Hsome. left. unfold rawStateMachineInput0 in Hsome.
      rewrite !lookup_insert in Hsome.
      unfold partition_names.
      repeat (case_decide; [subst; set_solver|]).
      by destruct Hsome.
    + intros [Hin|[_ [? ?]]]; [|done]. unfold partition_names in Hin.
      repeat (apply elem_of_cons in Hin as [->|Hin]; [by eexists|]).
      by apply elem_of_nil in Hin.
Qed.

End DeliveryKeys.

(** ** The read API, request by request *)

Section ReadApi.
Import Aws TripsApiBackend CacheSpec.
Context `{Platform}.
Variable TripRecordsBucketName : string.

Abbreviation handler := (TripsApiBackend.handler TripRecordsBucketName).

Ltac run_read :=
  unfold TripsApiBackend.handler, mbind, M_bind, mret, M_ret, dynamodb_get,
    dynamodb_update_set, s3_getObject, s3_putObject, s3_selectObjectContent,
    issue, lift, s3_location; simpl;
  rewrite ?key_value_trip_id, ?key_value_TripId.

Ltac split_cases := repeat (case_match; simplify_eq/=; try done).

Ltac pick := repeat first [apply list_elem_of_here | apply list_elem_of_further].

Ltac footprint :=
  do 4 eexists; cbv zeta;
  split; [rewrite <- ?app_assoc; simpl; reflexivity|];
  split; [pick | first [by left | right; split; [pick | done]]].

(** X4: an invocation returns a trip only on the warm path: the summary
    is stored with a truthy flag and the returned value is the parsed
    body of the stored object. An invocation that takes the cold path
    always ends with an error. *)
Theorem read_returns_only_when_warm event w trip :
  (handler event w).2 = Ok trip →
  ∃ item v Body,
    summaries w !! TripId event = Some item ∧
    item !! "AggregationExecuted" = Some v ∧
    truthy v = true ∧
    objects w !! (TripRecordsBucketName, trip_object_key (TripId event))
      = Some Body ∧
    JSON_parse Body = Some trip ∧
    objects (handler event w).1 = objects w.
Proof.
  run_read. unfold get_prop.
  destruct (faults w _ _) as [code|]; simpl; [done|].
  destruct (summaries w !! TripId event) as [item|] eqn:Hitem; simpl; [|done].
  destruct (item !! "AggregationExecuted") as [v|] eqn:Hflag; simpl.
  - destruct (truthy v) eqn:Hv; simpl.
    + destruct (faults w _ _) as [code|]; simpl; [done|].
      destruct (objects w !! _) as [Body|] eqn:Hbody; simpl; [|done].
      destruct (JSON_parse Body) as [t|] eqn:Hparse; simpl; [|done].
      intros [= <-]. by exists item, v, Body.
    + split_cases.
  - split_cases.
Qed.

(** X5: a stored summary that has neither a truthy flag nor a
    [RecordsFile] makes the invocation fail with a [TypeError] right after
    the Summary Store read: nothing is scanned and nothing is put. *)
Theorem cold_read_without_records_file event w item :
  summaries w !! TripId event = Some item →
  truthy (default JsUndefined (item !! "AggregationExecuted")) = false →
  item !! "RecordsFile" = None →
  faults w (requests w) (DynamoGet {[ "trip_id" := JsStr (TripId event) ]})
    = None →
  (handler event w).2 = Err TypeError ∧
  requests (handler event w).1 =
    requests w ++ [DynamoGet {[ "trip_id" := JsStr (TripId event) ]}] ∧
  objects (handler event w).1 = objects w.
Proof.
  intros Hitem Hflag Hfile Hfault. run_read.
  rewrite Hfault. simpl. rewrite Hitem. simpl. rewrite Hflag. simpl.
  by rewrite Hfile.
Qed.

(** X6: on the cold path, when the file named by [RecordsFile] is not in
    the Object Store, the invocation ends with the error of the scan,
    after the Summary Store read and the scan request: no aggregated
    object is put and no update is attempted. *)
Theorem cold_read_missing_records_object event w item f b k :
  summaries w !! TripId event = Some item →
  truthy (default JsUndefined (item !! "AggregationExecuted")) = false →
  item !! "RecordsFile" = Some (JsObj f) →
  f !! "Bucket" = Some (JsStr b) →
  f !! "Key" = Some (JsStr k) →
  objects w !! (b, k) = None →
  let G := DynamoGet {[ "trip_id" := JsStr (TripId event) ]} in
  let Sel := S3SelectObjectContent (JsStr b) (JsStr k)
               (select_expression (TripId event)) in
  faults w (requests w) G = None →
  faults w (requests w ++ [G]) Sel = None →
  (handler event w).2 = Err (AwsError "NoSuchKey") ∧
  requests (handler event w).1 = requests w ++ [G; Sel] ∧
  objects (handler event w).1 = objects w.
Proof.
  intros Hitem Hflag Hfile Hb Hk Hobj G Sel HG HSel. subst G Sel. run_read.
  rewrite HG. simpl. rewrite Hitem. simpl. rewrite Hflag. simpl.
  rewrite Hfile. simpl. rewrite Hb, Hk. simpl. rewrite HSel. simpl.
  rewrite Hobj. simpl. by rewrite <- app_assoc.
Qed.

(** X7: what an invocation can do at all. Its requests are a Summary
    Store read, then either an object read, or a scan, a put of the
    object [trips/<tripId>.json] in the trip records bucket and an
    update, cut off at the first failure; the Object Store is unchanged
    or changed at that one object; the environment and the Summary Store
    are unchanged. *)
Theorem read_footprint event w :
  let G := DynamoGet {[ "trip_id" := JsStr (TripId event) ]} in
  let O := S3GetObject (JsStr TripRecordsBucketName)
                       (JsStr (trip_object_key (TripId event))) in
  let U := DynamoUpdate {[ "TripId" := JsStr (TripId event) ]}
                        "AggregationExecuted" (JsBool true) in
  let loc := (TripRecordsBucketName, trip_object_key (TripId event)) in
  let w' := (handler event w).1 in
  (∃ calls Bucket Key Body,
      requests w' = requests w ++ calls ∧
      let Sel := S3SelectObjectContent Bucket Key
                   (select_expression (TripId event)) in
      let P := S3PutObject (JsStr TripRecordsBucketName)
                           (JsStr (trip_object_key (TripId event))) Body in
      calls ∈ [ [G]; [G; O]; [G; Sel]; [G; Sel; P]; [G; Sel; P; U] ] ∧
      (objects w' = objects w ∨
       (P ∈ calls ∧ objects w' = <[loc := Body]> (objects w)))) ∧
  summaries w' = summaries w ∧
  faults w' = faults w.
Proof.
  intros G O U loc w'. subst G O U loc w'. run_read.
  split_cases; split_and!; try done; footprint.
  Unshelve. all: first [exact JsUndefined | exact EmptyString].
Qed.

(** X8: no sequence of invocations of the read API changes the Summary
    Store. In particular a trip that is read on the cold path is read on
    the cold path again the next time. *)
Theorem reads_never_change_summaries events w :
  summaries (foldl (λ w event, (handler event w).1) w events) = summaries w.
Proof.
  revert w. induction events as [|event events IH]; intros w; simpl; [done|].
  by rewrite IH, handler_summaries_unchanged.
Qed.

Lemma parsedRecords_app a b :
  parsedRecords (a +:+ String Chars.newline b)
    = parsedRecords a ++ parsedRecords b.
Proof.
  unfold parsedRecords.
  by rewrite split_app, !List.filter_app, map_app, List.filter_app.
Qed.

(** X9: the records collected from a stream do not depend on how the
    rows are packed into [Records] events, as long as the payloads are
    cut at line breaks; [End] and other events contribute nothing. *)
Theorem collect_cut_at_line_break before a b after :
  collect (before ++ RecordsEvent (a +:+ nl +:+ b) :: after)
    = collect (before ++ RecordsEvent a :: RecordsEvent b :: after) ∧
  collect (before ++ EndEvent :: after) = collect (before ++ after) ∧
  collect (before ++ OtherEvent :: after) = collect (before ++ after).
Proof.
  unfold collect. rewrite !foldl_app. simpl. split_and!; [|done..].
  f_equal. change (a +:+ nl +:+ b) with (a +:+ String Chars.newline b).
  by rewrite parsedRecords_app, app_assoc.
Qed.

(** X10: on the warm path there is no fallback to the cold path. When
    the object is missing the invocation ends with the error of the
    object read, when its body does not parse with a [SyntaxError]; in
    both cases after exactly the two reads. *)
Theorem warm_read_failures event w item v :
  summaries w !! TripId event = Some item →
  item !! "AggregationExecuted" = Some v →
  truthy v = true →
  let G := DynamoGet {[ "trip_id" := JsStr (TripId event) ]} in
  let O := S3GetObject (JsStr TripRecordsBucketName)
                       (JsStr (trip_object_key (TripId event))) in
  let loc := (TripRecordsBucketName, trip_object_key (TripId event)) in
  faults w (requests w) G = None →
  faults w (requests w ++ [G]) O = None →
  requests (handler event w).1 = requests w ++ [G; O] ∧
  (objects w !! loc = None →
   (handler event w).2 = Err (AwsError "NoSuchKey")) ∧
  (∀ Body, objects w !! loc = Some Body → JSON_parse Body = None →
           (handler event w).2 = Err SyntaxError).
Proof.
  intros Hitem Hflag Hv G O loc HG HO. subst G O loc. run_read.
  rewrite HG. simpl. rewrite Hitem. simpl. rewrite Hflag. simpl.
  rewrite Hv. simpl. rewrite HO. simpl.
  destruct (objects w !! _) as [Body|] eqn:Hobj; simpl;
    (split_and!; [by rewrite <- app_assoc|done|]).
  - by intros ? [= <-] ->.
  - done.
Qed.

End ReadApi.

(** *** Runs *)

Section ReadApiRuns.
Import Aws TripsApiBackend CacheSpec Concrete Scenarios.

Lemma read_returns_only_when_warm_witness :
  ∃ item,
    summaries world !! "t2" = Some item ∧
    item !! "AggregationExecuted" = Some (JsBool true).
Proof.
  destruct (read_returns_only_when_warm (H := platform) "aggregated"
              {| TripId := "t2" |} world (JsBool true) eq_refl)
    as (item & v & Body & Hitem & Hflag & Hv & _).
  exists item. split; [exact Hitem|].
  rewrite Hflag. f_equal.
  vm_compute in Hitem. injection Hitem as <-. vm_compute in Hflag.
  by injection Hflag as <-.
Defined.



Lemma cold_read_without_records_file_witness :
  (@TripsApiBackend.handler platform "aggregated" {| TripId := "t7" |}
     bare_world).2 = Err TypeError.
Proof.
  apply (cold_read_without_records_file (H := platform) "aggregated"
           {| TripId := "t7" |} bare_world {[ "trip_id" := JsStr "t7" ]});
    reflexivity.
Defined.

Lemma cold_read_missing_records_object_witness :
  (@TripsApiBackend.handler platform "aggregated" {| TripId := "t9" |}
     bare_world).2 = Err (AwsError "NoSuchKey").
Proof.
  apply (cold_read_missing_records_object (H := platform) "aggregated"
           {| TripId := "t9" |} bare_world
           {[ "trip_id" := JsStr "t9";
              "RecordsFile" := JsObj {[ "Bucket" := JsStr "reduced";
                                        "Key" := JsStr "gone.csv" ]} ]}
           {[ "Bucket" := JsStr "reduced"; "Key" := JsStr "gone.csv" ]}
           "reduced" "gone.csv");
    reflexivity.
Defined.

Lemma warm_read_failures_witness :
  (@TripsApiBackend.handler platform "aggregated" {| TripId := "t8" |}
     bare_world).2 = Err SyntaxError.
Proof.
  destruct (warm_read_failures (H := platform) "aggregated"
              {| TripId := "t8" |} bare_world
              {[ "trip_id" := JsStr "t8"; "AggregationExecuted" := JsBool true ]}
              (JsBool true) eq_refl eq_refl eq_refl eq_refl eq_refl)
    as (_ & _ & Hparse).
  by apply (Hparse "{oops").
Defined.

End ReadApiRuns.

(** ** The summary writer, file by file *)

Section WriterFiles.
Import Aws CreateTripSummaries CacheSpec.
Context `{Platform}.

Lemma split_last_two rest b k :
  lacks Chars.slash b = true →
  lacks Chars.slash k = true →
  split Chars.slash (rest +:+ "/" +:+ b +:+ "/" +:+ k)
    = split Chars.slash rest ++ [b; k].
Proof.
  intros Hb Hk.
  change (rest +:+ "/" +:+ b +:+ "/" +:+ k)
    with (rest +:+ String Chars.slash (b +:+ String Chars.slash k)).
  by rewrite !split_app, (split_lacks _ _ Hb), (split_lacks _ _ Hk).
Qed.

Lemma output_file_bucket_key rest b k :
  lacks Chars.slash b = true →
  lacks Chars.slash k = true →
  output_file (rest +:+ "/" +:+ b +:+ "/" +:+ k)
    = JsObj {[ "Bucket" := JsStr b; "Key" := JsStr k ]}.
Proof.
  intros Hb Hk. unfold output_file, slice.
  by rewrite split_last_two, reverse_app by done.
Qed.

(** X11: the file of a query result is named by the last two segments
    of its output location, whatever comes before them: the last but one
    is taken as the bucket, the last as the key. A location without [/]
    gives a file without bucket. *)
Theorem output_file_last_two_segments :
  (∀ rest b k,
      lacks Chars.slash b = true →
      lacks Chars.slash k = true →
      output_file (rest +:+ "/" +:+ b +:+ "/" +:+ k)
        = JsObj {[ "Bucket" := JsStr b; "Key" := JsStr k ]}) ∧
  (∀ k,
      lacks Chars.slash k = true →
      output_file k = JsObj {[ "Bucket" := JsUndefined; "Key" := JsStr k ]}).
Proof.
  split; [apply output_file_bucket_key|].
  intros k Hk. unfold output_file, slice. by rewrite split_lacks.
Qed.

Lemma output_file_last_two_segments_witness :
  output_file "s3://reduced/summary.csv"
    = JsObj {[ "Bucket" := JsStr "reduced"; "Key" := JsStr "summary.csv" ]}.
Proof.
  apply (proj1 output_file_last_two_segments "s3:/" "reduced" "summary.csv");
    reflexivity.
Defined.

(** X12: when the result file cannot be read or parsed, the invocation
    ends with an error after the one object read; nothing is written. *)
Theorem writer_stops_at_unreadable_file event w :
  (∀ b k body,
      s3_location (own (summaryFile event) "Bucket")
                  (own (summaryFile event) "Key") = Some (b, k) →
      objects w !! (b, k) = Some body →
      csv_parse body = None) →
  ∃ e,
    (handler event w).2 = Err e ∧
    requests (handler event w).1 =
      requests w ++ [S3GetObject (own (summaryFile event) "Bucket")
                                 (own (summaryFile event) "Key")] ∧
    summaries (handler event w).1 = summaries w ∧
    objects (handler event w).1 = objects w.
Proof.
  intros Hfile. unfold handler, mbind, M_bind, s3_getObject, issue, lift.
  destruct (faults w _ _) as [code|]; simpl; [by eexists|].
  destruct (s3_location _ _) as [[b k]|] eqn:Hloc; simpl; [|by eexists].
  destruct (objects w !! _) as [body|] eqn:Hbody; simpl; [|by eexists].
  rewrite (Hfile _ _ _ eq_refl Hbody). simpl. by eexists.
Qed.

(** X13: a result file without rows is not an error: the invocation
    succeeds after the one object read and issues no write at all. *)
Theorem empty_result_file_writes_nothing event w b k body :
  s3_location (own (summaryFile event) "Bucket")
              (own (summaryFile event) "Key") = Some (b, k) →
  faults w (requests w) (S3GetObject (JsStr b) (JsStr k)) = None →
  objects w !! (b, k) = Some body →
  csv_parse body = Some [] →
  (handler event w).2 = Ok () ∧
  requests (handler event w).1 =
    requests w ++ [S3GetObject (JsStr b) (JsStr k)] ∧
  summaries (handler event w).1 = summaries w.
Proof.
  intros Hloc Hfault Hbody Hrows.
  rewrite (handler_run _ _ _ _ _ _ Hloc Hfault Hbody Hrows).
  rewrite fmap_nil, chunks_from_step, decide_False by (simpl; lia).
  unfold Promise_all_map. simpl. by rewrite app_nil_r.
Qed.

Lemma slice_chunk {A} (l : list A) i :
  slice i (min (i + 25) (length l)) l = take 25 (drop i l).
Proof.
  unfold slice. destruct (decide (i + 25 ≤ length l)).
  - f_equal. lia.
  - rewrite !take_ge; [done|rewrite length_drop; lia..].
Qed.

Lemma chunks_from_lookup {A} (l : list A) n i j :
  length l - i ≤ n →
  chunks_from l i !! j =
    if decide (i + 25 * j < length l)
    then Some (take 25 (drop (i + 25 * j) l)) else None.
Proof.
  revert i j. induction n as [|n IH]; intros i j Hn;
    rewrite chunks_from_step; case_decide as Hlt; try lia.
  - by rewrite decide_False by lia.
  - destruct j as [|j]; simpl.
    + rewrite Nat.add_0_r, decide_True by lia. by rewrite slice_chunk.
    + rewrite IH by lia.
      replace (i + 25 + 25 * j) with (i + 25 * S j) by lia. done.
  - by rewrite decide_False by lia.
Qed.

(** X14: the chunk with index [j] holds the rows from position [25 j]
    up to, not including, position [25 j + 25], as far as there are
    rows; so every chunk but the last holds exactly 25 rows. *)
Theorem chunk_index {A} (tripsSummary : list A) j :
  chunks_from tripsSummary 0 !! j =
    if decide (25 * j < length tripsSummary)
    then Some (take 25 (drop (25 * j) tripsSummary)) else None.
Proof. by rewrite (chunks_from_lookup _ (length tripsSummary)) by lia. Qed.

(** *** Items sent *)

Lemma handler_sent_items event w calls Items Item :
  requests (handler event w).1 = requests w ++ calls →
  DynamoBatchWrite Items ∈ calls →
  Item ∈ Items →
  ∃ b k body rows row,
    s3_location (own (summaryFile event) "Bucket")
                (own (summaryFile event) "Key") = Some (b, k) ∧
    objects w !! (b, k) = Some body ∧
    csv_parse body = Some rows ∧
    row ∈ rows ∧
    Item = with_records_file event row.
Proof.
  unfold handler, mbind, M_bind, s3_getObject, issue, lift.
  destruct (faults w _ _) as [code|] eqn:Hfault; simpl.
  { intros <-%app_inv_head [?|?%elem_of_nil]%elem_of_cons; done. }
  destruct (s3_location _ _) as [[b k]|] eqn:Hloc; simpl; cycle 1.
  { intros <-%app_inv_head [?|?%elem_of_nil]%elem_of_cons; done. }
  destruct (objects w !! _) as [body|] eqn:Hbody; simpl; cycle 1.
  { intros <-%app_inv_head [?|?%elem_of_nil]%elem_of_cons; done. }
  destruct (csv_parse body) as [rows|] eqn:Hrows; simpl; cycle 1.
  { intros <-%app_inv_head [?|?%elem_of_nil]%elem_of_cons; done. }
  match goal with
  | |- context [Promise_all_map _ _ ?c ?w1] =>
      destruct (Promise_all_map_run c w1) as (Hreq & _)
  end.
  simpl in Hreq. rewrite Hreq, <- app_assoc.
  intros <-%app_inv_head [?|Hin]%elem_of_cons HItem; [done|].
  apply list_elem_of_fmap in Hin as (chunk & [= ->] & Hchunk).
  assert (Item ∈ with_records_file event <$> rows) as HI.
  { rewrite <- (proj1 (chunks_from_0 _)). by apply (elem_of_concat_2 _ chunk). }
  apply list_elem_of_fmap in HI as (row & -> & Hrow).
  by exists b, k, body, rows, row.
Qed.

(** X15: every item of every write is one parsed row of the result
    file, its columns as strings, with the file of the second query
    result as [RecordsFile], the same for all items. *)
Theorem sent_items_reference_trip_file event w calls Items Item
    rest b k :
  QueryResults event !! 1 = Some (rest +:+ "/" +:+ b +:+ "/" +:+ k) →
  lacks Chars.slash b = true →
  lacks Chars.slash k = true →
  requests (handler event w).1 = requests w ++ calls →
  DynamoBatchWrite Items ∈ calls →
  Item ∈ Items →
  Item !! "RecordsFile"
    = Some (JsObj {[ "Bucket" := JsStr b; "Key" := JsStr k ]}) ∧
  ∃ sb sk body rows row,
    s3_location (own (summaryFile event) "Bucket")
                (own (summaryFile event) "Key") = Some (sb, sk) ∧
    objects w !! (sb, sk) = Some body ∧
    csv_parse body = Some rows ∧
    row ∈ rows ∧
    Item = <["RecordsFile" := JsObj {[ "Bucket" := JsStr b;
                                       "Key" := JsStr k ]}]>
             (JsStr <$> row).
Proof.
  intros Hloc Hb Hk Hcalls Hin HItem.
  destruct (handler_sent_items _ _ _ _ _ Hcalls Hin HItem)
    as (sb & sk & body & rows & row & ? & ? & ? & ? & ->).
  assert (tripFile event
          = JsObj {[ "Bucket" := JsStr b; "Key" := JsStr k ]}) as Hfile.
  { unfold tripFile, queryResultFiles. rewrite list_lookup_fmap, Hloc. simpl.
    by rewrite output_file_bucket_key by done. }
  unfold with_records_file. rewrite Hfile. split.
  - by rewrite lookup_insert_eq.
  - by exists sb, sk, body, rows, row.
Qed.

(** *** Rows stored *)

Lemma NoDup_fmap_eq {A B} (f : A → B) (l : list A) x y :
  NoDup (f <$> l) → x ∈ l → y ∈ l → f x = f y → x = y.
Proof.
  intros Hnodup [i Hi]%list_elem_of_lookup_1 [j Hj]%list_elem_of_lookup_1 Hf.
  assert (i = j) as ->; [|congruence].
  apply (NoDup_lookup _ _ _ (f x) Hnodup).
  - by rewrite list_lookup_fmap, Hi.
  - by rewrite list_lookup_fmap, Hj, Hf.
Qed.

(** X16: the writer is idempotent on a result file that names every trip
    once, when the first run wrote everything. After a successful run
    in which the service left no item unprocessed, a further run on the
    same result file leaves every row as the first run left it, whatever
    the service does in that run: whichever batches it refuses, whatever
    it leaves unprocessed, in whatever order it serves them. *)
Theorem writer_rerun_idempotent event w w2 b k body rows :
  s3_location (own (summaryFile event) "Bucket")
              (own (summaryFile event) "Key") = Some (b, k) →
  objects w !! (b, k) = Some body →
  csv_parse body = Some rows →
  NoDup ((λ row : gmap string string, row !! "trip_id") <$> rows) →
  nothing_unprocessed w →
  (handler event w).2 = Ok () →
  summaries w2 = summaries (handler event w).1 →
  objects w2 !! (b, k) = Some body →
  summaries (handler event w2).1 = summaries w2.
Proof.
  intros Hloc Hbody Hrows Hnodup Hall Hok Hw2 Hbody2.
  apply map_eq. intros id.
  destruct (handler_rows event w2 id)
    as (_ & _ & _ & _ & [Hsame|(b' & k' & body' & rows' & row & Hloc'
                                 & Hbody' & Hrows' & Hrow & Hid & Hnew)]);
    [done|].
  rewrite Hloc in Hloc'. injection Hloc' as <- <-.
  rewrite Hbody2 in Hbody'. injection Hbody' as <-.
  rewrite Hrows in Hrows'. injection Hrows' as <-.
  destruct (handler_written_row _ _ _ _ _ _ _ _ Hloc Hbody Hrows Hrow Hid
              ltac:(intros; apply Hall) Hok)
    as (row' & Hrow' & Hid' & Hstored).
  assert (row' = row) as ->.
  { apply (NoDup_fmap_eq _ _ _ _ Hnodup Hrow' Hrow). congruence. }
  by rewrite Hnew, Hw2, Hstored.
Qed.

(** *** Rejected writes *)

Lemma batchWrite_duplicate issued Items p q Ip Iq id w :
  p < q →
  Items !! p = Some Ip → Items !! q = Some Iq →
  item_key (marshal_item Ip) = Some id →
  item_key (marshal_item Iq) = Some id →
  ∃ e, (dynamodb_batchWrite_put issued Items w).2 = Err e.
Proof.
  intros Hpq Hp Hq HIp HIq. unfold dynamodb_batchWrite_put.
  destruct (faults w _ _); simpl; [by eexists|].
  destruct (mapM item_key _) as [ids|] eqn:Hids; simpl; [|by eexists].
  case_decide as Hvalid; simpl; [|by eexists].
  destruct Hvalid as [_ Hnodup]. apply mapM_Some_1 in Hids.
  assert (ids !! p = Some id) as Hidp.
  { destruct (Forall2_lookup_l _ _ _ p (marshal_item Ip) Hids)
      as (y & Hy & Hkey); [by rewrite list_lookup_fmap, Hp|congruence]. }
  assert (ids !! q = Some id) as Hidq.
  { destruct (Forall2_lookup_l _ _ _ q (marshal_item Iq) Hids)
      as (y & Hy & Hkey); [by rewrite list_lookup_fmap, Hq|congruence]. }
  pose proof (NoDup_lookup _ _ _ _ Hnodup Hidp Hidq). lia.
Qed.

Lemma batchWrite_without_key issued Items I w :
  I ∈ Items →
  item_key (marshal_item I) = None →
  (∃ e, (dynamodb_batchWrite_put issued Items w).2 = Err e) ∧
  summaries (dynamodb_batchWrite_put issued Items w).1 = summaries w.
Proof.
  intros Hin Hkey. unfold dynamodb_batchWrite_put.
  destruct (faults w _ _); simpl; [by eauto|].
  rewrite (mapM_None_2 item_key (marshal_item <$> Items)); [by eauto|].
  apply Exists_exists. exists (marshal_item I).
  split; [by apply list_elem_of_fmap_2|done].
Qed.

(** X17: two rows of the result file with the same [trip_id] that fall
    into the same chunk make the run fail: the store refuses a batch
    that names a key twice. *)
Theorem duplicate_trip_in_chunk_rejected event w b k body rows c p q
    rp rq id :
  s3_location (own (summaryFile event) "Bucket")
              (own (summaryFile event) "Key") = Some (b, k) →
  faults w (requests w) (S3GetObject (JsStr b) (JsStr k)) = None →
  objects w !! (b, k) = Some body →
  csv_parse body = Some rows →
  p < q < 25 →
  rows !! (25 * c + p) = Some rp →
  rows !! (25 * c + q) = Some rq →
  rp !! "trip_id" = Some id →
  rq !! "trip_id" = Some id →
  ∃ e, (handler event w).2 = Err e.
Proof.
  intros Hloc Hfault Hbody Hrows [Hpq Hq] Hrp Hrq Hidp Hidq.
  rewrite (handler_run _ _ _ _ _ _ Hloc Hfault Hbody Hrows).
  set (tripsSummary := with_records_file event <$> rows).
  assert (25 * c < length tripsSummary) as Hc.
  { unfold tripsSummary. rewrite length_fmap.
    apply lookup_lt_Some in Hrp. lia. }
  apply (Promise_all_map_err _ (take 25 (drop (25 * c) tripsSummary))).
  - apply (list_elem_of_lookup_2 _ c).
    rewrite (chunks_from_lookup _ (length tripsSummary)) by lia.
    by rewrite decide_True by done.
  - intros issued w'.
    apply (batchWrite_duplicate _ _ p q (with_records_file event rp)
             (with_records_file event rq) id); [done| | |by rewrite sent_item_key..].
    + rewrite lookup_take_lt, lookup_drop by lia.
      unfold tripsSummary. by rewrite list_lookup_fmap, Hrp.
    + rewrite lookup_take_lt, lookup_drop by lia.
      unfold tripsSummary. by rewrite list_lookup_fmap, Hrq.
Qed.

Lemma Promise_all_map_unchanged chunks w :
  Forall (λ Items, ∃ I, I ∈ Items ∧ item_key (marshal_item I) = None) chunks →
  summaries (Promise_all_map DynamoBatchWrite dynamodb_batchWrite_put
               chunks w).1 = summaries w ∧
  (chunks ≠ [] →
   (Promise_all_map DynamoBatchWrite dynamodb_batchWrite_put chunks w).2
     ≠ Ok ()).
Proof.
  intros Hall. rewrite Forall_forall in Hall. split.
  - unfold Promise_all_map.
    apply (foldl_serve_inv _ _ _ _ (λ w', summaries w' = summaries w));
      [|done].
    intros i Items w1 Hi <-.
    destruct (Hall Items) as (I & HI & Hkey);
      [by apply list_elem_of_lookup_2 in Hi|].
    by apply (batchWrite_without_key _ _ I).
  - intros Hne. destruct chunks as [|Items chunks]; [done|].
    destruct (Hall Items) as (I & HI & Hkey); [apply list_elem_of_here|].
    destruct (Promise_all_map_err (Items :: chunks) Items w) as [e He].
    + apply list_elem_of_here.
    + intros issued w'. by apply (batchWrite_without_key _ _ I).
    + by rewrite He.
Qed.

(** X18: a result file whose rows have no [trip_id] column leaves the
    Summary Store as it was, and the run fails unless the file has no
    rows at all: every batch is refused. *)
Theorem rows_without_trip_id_rejected event w b k body rows :
  s3_location (own (summaryFile event) "Bucket")
              (own (summaryFile event) "Key") = Some (b, k) →
  faults w (requests w) (S3GetObject (JsStr b) (JsStr k)) = None →
  objects w !! (b, k) = Some body →
  csv_parse body = Some rows →
  Forall (λ row : gmap string string, row !! "trip_id" = None) rows →
  summaries (handler event w).1 = summaries w ∧
  (rows ≠ [] → (handler event w).2 ≠ Ok ()).
Proof.
  intros Hloc Hfault Hbody Hrows Hcols.
  rewrite (handler_run _ _ _ _ _ _ Hloc Hfault Hbody Hrows).
  set (tripsSummary := with_records_file event <$> rows).
  destruct (chunks_from_0 tripsSummary) as (Hconcat & Hsizes & Hlen).
  destruct (Promise_all_map_unchanged (chunks_from tripsSummary 0)
              (log (S3GetObject (JsStr b) (JsStr k)) w)) as [Hs Hr].
  - rewrite Forall_forall in Hsizes. apply Forall_forall.
    intros Items HItems. destruct (Hsizes _ HItems) as [Hpos _].
    destruct Items as [|I Items]; [simpl in Hpos; lia|].
    exists I. split; [apply list_elem_of_here|].
    assert (I ∈ tripsSummary) as HI.
    { rewrite <- Hconcat. apply (elem_of_concat_2 _ (I :: Items)); [done|].
      apply list_elem_of_here. }
    apply list_elem_of_fmap in HI as (row & -> & Hrow).
    rewrite sent_item_key. rewrite Forall_forall in Hcols. by apply Hcols.
  - split; [done|]. intros Hne. apply Hr. intros Hnil.
    rewrite Hnil in Hconcat. simpl in Hconcat. unfold tripsSummary in Hconcat.
    symmetry in Hconcat. apply fmap_nil_inv in Hconcat. done.
Qed.

End WriterFiles.

(** ** From the writer to the read API *)

Section WriterThenRead.
Import Aws CacheSpec.
Context `{Platform}.
Variable TripRecordsBucketName : string.

(** X19: a trip written by a successful run of the writer (the service
    did not leave the item of its row unprocessed) is read on the cold
    path, and the scan is made on the file of the second query result,
    with the expression for that trip. *)
Theorem written_trip_scanned_in_trip_file event w b k body rows row id
    rest tb tk :
  s3_location (own (CreateTripSummaries.summaryFile event) "Bucket")
              (own (CreateTripSummaries.summaryFile event) "Key")
    = Some (b, k) →
  objects w !! (b, k) = Some body →
  csv_parse body = Some rows →
  Forall (λ r : gmap string string, r !! "AggregationExecuted" = None) rows →
  row ∈ rows →
  row !! "trip_id" = Some id →
  CreateTripSummaries.QueryResults event !! 1
    = Some (rest +:+ "/" +:+ tb +:+ "/" +:+ tk) →
  lacks Chars.slash tb = true →
  lacks Chars.slash tk = true →
  (CreateTripSummaries.handler event w).2 = Ok () →
  (∀ issued Items i,
      Items !! i = Some (CreateTripSummaries.with_records_file event row) →
      unprocessed w issued (DynamoBatchWrite Items) i = false) →
  let w1 := (CreateTripSummaries.handler event w).1 in
  let read := TripsApiBackend.handler TripRecordsBucketName
                {| TripsApiBackend.TripId := id |} w1 in
  let G := DynamoGet {[ "trip_id" := JsStr id ]} in
  let Sel := S3SelectObjectContent (JsStr tb) (JsStr tk)
               (TripsApiBackend.select_expression id) in
  faults w1 (requests w1) G = None →
  ∃ calls, requests read.1 = requests w1 ++ G :: Sel :: calls.
Proof.
  intros Hloc Hbody Hrows Hcols Hrow Hid Hfile Htb Htk Hok Hleft w1 read G Sel
    HG.
  destruct (handler_written_row _ _ _ _ _ _ _ _ Hloc Hbody Hrows Hrow Hid
              Hleft Hok)
    as (row' & Hrow' & Hid' & Hstored).
  rewrite Forall_forall in Hcols.
  destruct (sent_item_flag event row' (Hcols _ Hrow')) as [_ Hflag].
  assert (marshal_item (CreateTripSummaries.with_records_file event row')
            !! "RecordsFile"
          = Some (JsObj {[ "Bucket" := JsStr tb; "Key" := JsStr tk ]}))
    as Hrecords.
  { rewrite marshal_item_lookup. unfold CreateTripSummaries.with_records_file.
    rewrite lookup_insert_eq.
    unfold CreateTripSummaries.tripFile, CreateTripSummaries.queryResultFiles.
    rewrite list_lookup_fmap, Hfile.
    cbn [fmap option_fmap option_map default].
    by rewrite output_file_bucket_key by done. }
  change (CreateTripSummaries.handler event w).1 with w1 in Hstored.
  subst read G Sel. clearbody w1.
  unfold TripsApiBackend.handler, mbind, M_bind, mret, M_ret, dynamodb_get,
    dynamodb_update_set, s3_getObject, s3_putObject, s3_selectObjectContent,
    issue, lift, get_prop.
  cbn [TripsApiBackend.TripId].
  rewrite key_value_trip_id, HG. cbn [summaries log].
  rewrite Hstored. cbn [from_option]. rewrite Hflag, Hrecords.
  cbn [default truthy negb]. unfold Datatypes.id.
  rewrite lookup_insert_eq, lookup_insert_ne, lookup_singleton_eq by done.
  cbn [default].
  repeat (case_match; simplify_eq/=);
    rewrite <- ?app_assoc; simpl; by eexists.
Qed.

End WriterThenRead.

(** *** Runs *)

Section WriterRuns.
Import Aws CreateTripSummaries Concrete Scenarios.



Lemma writer_stops_at_unreadable_file_witness :
  requests (@handler platform {| QueryResults := ["s3://reduced/nothing.csv"] |}
              world).1
    = [S3GetObject (JsStr "reduced") (JsStr "nothing.csv")].
Proof.
  destruct (writer_stops_at_unreadable_file (H := platform)
              {| QueryResults := ["s3://reduced/nothing.csv"] |} world)
    as (e & _ & Hreq & _).
  - intros b k body [= <- <-] Hbody. vm_compute in Hbody. discriminate.
  - exact Hreq.
Defined.

Lemma empty_result_file_writes_nothing_witness :
  (@handler platform {| QueryResults := ["s3://reduced/empty.csv"] |}
     bare_world).2 = Ok ().
Proof.
  apply (empty_result_file_writes_nothing (H := platform)
           {| QueryResults := ["s3://reduced/empty.csv"] |} bare_world
           "reduced" "empty.csv" ("trip_id,vehicle_id" +:+ nl));
    reflexivity.
Defined.

Lemma sent_items_reference_trip_file_witness :
  ∃ Item : gmap string JsValue,
    Item !! "trip_id" = Some (JsStr "t2") ∧
    Item !! "RecordsFile"
      = Some (JsObj {[ "Bucket" := JsStr "reduced";
                       "Key" := JsStr "records.csv" ]}).
Proof.
  set (rows := [ {[ "trip_id" := "t2"; "vehicle_id" := "v9" ]};
                 {[ "trip_id" := "t3"; "vehicle_id" := "v7" ]} ]
               : list (gmap string string)).
  assert (requests (@handler platform cycle_event world).1 =
            requests world ++
              [ S3GetObject (JsStr "reduced") (JsStr "summary.csv");
                DynamoBatchWrite (with_records_file cycle_event <$> rows) ])
    as Hcalls by (vm_compute; reflexivity).
  exists (with_records_file cycle_event
            {[ "trip_id" := "t2"; "vehicle_id" := "v9" ]}).
  split; [reflexivity|].
  refine (proj1 (sent_items_reference_trip_file (H := platform)
                   cycle_event world _ _ _ "s3:/" "reduced" "records.csv"
                   eq_refl eq_refl eq_refl Hcalls _ _)).
  - apply list_elem_of_further, list_elem_of_here.
  - apply list_elem_of_here.
Defined.

Lemma writer_rerun_idempotent_witness :
  summaries (@handler platform cycle_event
               (@handler platform cycle_event world).1).1
    = summaries (@handler platform cycle_event world).1.
Proof.
  apply (writer_rerun_idempotent (H := platform) cycle_event world
           (@handler platform cycle_event world).1
           "reduced" "summary.csv"
           ("trip_id,vehicle_id" +:+ nl +:+ "t2,v9" +:+ nl +:+ "t3,v7" +:+ nl)
           [ {[ "trip_id" := "t2"; "vehicle_id" := "v9" ]};
             {[ "trip_id" := "t3"; "vehicle_id" := "v7" ]} ]);
    [reflexivity | reflexivity | reflexivity | | | | reflexivity
    | reflexivity].
  - apply (bool_decide_unpack _). vm_compute. reflexivity.
  - intros issued c i. reflexivity.
  - vm_compute. reflexivity.
Defined.

Lemma written_trip_scanned_in_trip_file_witness :
  ∃ calls,
    requests (@TripsApiBackend.handler platform "aggregated"
                {| TripsApiBackend.TripId := "t3" |}
                (@handler platform cycle_event world).1).1
      = requests (@handler platform cycle_event world).1
          ++ DynamoGet {[ "trip_id" := JsStr "t3" ]}
          :: S3SelectObjectContent (JsStr "reduced") (JsStr "records.csv")
               (TripsApiBackend.select_expression "t3")
          :: calls.
Proof.
  apply (written_trip_scanned_in_trip_file (H := platform) "aggregated"
           cycle_event world "reduced" "summary.csv"
           ("trip_id,vehicle_id" +:+ nl +:+ "t2,v9" +:+ nl +:+ "t3,v7" +:+ nl)
           [ {[ "trip_id" := "t2"; "vehicle_id" := "v9" ]};
             {[ "trip_id" := "t3"; "vehicle_id" := "v7" ]} ]
           {[ "trip_id" := "t3"; "vehicle_id" := "v7" ]} "t3"
           "s3:/" "reduced" "records.csv");
    try reflexivity.
  - repeat constructor.
  - apply list_elem_of_further, list_elem_of_here.
Defined.

(** The service can leave items unprocessed without the run failing:
    on [throttled_world] the run succeeds and no row is written, so the
    row of [t2] keeps its flag. *)
Example unprocessed_items_go_unnoticed :
  (@handler platform cycle_event throttled_world).2 = Ok () ∧
  summaries (@handler platform cycle_event throttled_world).1
    = summaries world.
Proof. split; vm_compute; reflexivity. Qed.

(** Two batches under way at the same time that hold an item for the
    same key: the race decides which of the two stays. *)
Example race_decides_row :
  let first := {[ "trip_id" := JsStr "t5"; "vehicle_id" := JsStr "v1" ]} in
  let second := {[ "trip_id" := JsStr "t5"; "vehicle_id" := JsStr "v2" ]} in
  summaries (Promise_all_map DynamoBatchWrite dynamodb_batchWrite_put
               [[first]; [second]] bare_world).1 !! "t5" = Some second ∧
  summaries (Promise_all_map DynamoBatchWrite dynamodb_batchWrite_put
               [[first]; [second]] racing_world).1 !! "t5" = Some first.
Proof. split; vm_compute; reflexivity. Qed.

Lemma duplicate_trip_in_chunk_rejected_witness :
  ∃ e, (@handler platform {| QueryResults := ["s3://reduced/twice.csv"] |}
          bare_world).2 = Err e.
Proof.
  apply (duplicate_trip_in_chunk_rejected (H := platform)
           {| QueryResults := ["s3://reduced/twice.csv"] |} bare_world
           "reduced" "twice.csv"
           ("trip_id,vehicle_id" +:+ nl +:+ "t5,v1" +:+ nl +:+ "t5,v1" +:+ nl)
           [ {[ "trip_id" := "t5"; "vehicle_id" := "v1" ]};
             {[ "trip_id" := "t5"; "vehicle_id" := "v1" ]} ]
           0 0 1
           {[ "trip_id" := "t5"; "vehicle_id" := "v1" ]}
           {[ "trip_id" := "t5"; "vehicle_id" := "v1" ]} "t5");
    try reflexivity.
  lia.
Defined.

Lemma rows_without_trip_id_rejected_witness :
  summaries (@handler platform {| QueryResults := ["s3://reduced/nokey.csv"] |}
               bare_world).1 = summaries bare_world.
Proof.
  apply (rows_without_trip_id_rejected (H := platform)
           {| QueryResults := ["s3://reduced/nokey.csv"] |} bare_world
           "reduced" "nokey.csv" ("vehicle_id" +:+ nl +:+ "v1" +:+ nl)
           [ {[ "vehicle_id" := "v1" ]} ]);
    try reflexivity.
  repeat constructor.
Defined.

End WriterRuns.

(** ** The trips file query *)

Section TripsFileQuery.
Import Athena ReducedTrips.
Variable table : list EventRow.
Variable filter_condition : EventRow → option bool.

Lemma sql_or_true p q :
  sql_or p q = Some true ↔ p = Some true ∨ q = Some true.
Proof.
  destruct p as [[]|], q as [[]|]; simpl;
    (split; [try done; auto|intros [?|?]; done]).
Qed.

Lemma sql_in_true x values :
  sql_in x values = Some true ↔ is_Some x ∧ x ∈ values.
Proof.
  induction values as [|v values IH]; simpl.
  - split; [done|]. by intros [_ ?%elem_of_nil].
  - rewrite sql_or_true, IH, sql_eq_true, elem_of_cons. tauto.
Qed.

Lemma in_finished_trips_true a :
  is_true (in_finished_trips table filter_condition a) = true ↔
  ∃ id c,
    tripid a = Some id ∧ c ∈ table ∧ tripid c = Some id ∧
    eventtype c = Some "trip-finished" ∧ filter_condition c = Some true.
Proof.
  unfold in_finished_trips, finished_tripids.
  rewrite is_true_Some_true, sql_in_true, list_elem_of_fmap. split.
  - intros [[id Hid] (c & Hc & Hin)].
    apply list_elem_of_filter in Hin as [Hcond Hin].
    apply is_true_Some_true, sql_and_true in Hcond as [Htype Hfilter].
    apply sql_eq_true in Htype as [Htype _].
    exists id, c. split_and!; congruence.
  - intros (id & c & Hid & Hc & Hcid & Htype & Hfilter).
    split; [by eexists|]. exists c. split; [congruence|].
    apply list_elem_of_filter. split; [|done].
    apply is_true_Some_true, sql_and_true. split; [|done].
    apply sql_eq_true. by rewrite Htype.
Qed.

(** *** The order of the rows *)

Lemma string_compare_refl s : String.compare s s = Eq.
Proof.
  induction s as [|c s IH]; simpl; [done|].
  unfold Ascii.compare. by rewrite N.compare_refl.
Qed.

Lemma string_compare_trans s1 s2 s3 :
  String.compare s1 s2 = Lt → String.compare s2 s3 = Lt →
  String.compare s1 s3 = Lt.
Proof.
  revert s2 s3. induction s1 as [|c1 s1 IH]; intros [|c2 s2] [|c3 s3];
    simpl; try done.
  unfold Ascii.compare.
  destruct (N.compare_spec (Ascii.N_of_ascii c1) (Ascii.N_of_ascii c2)),
           (N.compare_spec (Ascii.N_of_ascii c2) (Ascii.N_of_ascii c3));
    try done;
    destruct (N.compare_spec (Ascii.N_of_ascii c1) (Ascii.N_of_ascii c3));
    try done; try lia.
  apply IH.
Qed.

Lemma compare_nulls_last_eq x y : compare_nulls_last x y = Eq ↔ x = y.
Proof.
  destruct x as [a|], y as [b|]; simpl; try done. split.
  - by intros ->%String.compare_eq_iff.
  - intros [= ->]. apply string_compare_refl.
Qed.

Lemma compare_nulls_last_antisym x y :
  compare_nulls_last x y = CompOpp (compare_nulls_last y x).
Proof.
  destruct x as [a|], y as [b|]; simpl; try done.
  apply String.compare_antisym.
Qed.

Lemma compare_nulls_last_trans x y z :
  compare_nulls_last x y = Lt → compare_nulls_last y z = Lt →
  compare_nulls_last x z = Lt.
Proof.
  destruct x as [a|], y as [b|], z as [c|]; simpl; try done.
  apply string_compare_trans.
Qed.

Lemma compare_nulls_last_le_trans x y z :
  compare_nulls_last x y ≠ Gt → compare_nulls_last y z ≠ Gt →
  compare_nulls_last x z ≠ Gt.
Proof.
  destruct (compare_nulls_last x y) eqn:Hxy; [| |done].
  { by apply compare_nulls_last_eq in Hxy as ->. }
  destruct (compare_nulls_last y z) eqn:Hyz; [| |done].
  - apply compare_nulls_last_eq in Hyz as <-. by rewrite Hxy.
  - by rewrite (compare_nulls_last_trans _ _ _ Hxy Hyz).
Qed.

Lemma order_by_spec a b : order_by a b ↔ compare_rows a b ≠ Gt.
Proof. unfold order_by. rewrite negb_true_iff, bool_decide_eq_false. done. Qed.

Lemma order_by_total : Total order_by.
Proof.
  intros a b. rewrite !order_by_spec. unfold compare_rows.
  rewrite (compare_nulls_last_antisym (tripid b)),
    (compare_nulls_last_antisym (eventdate b)).
  destruct (compare_nulls_last (tripid a) (tripid b)); simpl; auto.
  destruct (compare_nulls_last (eventdate a) (eventdate b)); simpl; auto.
Qed.

Lemma order_by_trans : Transitive order_by.
Proof.
  intros a b c. rewrite !order_by_spec. unfold compare_rows.
  destruct (compare_nulls_last (tripid a) (tripid b)) eqn:Hab; [| |done].
  - apply compare_nulls_last_eq in Hab as ->.
    destruct (compare_nulls_last (tripid b) (tripid c)); [|done..].
    apply compare_nulls_last_le_trans.
  - intros _.
    destruct (compare_nulls_last (tripid b) (tripid c)) eqn:Hbc; [| |done].
    + apply compare_nulls_last_eq in Hbc as <-. by rewrite Hab.
    + by rewrite (compare_nulls_last_trans _ _ _ Hab Hbc).
Qed.

(** The modelled result is one of the results the engine may answer
    with. *)
Lemma ReducedTripsQuery_answer :
  answer table filter_condition (ReducedTripsQuery table filter_condition).
Proof.
  split; [apply merge_sort_Permutation|].
  apply Sorted_merge_sort, order_by_total.
Qed.

Lemma StronglySorted_filter {A} (R : relation A) (P : A → Prop)
    `{∀ x, Decision (P x)} l :
  StronglySorted R l → StronglySorted R (filter P l).
Proof.
  induction 1 as [|x l Hl IH Hall]; [constructor|].
  rewrite filter_cons. case_decide; [|done].
  constructor; [done|]. rewrite Forall_forall in Hall. apply Forall_forall.
  intros y [_ Hy]%list_elem_of_filter. by apply Hall.
Qed.

(** X20: the trips file holds, of the whole table, exactly the rows of
    the trips that have a [trip-finished] row satisfying the filter:
    rows of such a trip from other partitions are included, rows without
    trip id never are. *)
Theorem trips_file_rows result a :
  answer table filter_condition result →
  a ∈ result ↔
  a ∈ table ∧
  ∃ id c,
    tripid a = Some id ∧ c ∈ table ∧ tripid c = Some id ∧
    eventtype c = Some "trip-finished" ∧ filter_condition c = Some true.
Proof.
  intros [Hperm _]. rewrite Hperm. unfold selected.
  rewrite list_elem_of_filter, in_finished_trips_true. tauto.
Qed.

Lemma StronglySorted_weaken {A} (R R' : relation A) (Q : A → Prop) l :
  (∀ a b, Q a → Q b → R a b → R' a b) →
  Forall Q l → StronglySorted R l → StronglySorted R' l.
Proof.
  intros HR HQ Hsorted. induction Hsorted as [|x l Hl IH Hall]; [constructor|].
  apply Forall_cons in HQ as [Hx HQ]. constructor; [by apply IH|].
  rewrite Forall_forall in Hall, HQ. apply Forall_forall. auto.
Qed.

Lemma order_by_same_trip a b id :
  tripid a = Some id → tripid b = Some id → order_by a b →
  compare_nulls_last (eventdate a) (eventdate b) ≠ Gt.
Proof.
  intros Ha Hb. rewrite order_by_spec. unfold compare_rows.
  rewrite Ha, Hb. simpl. by rewrite string_compare_refl.
Qed.

(** X21: in the trips file the rows of one trip are in the order of
    their event dates, those without a date last. *)
Theorem trips_file_trip_in_date_order result id :
  answer table filter_condition result →
  StronglySorted
    (λ a b, compare_nulls_last (eventdate a) (eventdate b) ≠ Gt)
    (filter (λ a, tripid a = Some id) result).
Proof.
  intros [_ Hsorted].
  apply Sorted_StronglySorted in Hsorted; [|apply order_by_trans].
  apply (StronglySorted_weaken order_by _ (λ a, tripid a = Some id)).
  - intros a b. apply order_by_same_trip.
  - apply Forall_forall. by intros a [? _]%list_elem_of_filter.
  - by apply StronglySorted_filter.
Qed.

Lemma Forall2_filter_length {A B} (R : A → B → Prop) (P : A → Prop)
    (Q : B → Prop) `{∀ x, Decision (P x)} `{∀ y, Decision (Q y)} l k :
  (∀ x y, R x y → P x ↔ Q y) →
  Forall2 R l k → length (filter P l) = length (filter Q k).
Proof.
  intros HPQ. induction 1 as [|x y l k HR _ IH]; [done|].
  rewrite !filter_cons. specialize (HPQ _ _ HR).
  repeat case_decide; simpl; tauto || lia.
Qed.

(** X22: the [event_count] of a summary row with a trip id is the number
    of rows that the trips file of the same cycle holds for that trip. *)
Theorem event_count_is_rows_in_trips_file from_iso8601_timestamp rows result
    s id :
  FinishedTripsSummaryQuery from_iso8601_timestamp table filter_condition
    = Some rows →
  answer table filter_condition result →
  s ∈ rows →
  trip_id s = Some id →
  event_count s
    = Z.of_nat (length (filter (λ a, tripid a = Some id) result)).
Proof.
  intros Hrows%query_rows [Hperm _] Hs Hid.
  destruct (Forall2_elem_of_r _ _ _ _ Hrows Hs) as ([a ob] & Hab & Hsel).
  apply list_elem_of_filter in Hab as [Hwhere Hjoin].
  apply where_clause_true in Hwhere as [Htype Hfilter].
  apply left_join_elem in Hjoin as [Ha _].
  apply select_list_Some in Hsel as (t1 & t2 & _ & _ & ->).
  simpl in *. rewrite event_count_plain, Hid, Hperm. unfold selected.
  rewrite list_filter_filter. do 2 f_equal. apply list_filter_iff.
  intros c. rewrite in_finished_trips_true. split.
  - intros [Hc _]. split; [done|]. exists id, a. by split_and!.
  - intros [Hc _]. split; [done|by eexists].
Qed.

(** *** Rows of the summary per trip *)

Lemma filter_all {A} (P : A → Prop) `{∀ x, Decision (P x)} l :
  Forall P l → filter P l = l.
Proof.
  induction 1 as [|x l Hx _ IH]; [done|].
  by rewrite filter_cons_True, IH.
Qed.

Lemma filter_none {A} (P : A → Prop) `{∀ x, Decision (P x)} l :
  Forall (λ x, ¬ P x) l → filter P l = [].
Proof.
  induction 1 as [|x l Hx _ IH]; [done|].
  by rewrite filter_cons_False.
Qed.

Lemma left_join_cons {A B} (on : A → B → option bool) a l r :
  left_join on (a :: l) r = left_join on [a] r ++ left_join on l r.
Proof. unfold left_join. simpl. by rewrite app_nil_r. Qed.

Lemma left_join_one_first {A B} (on : A → B → option bool) a r :
  Forall (λ ab, ab.1 = a) (left_join on [a] r).
Proof.
  unfold left_join. simpl. rewrite app_nil_r.
  destruct (filter _ r) as [|b matches]; [by repeat constructor|].
  constructor; [done|].
  apply Forall_forall. by intros ab (b' & -> & _)%list_elem_of_fmap.
Qed.

Lemma left_join_one_length {A B} (on : A → B → option bool) a r :
  length (left_join on [a] r)
    = max 1 (length (filter (λ b, is_true (on a b) = true) r)).
Proof.
  unfold left_join. simpl. rewrite app_nil_r.
  destruct (filter _ r) as [|b matches]; [done|].
  cbn [length]. rewrite (length_fmap (λ b, (a, Some b))). lia.
Qed.

Lemma summary_join_count id l :
  length (filter (λ ab : EventRow * option EventRow, tripid ab.1 = Some id)
            (filter (λ ab, is_true (where_clause filter_condition ab) = true)
                    (left_join on_clause l table)))
    = length (filter (λ a, tripid a = Some id ∧
                           eventtype a = Some "trip-finished" ∧
                           filter_condition a = Some true) l)
      * max 1 (length (filter (λ b, tripid b = Some id ∧
                                    eventtype b = Some "engine-start")
                              table)).
Proof.
  induction l as [|a l IH]; [done|].
  rewrite left_join_cons, !filter_app, !length_app, IH, filter_cons.
  pose proof (left_join_one_first on_clause a table) as Hfirst.
  rewrite Forall_forall in Hfirst.
  case_decide as Ha.
  - destruct Ha as (Hid & Htype & Hfilter).
    rewrite (filter_all _ (left_join on_clause [a] table)).
    + rewrite (filter_all _ (left_join on_clause [a] table)).
      * rewrite left_join_one_length. cbn [length].
        replace (filter (λ b, is_true (on_clause a b) = true) table)
          with (filter (λ b, tripid b = Some id ∧
                             eventtype b = Some "engine-start") table); [lia|].
        apply list_filter_iff. intros b. rewrite on_clause_true, Hid.
        split; [intros [-> ?]; by split_and!|by intros (<- & _ & ?)].
      * apply Forall_forall. intros ab Hab. by rewrite (Hfirst _ Hab).
    + apply Forall_forall. intros ab Hab. apply where_clause_true.
      by rewrite (Hfirst _ Hab).
  - rewrite (filter_none (λ ab : EventRow * option EventRow,
                            tripid ab.1 = Some id)); [done|].
    apply Forall_forall. intros ab [Hwhere Hab]%list_elem_of_filter Hid.
    apply where_clause_true in Hwhere as [? ?].
    rewrite (Hfirst _ Hab) in *. by apply Ha.
Qed.

(** X23: the summary has, for a trip id, one row for every pair of a
    [trip-finished] row satisfying the filter and an [engine-start] row
    of that trip; a trip with two [engine-start] rows is summarised
    twice. Without [engine-start] row it has one row per
    [trip-finished] row. *)
Theorem summary_rows_per_trip from_iso8601_timestamp rows id :
  FinishedTripsSummaryQuery from_iso8601_timestamp table filter_condition
    = Some rows →
  length (filter (λ r, trip_id r = Some id) rows)
    = length (filter (λ a, tripid a = Some id ∧
                           eventtype a = Some "trip-finished" ∧
                           filter_condition a = Some true) table)
      * max 1 (length (filter (λ b, tripid b = Some id ∧
                                    eventtype b = Some "engine-start")
                              table)).
Proof.
  intros Hrows%query_rows. rewrite <- summary_join_count. symmetry.
  eapply Forall2_filter_length; [|exact Hrows].
  intros ab r (t1 & t2 & _ & _ & ->)%select_list_Some. done.
Qed.

End TripsFileQuery.

(** *** Runs *)

Section TripsFileQueryRun.
Import Athena ReducedTrips Scenarios.



Abbreviation minute_04 := (partition_filter "2023" "01" "02" "03" "04").

Lemma trips_file_rows_witness :
  sample_row "t1" "keep-alive" "2023-01-02T03:02:00.000Z" "02"
    ∈ ReducedTripsQuery sample_table minute_04.
Proof.
  apply (trips_file_rows sample_table minute_04 _ _
           (ReducedTripsQuery_answer sample_table minute_04)).
  split; [apply list_elem_of_further, list_elem_of_here|].
  exists "t1", (sample_row "t1" "trip-finished" "2023-01-02T03:04:01.500Z" "04").
  split_and!; try reflexivity.
  do 2 apply list_elem_of_further. apply list_elem_of_here.
Defined.

Lemma trips_file_trip_in_date_order_witness :
  StronglySorted
    (λ a b, compare_nulls_last (eventdate a) (eventdate b) ≠ Gt)
    (filter (λ a, tripid a = Some "t1")
            (ReducedTripsQuery sample_table minute_04)).
Proof.
  apply (trips_file_trip_in_date_order sample_table minute_04 _ "t1"
           (ReducedTripsQuery_answer sample_table minute_04)).
Defined.

Lemma event_count_is_rows_in_trips_file_witness :
  length (filter (λ a, tripid a = Some "t1")
                 (ReducedTripsQuery sample_table minute_04)) = 3.
Proof.
  set (s := {| vehicle_id := Some "v1"; trip_id := Some "t1";
               start_date := Some "2023-01-02T03:01:00.000Z";
               end_date := Some "2023-01-02T03:04:01.500Z";
               duration := Some 181%Z; event_count := 3 |}).
  set (s' := {| vehicle_id := Some "v1"; trip_id := Some "t2";
                start_date := None;
                end_date := Some "2023-01-02T03:04:01.500Z";
                duration := None; event_count := 1 |}).
  assert (FinishedTripsSummaryQuery sample_timestamp sample_table minute_04
            = Some [s; s']) as Hrows by (vm_compute; reflexivity).
  apply Nat2Z.inj.
  rewrite <- (event_count_is_rows_in_trips_file sample_table minute_04
                sample_timestamp [s; s'] _ s "t1" Hrows
                (ReducedTripsQuery_answer sample_table minute_04)
                (list_elem_of_here _ _) eq_refl).
  reflexivity.
Defined.

Lemma summary_rows_per_trip_witness :
  length (filter (λ r, trip_id r = Some "t1")
            (default [] (FinishedTripsSummaryQuery sample_timestamp
                           restarted_table minute_04))) = 2.
Proof.
  assert (FinishedTripsSummaryQuery sample_timestamp restarted_table minute_04
            = Some (default [] (FinishedTripsSummaryQuery sample_timestamp
                                  restarted_table minute_04))) as Hrows
    by (vm_compute; reflexivity).
  rewrite (summary_rows_per_trip restarted_table minute_04 sample_timestamp
             _ "t1" Hrows).
  reflexivity.
Defined.

End TripsFileQueryRun.

(** ** The vehicle simulator *)

Section SimulatorTurn.
Import Simulator.
Variable env : Env.
Variable props : Props.SimulatorProps.

Ltac sim_unfold :=
  unfold mbind, Sim_bind, mret, Sim_ret, get, modify, update, call,
    filter_trips.

Lemma map_array_cons {A B} (f : A → Sim B) x l s :
  map_array f (x :: l) s =
    ((map_array f l (f x s).1).1, (f x s).2 :: (map_array f l (f x s).1).2).
Proof.
  simpl. sim_unfold. destruct (f x s) as [s1 y]. simpl.
  by destruct (map_array f l s1).
Qed.

(** A property of the state that every call of the callback keeps is
    kept by the whole [map], and what each call returns relates to its
    argument as it does for a single call. *)
Lemma map_array_inv {A B} (f : A → Sim B) (I : State → Prop)
    (Q : A → B → Prop) l s :
  (∀ x s, x ∈ l → I s → I (f x s).1 ∧ Q x (f x s).2) →
  I s →
  I (map_array f l s).1 ∧ Forall2 Q l (map_array f l s).2.
Proof.
  revert s. induction l as [|x l IH]; intros s Hf HI; [by split|].
  rewrite map_array_cons. simpl.
  destruct (Hf x s) as [HI1 HQ]; [apply list_elem_of_here|done|].
  destruct (IH (f x s).1) as [HI2 HQs]; [|done|].
  { intros x' s' Hin. apply Hf. by apply list_elem_of_further. }
  split; [done|]. by constructor.
Qed.

Lemma map_array_length {A B} (f : A → Sim B) l s :
  length (map_array f l s).2 = length l.
Proof.
  destruct (map_array_inv f (λ _, True) (λ _ _, True) l s) as [_ H];
    [done..|].
  by apply Forall2_length in H.
Qed.

Lemma elem_of_passing p h l r :
  r ∈ passing p h l ↔ r ∈ l ∧ ∃ t, h !! r = Some t ∧ p t = true.
Proof.
  unfold passing. rewrite !list_elem_of_In, filter_In.
  destruct (h !! r) as [t|]; simpl.
  - split; [intros [? ?]; eauto|]. by intros [? (t' & [= <-] & ?)].
  - split; [by intros [? ?]|]. by intros [? (t' & ? & ?)].
Qed.

(** *** Chunks of records *)

Lemma recordChunks_from_step {A} (l : list A) i :
  recordChunks_from l i =
    if decide (i < length l)
    then CreateTripSummaries.slice i (min (length l) (i + 500)) l
           :: recordChunks_from l (i + 500)
    else [].
Proof.
  rewrite recordChunks_from_equation_1. destruct (decide (i < length l)).
  - by rewrite recordChunks_from_clause_1_equation_1.
  - by rewrite recordChunks_from_clause_1_equation_2.
Qed.

Lemma recordChunks_from_spec {A} (l : list A) (n i : nat) :
  length l - i ≤ n →
  concat (recordChunks_from l i) = drop i l ∧
  Forall (λ chunk, 0 < length chunk ≤ 500) (recordChunks_from l i) ∧
  length (recordChunks_from l i) = (length l - i + 499) / 500.
Proof.
  revert i. induction n as [|n IH]; intros i Hn;
    rewrite recordChunks_from_step; case_decide as Hlt; try lia.
  - split_and!; [by rewrite drop_ge by lia|done|].
    replace (length l - i) with 0 by lia. done.
  - destruct (IH (i + 500)) as (Hconcat & Hall & Hlen); [lia|].
    split_and!.
    + simpl. rewrite Hconcat. unfold CreateTripSummaries.slice.
      rewrite <- (take_drop (min (length l) (i + 500) - i) (drop i l)) at 2.
      f_equal. rewrite drop_drop.
      destruct (decide (i + 500 ≤ length l)).
      * f_equal. lia.
      * by rewrite !drop_ge by lia.
    + constructor; [|done]. unfold CreateTripSummaries.slice.
      rewrite length_take, length_drop. lia.
    + cbn [length]. rewrite Hlen. clear -Hlt.
      destruct (decide (i + 500 ≤ length l)).
      * replace (length l - i + 499)
          with (length l - (i + 500) + 499 + 1 * 500) by lia.
        rewrite Nat.div_add by lia. lia.
      * replace (length l - (i + 500) + 499) with 499 by lia.
        change (499 / 500) with 0.
        apply Nat.div_unique with (r := length l - i - 1); lia.
  - split_and!; [by rewrite drop_ge by lia|done|].
    replace (length l - i) with 0 by lia. done.
Qed.

(** *** What the callbacks do *)


Lemma same_fields_refl s : same_fields s s.
Proof. done. Qed.

Lemma same_fields_trans s1 s2 s3 :
  same_fields s1 s2 → same_fields s2 s3 → same_fields s1 s3.
Proof. unfold same_fields. intros (?&?&?&?&?) (?&?&?&?&?). split_and!; congruence. Qed.

Lemma event_run trip type s :
  event env trip type s =
    (set_calls (3 + calls s) s,
     {| EventId := uuid env (calls s);
        TripId := from_option Id EmptyString (heap s !! trip);
        DeviceId := from_option VehicleId EmptyString (heap s !! trip);
        EventTime := Date_now env (1 + calls s);
        EventDate := Date_toISOString env (2 + calls s);
        Type_ := type |}).
Proof. reflexivity. Qed.

Lemma finish_run trip s :
  finish env trip s =
    event env trip TRIP_FINISHED
      (set_heap (alter (with_Status FINISHED) trip (heap s)) s).
Proof. reflexivity. Qed.

Lemma keep_alive_run trip s :
  keep_alive env trip s =
    event env trip KEEP_ALIVE
      (set_heap (alter (λ t, with_TripDuration (TripDuration t + 1) t) trip
                       (heap s)) s).
Proof. reflexivity. Qed.

Lemma create_run index s :
  ∃ t,
    create env props index s =
      (set_calls (4 + calls s)
         (set_heap (<[fresh (dom (heap s)) := t]> (heap s)) s),
       fresh (dom (heap s))) ∧
    Id t = uuid env (calls s) ∧
    VehicleId t = uuid env (1 + calls s) ∧
    TripDuration t = 0%Z ∧
    Status t = ACTIVE ∧
    Ticker t = Math_round (QArith_base.Qmult (Math_random env (3 + calls s))
                                             (QArith_base.inject_Z 10)).
Proof. eexists. split; [reflexivity|]. by split_and!. Qed.

Lemma from_option_alter {B} (g : Trip → B) (f : Trip → Trip) d (x : nat)
    (h : gmap nat Trip) (r : nat) :
  (∀ t, g (f t) = g t) →
  from_option g d (alter f x h !! r) = from_option g d (h !! r).
Proof.
  intros Hg. destruct (decide (r = x)) as [->|Hne].
  - rewrite lookup_alter_eq. destruct (h !! x); simpl; [apply Hg|done].
  - by rewrite lookup_alter_ne.
Qed.


(** A [map] whose callback assigns to a field of its trip and returns
    a record for it. *)
Lemma alter_all (cb : nat → Sim EventRecord) f type l s :
  (∀ x s, cb x s = event env x type (set_heap (alter f x (heap s)) s)) →
  (∀ t, Id (f t) = Id t) →
  (∀ t, VehicleId (f t) = VehicleId t) →
  let s' := (map_array cb l s).1 in
  same_fields s s' ∧
  calls s' = 3 * length l + calls s ∧
  dom (heap s') = dom (heap s) ∧
  (∀ r, r ∉ l → heap s' !! r = heap s !! r) ∧
  (∀ r, r ∈ l → (∀ t, f (f t) = f t) ∨ NoDup l →
        heap s' !! r = f <$> heap s !! r) ∧
  (∀ (g : Trip → Trip), (∀ t, g (f t) = g t) →
        ∀ r, g <$> heap s' !! r = g <$> heap s !! r) ∧
  Forall2 (reports (heap s) type) l (map_array cb l s).2.
Proof.
  intros Hcb HId HVehicle. revert s.
  induction l as [|x l IH]; intros s; cbv zeta.
  { simpl. split_and!; try done. by intros r ?%elem_of_nil. }
  rewrite map_array_cons, Hcb, event_run. cbn [fst snd].
  set (s1 := set_calls _ _).
  destruct (IH s1) as (Hfields & Hcalls & Hdom & Hout & Hin & Hsame & Hrec).
  assert (heap s1 = alter f x (heap s)) as Hs1 by done.
  split_and!.
  - eapply same_fields_trans; [|exact Hfields]. done.
  - rewrite Hcalls. subst s1. simpl. lia.
  - rewrite Hdom, Hs1. apply dom_alter_L.
  - intros r Hr. apply not_elem_of_cons in Hr as [Hne Hr].
    by rewrite Hout, Hs1, lookup_alter_ne.
  - intros r Hr Hf. destruct (decide (r ∈ l)) as [Hrl|Hrl].
    + rewrite Hin, Hs1; [|done|].
      * destruct (decide (r = x)) as [->|Hne]; [|by rewrite lookup_alter_ne].
        rewrite lookup_alter_eq. destruct Hf as [Hidem|Hnodup].
        -- destruct (heap s !! x); simpl; [by rewrite Hidem|done].
        -- by apply NoDup_cons in Hnodup as [? _].
      * destruct Hf as [?|Hnodup]; [by left|right].
        by apply NoDup_cons in Hnodup as [_ ?].
    + apply elem_of_cons in Hr as [->|?]; [|done].
      by rewrite Hout, Hs1, lookup_alter_eq.
  - intros g Hg r. rewrite (Hsame g Hg), Hs1.
    destruct (decide (r = x)) as [->|Hne]; [|by rewrite lookup_alter_ne].
    rewrite lookup_alter_eq. destruct (heap s !! x); simpl; [|done].
    by rewrite Hg.
  - constructor.
    + split_and!; [done|simpl..]; by rewrite from_option_alter.
    + eapply Forall2_impl; [exact Hrec|].
      intros r e (? & ? & ?). rewrite Hs1, !from_option_alter in * by done.
      by split_and!.
Qed.

Lemma start_all l s :
  let s' := (map_array (start env) l s).1 in
  same_fields s s' ∧
  calls s' = 3 * length l + calls s ∧
  heap s' = heap s ∧
  Forall2 (reports (heap s) ENGINE_START) l (map_array (start env) l s).2.
Proof.
  revert s. induction l as [|x l IH]; intros s; cbv zeta; [by split_and!|].
  rewrite map_array_cons.
  change (start env x s) with (event env x ENGINE_START s). rewrite event_run.
  cbn [fst snd]. set (s1 := set_calls _ _).
  destruct (IH s1) as (Hfields & Hcalls & Hheap & Hrec).
  split_and!.
  - eapply same_fields_trans; [|exact Hfields]. done.
  - rewrite Hcalls. subst s1. simpl. lia.
  - by rewrite Hheap.
  - constructor; [done|]. exact Hrec.
Qed.


Lemma create_all l s :
  let s' := (map_array (create env props) l s).1 in
  let refs := (map_array (create env props) l s).2 in
  same_fields s s' ∧
  calls s' = 4 * length l + calls s ∧
  (∀ r, is_Some (heap s !! r) → heap s' !! r = heap s !! r) ∧
  NoDup refs ∧
  length refs = length l ∧
  (∀ r, r ∈ refs → created env (heap s) (calls s) (heap s') r) ∧
  (∀ r, is_Some (heap s' !! r) → is_Some (heap s !! r) ∨ r ∈ refs).
Proof.
  revert s. induction l as [|x l IH]; intros s; cbv zeta.
  { simpl. split_and!; try done; [constructor| |by left].
    by intros r ?%elem_of_nil. }
  rewrite map_array_cons.
  destruct (create_run x s) as (t & -> & HId & _ & Hdur & Hstatus & Hticker).
  cbn [fst snd]. set (s1 := set_calls _ _).
  destruct (IH s1) as (Hfields & Hcalls & Hkeep & Hnodup & Hlen & Hnew & Hdom).
  assert (heap s1 = <[fresh (dom (heap s)) := t]> (heap s)) as Hs1 by done.
  assert (heap s !! fresh (dom (heap s)) = None) as Hfresh.
  { apply not_elem_of_dom, is_fresh. }
  assert (∀ r, is_Some (heap s !! r) → heap s1 !! r = heap s !! r) as Hold.
  { intros r [t' Hr]. rewrite Hs1, lookup_insert_ne; [done|].
    intros <-. congruence. }
  split_and!.
  - eapply same_fields_trans; [|exact Hfields]. done.
  - rewrite Hcalls. subst s1. simpl. lia.
  - intros r Hr. rewrite Hkeep; rewrite Hold; done.
  - constructor; [|done]. intros Hin.
    destruct (Hnew _ Hin) as [Hnone _].
    by rewrite Hs1, lookup_insert_eq in Hnone.
  - simpl. by rewrite Hlen.
  - intros r [->|Hin]%elem_of_cons.
    + split; [done|]. exists t, (calls s), (3 + calls s).
      rewrite Hkeep by (rewrite Hs1, lookup_insert_eq; by eexists).
      by rewrite Hs1, lookup_insert_eq.
    + destruct (Hnew _ Hin) as (Hnone & t' & k & k' & ? & ? & ? & Hk & ? & ?).
      split.
      * destruct (heap s !! r) as [t''|] eqn:Hr; [|done].
        rewrite Hold in Hnone by by eexists. congruence.
      * exists t', k, k'. split_and!; try done. subst s1. simpl in Hk. lia.
  - intros r Hr. destruct (Hdom r Hr) as [Hr1|Hr1]; [|right; by constructor].
    rewrite Hs1 in Hr1. destruct (decide (r = fresh (dom (heap s)))) as [->|Hne].
    + right. apply list_elem_of_here.
    + left. by rewrite lookup_insert_ne in Hr1.
Qed.

(** *** The stages of a turn *)

Lemma turn_finish s :
  let s0 := set_simulationIterationCount (simulationIterationCount s + 1) s in
  let done := map_array (finish env) (tripsToFinish s) s0 in
  runSimulationIteration env props s =
    populate_and_report env props (tickerTrips s) done.2
      (set_finishedTrips
         (finishedTrips done.1 + Z.of_nat (length (tripsToFinish s)))
         (set_timers (timers done.1 ++ tripsToFinish s) done.1)).
Proof.
  intros s0 done. subst s0 done.
  unfold runSimulationIteration. sim_unfold. simpl.
  fold (tripsToFinish s). fold (tickerTrips s).
  by destruct (map_array (finish env) _ _).
Qed.

Lemma populate_range_error tt finished s :
  let kept := passing (λ t, negb (bool_decide (Status t = FINISHED)))
                      (heap s) (trips s) in
  (4294967295 < newTripCount props (set_trips kept s))%Z →
  populate_and_report env props tt finished s = (set_trips kept s, RangeError).
Proof.
  intros kept Hrange. unfold populate_and_report. sim_unfold. simpl.
  fold kept. by rewrite decide_True.
Qed.

Lemma populate_run tt finished s :
  let kept := passing (λ t, negb (bool_decide (Status t = FINISHED)))
                      (heap s) (trips s) in
  let s3 := set_trips kept s in
  let count := newTripCount props s3 in
  let made := map_array (create env props) (seq 0 (Z.to_nat count)) s3 in
  let s4 := if decide (0 < count)%Z
            then set_trips (trips made.1 ++ made.2) made.1 else s3 in
  let started := map_array (start env)
                   (passing (λ t, Z.eqb (TripDuration t) 0) (heap s4) tt) s4 in
  let alive := map_array (keep_alive env)
                 (passing (λ t, bool_decide (Status t = ACTIVE))
                          (heap started.1) tt) started.1 in
  ¬ (4294967295 < count)%Z →
  populate_and_report env props tt finished s =
    (set_batches
       (batches alive.1
          ++ recordChunks_from (finished ++ started.2 ++ alive.2) 0) alive.1,
     Suspended tt).
Proof.
  intros kept s3 count made s4 started alive Hrange.
  subst alive started s4 made count s3.
  unfold populate_and_report. sim_unfold. simpl. fold kept.
  rewrite decide_False by done.
  case_decide as Hpos; simpl.
  - destruct (map_array (create env props) _ _) as [s' refs]. simpl.
    destruct (map_array (start env) _ _) as [s5 started]. simpl.
    by destruct (map_array (keep_alive env) _ _) as [s6 alive].
  - destruct (map_array (start env) _ _) as [s5 started]. simpl.
    by destruct (map_array (keep_alive env) _ _) as [s6 alive].
Qed.

(** One turn, stage by stage: [h1] is the heap once the trips that
    reached their target are finished, [h2] the heap once the new trips
    are made. *)
Lemma turn_spec s :
  let s' := (runSimulationIteration env props s).1 in
  let out := (runSimulationIteration env props s).2 in
  ∃ h1 : gmap nat Trip,
    (∀ r, h1 !! r = if decide (r ∈ tripsToFinish s)
                    then with_Status FINISHED <$> heap s !! r
                    else heap s !! r) ∧
    finishedTrips s'
      = (finishedTrips s + Z.of_nat (length (tripsToFinish s)))%Z ∧
    timers s' = timers s ++ tripsToFinish s ∧
    simulationIterationCount s' = (simulationIterationCount s + 1)%Z ∧
    calls s ≤ calls s' ∧
    let kept := passing (λ t, negb (bool_decide (Status t = FINISHED)))
                        h1 (trips s) in
    let count := newTripCount props
                   (set_trips kept (set_finishedTrips (finishedTrips s') s)) in
    (out = RangeError ∧ (4294967295 < count)%Z ∧
     trips s' = kept ∧ heap s' = h1 ∧ batches s' = batches s)
    ∨
    (out = Suspended (tickerTrips s) ∧ (count ≤ 4294967295)%Z ∧
     ∃ refs h2 finished started alive,
       trips s' = kept ++ refs ∧
       length refs = Z.to_nat count ∧
       NoDup refs ∧
       (∀ r, r ∈ refs → created env h1 (calls s) h2 r) ∧
       (∀ r, is_Some (h1 !! r) → h2 !! r = h1 !! r) ∧
       (∀ r, is_Some (h2 !! r) → is_Some (h1 !! r) ∨ r ∈ refs) ∧
       let newTrips := passing (λ t, Z.eqb (TripDuration t) 0) h2
                               (tickerTrips s) in
       let activeTrips := passing (λ t, bool_decide (Status t = ACTIVE)) h2
                                  (tickerTrips s) in
       (∀ r, with_TripDuration 0 <$> heap s' !! r
             = with_TripDuration 0 <$> h2 !! r) ∧
       (∀ r, r ∉ activeTrips → heap s' !! r = h2 !! r) ∧
       (∀ r, r ∈ activeTrips → NoDup activeTrips →
             heap s' !! r
               = (λ t, with_TripDuration (TripDuration t + 1) t) <$> h2 !! r) ∧
       Forall2 (reports (heap s) TRIP_FINISHED) (tripsToFinish s) finished ∧
       Forall2 (reports h2 ENGINE_START) newTrips started ∧
       Forall2 (reports h2 KEEP_ALIVE) activeTrips alive ∧
       batches s'
         = batches s ++ recordChunks_from (finished ++ started ++ alive) 0).
Proof.
  intros s' out. subst s' out. rewrite turn_finish.
  set (s0 := set_simulationIterationCount _ s).
  destruct (alter_all (finish env) (with_Status FINISHED) TRIP_FINISHED
              (tripsToFinish s) s0)
    as (Hf1 & Hc1 & _ & Hout1 & Hin1 & _ & Hrec1);
    [done..|].
  set (done := map_array (finish env) (tripsToFinish s) s0) in *.
  destruct Hf1 as (Htrips1 & Hfin1 & Hcount1 & Hbatches1 & Htimers1).
  simpl in Htrips1, Hfin1, Hcount1, Hbatches1, Htimers1, Hc1, Hout1, Hin1, Hrec1.
  set (s2 := set_finishedTrips _ _).
  exists (heap done.1).
  assert (heap s2 = heap done.1) as Hheap2 by done.
  assert (trips s2 = trips s) as Htrips2 by done.
  set (kept := passing (λ t, negb (bool_decide (Status t = FINISHED)))
                       (heap done.1) (trips s)).
  assert (passing (λ t, negb (bool_decide (Status t = FINISHED)))
                  (heap s2) (trips s2) = kept) as Hkept
    by by rewrite Hheap2, Htrips2.
  assert (newTripCount props (set_trips kept s2)
          = newTripCount props
              (set_trips kept
                 (set_finishedTrips
                    (finishedTrips s + Z.of_nat (length (tripsToFinish s))) s)))
    as Hcount.
  { unfold newTripCount. simpl. by rewrite Hfin1. }
  destruct (decide (4294967295 < newTripCount props (set_trips kept s2))%Z)
    as [Hrange|Hrange].
  - rewrite populate_range_error by by rewrite Hkept.
    rewrite Hkept. simpl. rewrite Hfin1, Htimers1, Hcount1, Hbatches1.
    split_and!; try done.
    { intros r. case_decide; [apply Hin1; auto|by apply Hout1]. }
    { lia. }
    left. by rewrite <- Hcount.
  - rewrite populate_run by by rewrite Hkept.
    rewrite Hkept. set (s3 := set_trips kept s2) in *.
    set (count := newTripCount props s3) in *.
    set (made := map_array (create env props) (seq 0 (Z.to_nat count)) s3).
    set (s4 := if decide (0 < count)%Z
               then set_trips (trips made.1 ++ made.2) made.1 else s3).
    (* the trips made *)
    assert (∃ refs,
              trips s4 = kept ++ refs ∧ length refs = Z.to_nat count ∧
              NoDup refs ∧
              (∀ r, r ∈ refs → created env (heap done.1) (calls s) (heap s4) r) ∧
              (∀ r, is_Some (heap done.1 !! r) →
                    heap s4 !! r = heap done.1 !! r) ∧
              (∀ r, is_Some (heap s4 !! r) →
                    is_Some (heap done.1 !! r) ∨ r ∈ refs) ∧
              finishedTrips s4 = finishedTrips s2 ∧
              simulationIterationCount s4 = simulationIterationCount s2 ∧
              batches s4 = batches s2 ∧ timers s4 = timers s2 ∧
              calls s ≤ calls s4) as (refs & Htrips4 & Hlen & Hnodup & Hnew
                                       & Hold & Hdom4 & Hfin4 & Hcount4
                                       & Hbatches4 & Htimers4 & Hcalls4).
    { subst s4. case_decide as Hpos.
      - destruct (create_all (seq 0 (Z.to_nat count)) s3)
          as ((Ht & Hf & Hc & Hb & Hti) & Hcalls & Hkeep & Hnd & Hl & Hcr
              & Hdm).
        fold made in Ht, Hf, Hc, Hb, Hti, Hcalls, Hkeep, Hnd, Hl, Hcr, Hdm.
        exists made.2. simpl. rewrite Ht. rewrite length_seq in Hl.
        split_and!; try done.
        + intros r Hr.
          destruct (Hcr r Hr) as (? & t & k & k' & ? & ? & ? & Hk & ? & ?).
          split; [done|]. exists t, k, k'. split_and!; try done.
          simpl in Hk. lia.
        + simpl in Hcalls. lia.
      - exists []. rewrite app_nil_r. simpl.
        split_and!; try done; [lia|constructor| |by left|lia].
        by intros r ?%elem_of_nil. }
    destruct (start_all (passing (λ t, Z.eqb (TripDuration t) 0) (heap s4)
                                 (tickerTrips s)) s4)
      as ((Ht5 & Hf5 & Hc5 & Hb5 & Hti5) & Hcalls5 & Hheap5 & Hrec5).
    set (started := map_array (start env) _ s4) in *.
    rewrite Hheap5.
    destruct (alter_all (keep_alive env)
                (λ t, with_TripDuration (TripDuration t + 1) t) KEEP_ALIVE
                (passing (λ t, bool_decide (Status t = ACTIVE)) (heap s4)
                         (tickerTrips s)) started.1)
      as ((Ht6 & Hf6 & Hc6 & Hb6 & Hti6) & Hcalls6 & _ & Hout6 & Hin6 & Hsame6
          & Hrec6);
      [done..|].
    set (alive := map_array (keep_alive env) _ started.1) in *.
    simpl. rewrite Hf6, Hf5, Hfin4, Hti6, Hti5, Htimers4, Hc6, Hc5, Hcount4.
    simpl. rewrite Hfin1, Htimers1, Hcount1.
    split_and!; try done.
    { intros r. case_decide; [apply Hin1; auto|by apply Hout1]. }
    { lia. }
    right. split_and!; [done|subst count; rewrite <- Hcount; lia|].
    exists refs, (heap s4), done.2, started.2, alive.2.
    rewrite Ht6, Ht5, Hb6, Hb5, Hbatches4. simpl. rewrite Hbatches1.
    rewrite Hheap5 in Hout6, Hin6, Hrec6, Hsame6.
    split_and!; try done.
    + subst count. by rewrite <- Hcount.
    + intros r. by apply Hsame6.
    + intros r Hr Hnd. apply Hin6; auto.
Qed.

(** *** Tickers *)

Lemma Math_round_draw q :
  QArith_base.Qle (QArith_base.inject_Z 0) q →
  QArith_base.Qlt q (QArith_base.inject_Z 1) →
  (0 ≤ Math_round (QArith_base.Qmult q (QArith_base.inject_Z 10)) ≤ 10)%Z ∧
  (QArith_base.Qle (QArith_base.Qmake 19 20) q →
   Math_round (QArith_base.Qmult q (QArith_base.inject_Z 10)) = 10%Z).
Proof.
  intros H0 H1. unfold Math_round.
  set (x := QArith_base.Qplus _ _).
  unfold QArith_base.inject_Z in H0, H1.
  assert (QArith_base.Qle (QArith_base.inject_Z 0) x) as Hlo
    by (subst x; unfold QArith_base.inject_Z; Lqa.lra).
  assert (QArith_base.Qle x (QArith_base.Qmake 21 2)) as Hhi
    by (subst x; unfold QArith_base.inject_Z; Lqa.lra).
  apply Qround.Qfloor_resp_le in Hlo, Hhi.
  rewrite Qround.Qfloor_Z in Hlo.
  change (Qround.Qfloor (QArith_base.Qmake 21 2)) with 10%Z in Hhi.
  split; [lia|]. intros H19.
  assert (QArith_base.Qle (QArith_base.inject_Z 10) x) as Hten
    by (subst x; unfold QArith_base.inject_Z; Lqa.lra).
  apply Qround.Qfloor_resp_le in Hten. rewrite Qround.Qfloor_Z in Hten. lia.
Qed.

Lemma ticker_in_range c : (-1 ≤ c)%Z → (0 ≤ Z.rem (c + 1) 10 ≤ 9)%Z.
Proof. intros Hc. pose proof (Z.rem_bound_pos (c + 1) 10). lia. Qed.

(** X24: the ticker of a turn is one of 0, ..., 9, so the trips it
    selects have such a ticker; the ticker given to a new trip is one of
    0, ..., 10, and it is 10 whenever the number drawn for it is at
    least 0.95. *)
Theorem ticker_of_new_trip_can_be_ten :
  (∀ s r t,
      (-1 ≤ simulationIterationCount s)%Z →
      r ∈ tickerTrips s → heap s !! r = Some t →
      (0 ≤ Ticker t ≤ 9)%Z) ∧
  (∀ index s,
      QArith_base.Qle (QArith_base.inject_Z 0)
                      (Math_random env (3 + calls s)) →
      QArith_base.Qlt (Math_random env (3 + calls s))
                      (QArith_base.inject_Z 1) →
      ∃ t,
        heap (create env props index s).1 !! (create env props index s).2
          = Some t ∧
        (0 ≤ Ticker t ≤ 10)%Z ∧
        (QArith_base.Qle (QArith_base.Qmake 19 20)
                         (Math_random env (3 + calls s)) →
         Ticker t = 10%Z)).
Proof.
  split.
  - intros s r t Hc [_ (t' & Ht' & Htick)]%elem_of_passing Ht.
    rewrite Ht in Ht'. injection Ht' as <-.
    apply Z.eqb_eq in Htick. rewrite Htick. by apply ticker_in_range.
  - intros index s H0 H1.
    destruct (create_run index s) as (t & -> & _ & _ & _ & _ & Hticker).
    exists t. cbn [fst snd heap set_calls set_heap].
    rewrite lookup_insert_eq, Hticker.
    destruct (Math_round_draw _ H0 H1) as [? ?].
    split; [done|]. split; assumption.
Qed.

(** *** Trips that never tick *)

Lemma reports_trip h type l records e :
  Forall2 (reports h type) l records →
  e ∈ records →
  ∃ r, r ∈ l ∧ reports h type r e.
Proof.
  intros Hrec He. destruct (Forall2_elem_of_r _ _ _ _ Hrec He) as (r & ? & ?).
  by exists r.
Qed.

Lemma stalled_step s r t :
  stalled s r t →
  (-1 ≤ simulationIterationCount s)%Z →
  only_trip (heap s) r t →
  (∀ k, calls s ≤ k → uuid env k ≠ Id t) →
  let s' := (runSimulationIteration env props s).1 in
  stalled s' r t ∧
  (-1 ≤ simulationIterationCount s')%Z ∧
  only_trip (heap s') r t ∧
  calls s ≤ calls s' ∧
  ∃ sent set,
    batches s' = batches s ++ sent ∧
    (∀ batch e, batch ∈ sent → e ∈ batch → TripId e ≠ Id t) ∧
    timers s' = timers s ++ set ∧
    r ∉ set.
Proof.
  intros (Hr & Hin & Hact & Htick & Hge) Hc Honly Huuid s'. subst s'.
  destruct (turn_spec s)
    as (h1 & Hh1 & Hfin & Htimers & Hcount & Hcalls & Hout).
  assert (r ∉ tripsToFinish s) as Hnofinish.
  { intros [_ (t' & Ht' & Hge')]%elem_of_passing. congruence. }
  assert (r ∉ tickerTrips s) as Hnotick.
  { intros [_ (t' & Ht' & Heq)]%elem_of_passing.
    rewrite Hr in Ht'. injection Ht' as <-. apply Z.eqb_eq in Heq.
    apply Htick. rewrite Heq. by apply ticker_in_range. }
  assert (h1 !! r = Some t) as Hr1 by by rewrite Hh1, decide_False.
  assert (only_trip h1 r t) as Honly1.
  { intros r' t' Hr' HId. rewrite Hh1 in Hr'. case_decide.
    - destruct (heap s !! r') as [t0|] eqn:Ht0; [|done].
      injection Hr' as <-. by apply (Honly r' t0).
    - by apply (Honly r' t'). }
  assert (r ∈ passing (λ t, negb (bool_decide (Status t = FINISHED))) h1
                      (trips s)) as Hkept.
  { apply elem_of_passing. split; [done|]. exists t. split; [done|].
    by rewrite Hact. }
  split_and!; [| lia | | lia |].
  - destruct Hout as [(_ & _ & Htrips & Hheap & _)
                     |(_ & _ & refs & h2 & finished & started & alive & Htrips
                       & _ & _ & _ & Hold & _ & _ & Hrest & _)].
    + unfold stalled. split_and!; try done;
        [by rewrite Hheap|by rewrite Htrips].
    + unfold stalled. split_and!; try done.
      * rewrite Hrest; [by rewrite Hold by by eexists|].
        by intros [? _]%elem_of_passing.
      * rewrite Htrips, elem_of_app. by left.
  - destruct Hout as [(_ & _ & _ & Hheap & _)
                     |(_ & _ & refs & h2 & finished & started & alive & _
                       & _ & _ & Hnew & Hold & Hdom & Hsame & _)].
    + by rewrite Hheap.
    + intros r' t' Hr' HId.
      pose proof (Hsame r') as Hs. rewrite Hr' in Hs. simpl in Hs.
      destruct (h2 !! r') as [t2|] eqn:Hr2; [|done].
      apply (f_equal (fmap Id)) in Hs. simpl in Hs. injection Hs as Hs.
      destruct (Hdom r') as [Hsome|Hcreated]; [by eexists|..].
      * rewrite Hold in Hr2 by done. apply (Honly1 r' t2); congruence.
      * destruct (Hnew _ Hcreated) as (_ & t3 & k & _ & Hr3 & _ & _ & Hk & HId3
                                        & _).
        rewrite Hr2 in Hr3. injection Hr3 as <-.
        destruct (Huuid k Hk). congruence.
  - destruct Hout as [(_ & _ & _ & _ & Hbatches)
                     |(_ & _ & refs & h2 & finished & started & alive & _
                       & _ & _ & Hnew & Hold & Hdom & _ & _ & _ & Hfinished
                       & Hstarted & Halive & Hbatches)].
    + exists [], (tripsToFinish s). rewrite app_nil_r.
      split_and!; try done. by intros batch e ?%elem_of_nil.
    + exists (recordChunks_from (finished ++ started ++ alive) 0),
             (tripsToFinish s).
      split_and!; try done. intros batch e Hbatch He HId.
      assert (only_trip h2 r t) as Honly2.
      { intros r' t2 Hr2 HId2.
        destruct (Hdom r') as [Hsome|Hcreated]; [by eexists|..].
        - rewrite Hold in Hr2 by done. by apply (Honly1 r' t2).
        - destruct (Hnew _ Hcreated)
            as (_ & t3 & k & _ & Hr3 & _ & _ & Hk & HId3 & _).
          rewrite Hr2 in Hr3. injection Hr3 as <-.
          destruct (Huuid k Hk). congruence. }
      assert (e ∈ finished ++ started ++ alive) as Hrec.
      { destruct (recordChunks_from_spec (finished ++ started ++ alive)
                    (length (finished ++ started ++ alive)) 0) as [Hc0 _];
          [lia|].
        rewrite drop_0 in Hc0. rewrite <- Hc0.
        by apply (elem_of_concat_2 _ batch). }
      rewrite !elem_of_app in Hrec.
      destruct Hrec as [Hrec|[Hrec|Hrec]].
      * destruct (reports_trip _ _ _ _ _ Hfinished Hrec)
          as (r' & Hr' & _ & Htrip & _).
        pose proof Hr' as [_ (t' & Ht' & _)]%elem_of_passing.
        rewrite Ht' in Htrip. simpl in Htrip.
        assert (r' = r) as -> by (apply (Honly r' t'); congruence). done.
      * destruct (reports_trip _ _ _ _ _ Hstarted Hrec)
          as (r' & Hr' & _ & Htrip & _).
        apply elem_of_passing in Hr' as [Hr' (t' & Ht' & _)].
        rewrite Ht' in Htrip. simpl in Htrip.
        assert (r' = r) as -> by (apply (Honly2 r' t'); congruence). done.
      * destruct (reports_trip _ _ _ _ _ Halive Hrec)
          as (r' & Hr' & _ & Htrip & _).
        apply elem_of_passing in Hr' as [Hr' (t' & Ht' & _)].
        rewrite Ht' in Htrip. simpl in Htrip.
        assert (r' = r) as -> by (apply (Honly2 r' t'); congruence). done.
Qed.

(** X25: a trip whose ticker is not one of 0, ..., 9 (a new trip can
    get the ticker 10) and that has not reached its target duration
    never moves: through any number of turns it stays among the
    simulator's trips as it is, no record with its [Id] is sent and no
    publication is scheduled for it. *)
Theorem stalled_trip_never_moves n s r t :
  stalled s r t →
  (-1 ≤ simulationIterationCount s)%Z →
  only_trip (heap s) r t →
  (∀ k, calls s ≤ k → uuid env k ≠ Id t) →
  let s' := turns env props n s in
  stalled s' r t ∧
  ∃ sent set,
    batches s' = batches s ++ sent ∧
    (∀ batch e, batch ∈ sent → e ∈ batch → TripId e ≠ Id t) ∧
    timers s' = timers s ++ set ∧
    r ∉ set.
Proof.
  revert s. induction n as [|n IH]; intros s Hst Hc Honly Huuid; simpl.
  { split; [done|]. exists [], []. rewrite !app_nil_r.
    split_and!; try done; [by intros ? ? ?%elem_of_nil|by intros ?%elem_of_nil]. }
  destruct (stalled_step s r t Hst Hc Honly Huuid)
    as (Hst1 & Hc1 & Honly1 & Hcalls1 & sent1 & set1 & Hb1 & Hsent1 & Ht1
        & Hset1).
  destruct (IH _ Hst1 Hc1 Honly1)
    as (Hst2 & sent2 & set2 & Hb2 & Hsent2 & Ht2 & Hset2).
  { intros k Hk. apply Huuid. lia. }
  split; [done|]. exists (sent1 ++ sent2), (set1 ++ set2).
  rewrite Hb2, Hb1, Ht2, Ht1, <- !app_assoc. split_and!; try done.
  - intros batch e [?|?]%elem_of_app; eauto.
  - rewrite elem_of_app. tauto.
Qed.

(** *** The fleet *)

(** X26: after a turn, however it ends and whatever the fields were,
    every trip of the simulator refers to an object that is under way:
    finished trips are dropped, new trips are made under way, and the
    reports do not change a status. *)
Theorem trips_underway_after_turn s :
  let s' := (runSimulationIteration env props s).1 in
  Forall (underway s') (trips s').
Proof.
  intros s'. subst s'. apply Forall_forall. intros r Hr.
  destruct (turn_spec s) as (h1 & Hh1 & _ & _ & _ & _ & Hout).
  assert (∀ r, r ∈ passing (λ t, negb (bool_decide (Status t = FINISHED)))
                           h1 (trips s) →
               ∃ t, h1 !! r = Some t ∧ Status t = ACTIVE) as Hkept.
  { intros r' [_ (t & Ht & Hstatus)]%elem_of_passing. exists t.
    split; [done|]. destruct (Status t); [done|].
    by rewrite bool_decide_true in Hstatus. }
  destruct Hout as [(_ & _ & Htrips & Hheap & _)
                   |(_ & _ & refs & h2 & finished & started & alive & Htrips
                     & _ & _ & Hnew & Hold & _ & Hsame & _)].
  - unfold underway. rewrite Hheap. apply Hkept. by rewrite <- Htrips.
  - assert (∃ t, h2 !! r = Some t ∧ Status t = ACTIVE) as (t & Ht & Hstatus).
    { rewrite Htrips in Hr. apply elem_of_app in Hr as [Hr|Hr].
      - destruct (Hkept r Hr) as (t & Ht & Hstatus). exists t.
        by rewrite Hold by by eexists.
      - destruct (Hnew r Hr) as (_ & t & _ & _ & Ht & Hstatus & _).
        by exists t. }
    pose proof (Hsame r) as Hs. rewrite Ht in Hs.
    destruct (heap _ !! r) as [t'|] eqn:Ht'; [|done].
    exists t'. split; [done|]. simpl in Hs.
    apply (f_equal (fmap Status)) in Hs. simpl in Hs. congruence.
Qed.

Lemma kept_length h l :
  length (passing (λ t, negb (bool_decide (Status t = FINISHED))) h l)
    ≤ length l.
Proof. unfold passing. induction l as [|r l IH]; simpl; [done|]. case_match; simpl; lia. Qed.

(** X27: without a target trip count, a turn that does not raise fills
    the fleet up: when the simulator had at most [TargetVehicles]
    trips, it has exactly [TargetVehicles] afterwards; every trip that
    finished in the turn is replaced in that same turn. *)
Theorem fleet_refilled s :
  has_TargetTripCount props = None →
  (Z.of_nat (length (trips s)) ≤ Props.TargetVehicles props)%Z →
  let s' := (runSimulationIteration env props s).1 in
  (runSimulationIteration env props s).2 ≠ RangeError →
  Z.of_nat (length (trips s')) = Props.TargetVehicles props.
Proof.
  intros Hnone Hfleet s' Hok. subst s'.
  destruct (turn_spec s) as (h1 & _ & _ & _ & _ & _ & Hout).
  destruct Hout as [(Herr & _)
                   |(_ & _ & refs & h2 & finished & started & alive & Htrips
                     & Hlen & _)]; [done|].
  rewrite Htrips, length_app, Hlen.
  unfold newTripCount. rewrite Hnone. cbn [trips set_trips].
  pose proof (kept_length h1 (trips s)). lia.
Qed.

Lemma passing_split p h l :
  length (passing p h l) + length (passing (λ t, negb (p t)) h l)
    = length (passing (λ _, true) h l).
Proof.
  unfold passing. induction l as [|r l IH]; simpl; [done|].
  destruct (h !! r) as [t|]; simpl; [|done].
  destruct (p t); simpl; lia.
Qed.

Lemma passing_all p h l :
  Forall (λ r, ∃ t, h !! r = Some t ∧ p t = true) l → passing p h l = l.
Proof.
  unfold passing. induction 1 as [|r l (t & Ht & Hp) _ IH]; simpl; [done|].
  by rewrite Ht, IH; simpl; rewrite Hp.
Qed.

(** The trips that stay are those that were not finished in the turn. *)
Lemma kept_and_finished s h1 :
  Forall (underway s) (trips s) →
  (∀ r, h1 !! r = if decide (r ∈ tripsToFinish s)
                  then with_Status FINISHED <$> heap s !! r
                  else heap s !! r) →
  length (passing (λ t, negb (bool_decide (Status t = FINISHED))) h1 (trips s))
    + length (tripsToFinish s) = length (trips s).
Proof.
  intros Hall Hh1. unfold tripsToFinish.
  rewrite (passing_all (λ t, bool_decide (Status t = ACTIVE))); cycle 1.
  { eapply Forall_impl; [exact Hall|]. intros r (t & Ht & Hstatus).
    exists t. by rewrite Hstatus. }
  assert (passing (λ t, negb (bool_decide (Status t = FINISHED))) h1 (trips s)
          = passing (λ t, negb (number_ge (TripDuration t)
                                          (TargetTripDuration t)))
                    (heap s) (trips s)) as ->.
  { unfold passing. apply List.filter_ext_in.
    intros r Hr%list_elem_of_In. rewrite Forall_forall in Hall.
    destruct (Hall r Hr) as (t & Ht & Hstatus).
    rewrite Hh1, Ht. simpl.
    destruct (number_ge _ _) eqn:Hge.
    - rewrite decide_True; [done|].
      apply elem_of_passing. split.
      + apply elem_of_passing. split; [done|]. exists t. by rewrite Hstatus.
      + by exists t.
    - rewrite decide_False; simpl; [by rewrite Hstatus|].
      intros [_ (t' & Ht' & Hge')]%elem_of_passing. congruence. }
  rewrite Nat.add_comm, passing_split.
  rewrite passing_all; [done|].
  eapply Forall_impl; [exact Hall|]. intros r (t & Ht & _). by exists t.
Qed.

(** X28: with a target trip count, the number of trips made so far
    (those under way and those finished) never decreases in a turn and
    never passes the target, unless it was beyond it before. *)
Theorem trip_count_capped s target :
  has_TargetTripCount props = Some target →
  Forall (underway s) (trips s) →
  let s' := (runSimulationIteration env props s).1 in
  let made := (Z.of_nat (length (trips s)) + finishedTrips s)%Z in
  let made' := (Z.of_nat (length (trips s')) + finishedTrips s')%Z in
  (made ≤ made' ≤ Z.max made target)%Z.
Proof.
  intros Htarget Hall s' made made'. subst s' made made'.
  destruct (turn_spec s) as (h1 & Hh1 & Hfin & _ & _ & _ & Hout).
  pose proof (kept_and_finished s h1 Hall Hh1) as Hkept.
  destruct Hout as [(_ & _ & Htrips & _)
                   |(_ & _ & refs & h2 & finished & started & alive & Htrips
                     & Hlen & _)].
  - rewrite Htrips, Hfin. lia.
  - rewrite Htrips, length_app, Hlen, Hfin.
    unfold newTripCount. rewrite Htarget.
    cbn [trips set_trips finishedTrips set_finishedTrips]. lia.
Qed.

(** *** Records of a trip *)

Lemma NoDup_passing p h l : NoDup l → NoDup (passing p h l).
Proof.
  induction 1 as [|r l Hr _ IH]; [constructor|].
  unfold passing in *. simpl. case_match; [|done].
  constructor; [|done].
  intros Hin. apply Hr. fold (passing p h l) in Hin.
  by apply elem_of_passing in Hin as [? _].
Qed.


Lemma records_of_app type id l k :
  records_of type id (l ++ k) = records_of type id l ++ records_of type id k.
Proof. apply filter_app. Qed.

Lemma reports_count h type type' p l0 records id r0 :
  Forall2 (reports h type) (passing p h l0) records →
  (∀ r t, h !! r = Some t → Id t = id → r = r0) →
  NoDup l0 →
  length (records_of type' id records)
    ≤ (if decide (r0 ∈ passing p h l0) then 1 else 0) ∧
  (type ≠ type' → records_of type' id records = []).
Proof.
  intros Hrec Honly Hnodup.
  assert (NoDup (passing p h l0)) as Hnd by by apply NoDup_passing.
  assert (∀ r, r ∈ passing p h l0 → is_Some (h !! r)) as Hsome.
  { intros r [_ (t & -> & _)]%elem_of_passing. by eexists. }
  revert Hrec Hnd Hsome. generalize (passing p h l0). clear Hnodup.
  intros l Hrec. induction Hrec as [|r e l records Hrep _ IH];
    intros Hnd Hsome; [by split|].
  destruct Hrep as (Htype & Hid & _).
  apply NoDup_cons in Hnd as [Hr Hnd].
  destruct IH as [IH1 IH2]; [done| |].
  { intros r' Hr'. apply Hsome. by right. }
  unfold records_of in *. rewrite filter_cons.
  destruct (decide (Type_ e = type' ∧ TripId e = id)) as [[Hty He]|He].
  - split; [|intros ?; congruence].
    destruct (Hsome r) as [t Ht]; [by left|].
    rewrite Ht in Hid. simpl in Hid.
    assert (r = r0) as -> by (apply (Honly r t); congruence).
    rewrite decide_True by by left. simpl.
    rewrite decide_False in IH1 by done. lia.
  - split; [|done]. etrans; [exact IH1|].
    destruct (decide (r0 ∈ l)) as [Hin|Hin]; [|lia].
    rewrite decide_True by by right. lia.
Qed.

(** One turn, for the records and the whereabouts of one trip. *)
Lemma once_step s r t :
  heap s !! r = Some t →
  (0 ≤ TripDuration t)%Z →
  NoDup (trips s) →
  only_trip (heap s) r t →
  (∀ k, calls s ≤ k → uuid env k ≠ Id t) →
  let s' := (runSimulationIteration env props s).1 in
  ∃ t' sent,
    heap s' !! r = Some t' ∧ Id t' = Id t ∧ (0 ≤ TripDuration t')%Z ∧
    NoDup (trips s') ∧ only_trip (heap s') r t' ∧ calls s ≤ calls s' ∧
    batches s' = batches s ++ sent ∧
    length (records_of ENGINE_START (Id t) (concat sent))
      + (if decide (r ∈ trips s' ∧ TripDuration t' = 0%Z) then 1 else 0)
      ≤ (if decide (r ∈ trips s ∧ TripDuration t = 0%Z) then 1 else 0) ∧
    length (records_of TRIP_FINISHED (Id t) (concat sent))
      + (if decide (r ∈ trips s') then 1 else 0)
      ≤ (if decide (r ∈ trips s) then 1 else 0).
Proof.
  intros Hr Hdur Hnodup Honly Huuid s'. subst s'.
  destruct (turn_spec s)
    as (h1 & Hh1 & Hfin & Htimers & Hcount & Hcalls & Hout).
  set (t1 := if decide (r ∈ tripsToFinish s) then with_Status FINISHED t
             else t).
  assert (h1 !! r = Some t1) as Hr1.
  { rewrite Hh1, Hr. unfold t1. by case_decide. }
  assert (Id t1 = Id t ∧ TripDuration t1 = TripDuration t) as [HId1 Hdur1].
  { unfold t1. by case_decide. }
  assert (only_trip h1 r t) as Honly1.
  { intros r' t' Hr' HId. rewrite Hh1 in Hr'. case_decide.
    - destruct (heap s !! r') as [t0|] eqn:Ht0; [|done].
      injection Hr' as <-. by apply (Honly r' t0).
    - by apply (Honly r' t'). }
  set (kept := passing (λ t, negb (bool_decide (Status t = FINISHED))) h1
                       (trips s)) in *.
  assert (NoDup kept) as Hndkept by by apply NoDup_passing.
  assert (r ∈ kept → r ∈ trips s ∧ r ∉ tripsToFinish s) as Hkept.
  { intros [? (t' & Ht' & Hst)]%elem_of_passing. split; [done|].
    intros Hin. rewrite Hr1 in Ht'. injection Ht' as <-.
    unfold t1 in Hst. by rewrite decide_True in Hst by done. }
  clearbody t1.
  assert (r ∈ tripsToFinish s → r ∈ trips s) as Hfinished.
  { by intros [[? _]%elem_of_passing _]%elem_of_passing. }
  destruct Hout as [(_ & _ & Htrips & Hheap & Hbatches)
                   |(_ & _ & refs & h2 & finished & started & alive & Htrips
                     & _ & Hndrefs & Hnew & Hold & Hdom & Hsame & Hrest
                     & Hincr & Hrecf & Hrecs & Hreca & Hbatches)].
  - exists t1, []. rewrite Hheap, Htrips, Hbatches, app_nil_r, Hdur1.
    split_and!; try done; try lia.
    + intros r' t' Hr' HId'. apply (Honly1 r' t'); congruence.
    + simpl. repeat case_decide; try lia; tauto.
    + simpl. repeat case_decide; try lia; tauto.
  - assert (h2 !! r = Some t1) as Hr2 by by rewrite Hold by by eexists.
    assert (only_trip h2 r t) as Honly2.
    { intros r' t2 Hr2' HId2.
      destruct (Hdom r') as [Hsome|Hcreated]; [by eexists|..].
      - rewrite Hold in Hr2' by done. by apply (Honly1 r' t2).
      - destruct (Hnew _ Hcreated)
          as (_ & t3 & k & _ & Hr3 & _ & _ & Hk & HId3 & _).
        rewrite Hr2' in Hr3. injection Hr3 as <-.
        destruct (Huuid k Hk). congruence. }
    assert (r ∉ refs) as Hnotnew.
    { intros Hin. destruct (Hnew _ Hin) as [Hnone _]. congruence. }
    assert (NoDup (tickerTrips s)) as Hndtick by by apply NoDup_passing.
    set (newTrips := passing (λ t, Z.eqb (TripDuration t) 0) h2
                             (tickerTrips s)) in *.
    set (activeTrips := passing (λ t, bool_decide (Status t = ACTIVE)) h2
                                (tickerTrips s)) in *.
    assert (NoDup activeTrips) as Hndactive by by apply NoDup_passing.
    set (t' := if decide (r ∈ activeTrips)
               then with_TripDuration (TripDuration t1 + 1) t1 else t1).
    assert (heap (runSimulationIteration env props s).1 !! r = Some t')
      as Hr'.
    { unfold t'. destruct (decide (r ∈ activeTrips)) as [Hact|Hact].
      - by rewrite Hincr, Hr2 by done.
      - by rewrite Hrest, Hr2 by done. }
    assert (Id t' = Id t) as HId'
      by (unfold t'; by destruct (decide (r ∈ activeTrips))).
    exists t', (recordChunks_from (finished ++ started ++ alive) 0).
    destruct (recordChunks_from_spec (finished ++ started ++ alive)
                (length (finished ++ started ++ alive)) 0) as [Hconcat _];
      [lia|].
    rewrite drop_0 in Hconcat. rewrite Hconcat, !records_of_app, !length_app.
    assert (∀ r' t0, heap s !! r' = Some t0 → Id t0 = Id t → r' = r) as Ho
      by (intros r' t0 ? ?; by apply (Honly r' t0)).
    assert (∀ r' t0, h2 !! r' = Some t0 → Id t0 = Id t → r' = r) as Ho2
      by (intros r' t0 ? ?; by apply (Honly2 r' t0)).
    assert (NoDup (passing (λ t, bool_decide (Status t = ACTIVE)) (heap s)
                           (trips s))) as Hndact by by apply NoDup_passing.
    destruct (reports_count _ _ ENGINE_START _ _ _ _ _ Hrecf Ho Hndact)
      as [_ Hnil]. rewrite Hnil by done. clear Hnil.
    destruct (reports_count _ _ ENGINE_START _ _ _ _ _ Hreca Ho2 Hndtick)
      as [_ Hnil]. rewrite Hnil by done. clear Hnil.
    destruct (reports_count _ _ ENGINE_START _ _ _ _ _ Hrecs Ho2 Hndtick)
      as [Hstarts _].
    destruct (reports_count _ _ TRIP_FINISHED _ _ _ _ _ Hrecs Ho2 Hndtick)
      as [_ Hnil]. rewrite Hnil by done. clear Hnil.
    destruct (reports_count _ _ TRIP_FINISHED _ _ _ _ _ Hreca Ho2 Hndtick)
      as [_ Hnil]. rewrite Hnil by done. clear Hnil.
    destruct (reports_count _ _ TRIP_FINISHED _ _ _ _ _ Hrecf Ho Hndact)
      as [Hfinishes _].
    fold (tripsToFinish s) in Hfinishes. fold newTrips in Hstarts.
    simpl. rewrite !Nat.add_0_r.
    assert (r ∈ trips (runSimulationIteration env props s).1 ↔ r ∈ kept)
      as Hstays.
    { rewrite Htrips, elem_of_app. tauto. }
    assert (r ∈ activeTrips → r ∈ kept ∧ TripDuration t' ≠ 0%Z) as Hactive.
    { intros Hact. pose proof Hact as [Htick (t0 & Ht0 & Hst)]%elem_of_passing.
      rewrite Hr2 in Ht0. injection Ht0 as <-.
      apply bool_decide_eq_true in Hst. split.
      - apply elem_of_passing. split.
        + by apply elem_of_passing in Htick as [? _].
        + exists t1. split; [done|]. by rewrite Hst.
      - unfold t'. rewrite decide_True by done. simpl. lia. }
    assert (r ∈ newTrips → r ∈ trips s ∧ TripDuration t = 0%Z
                          ∧ (r ∈ kept → r ∈ activeTrips)) as Hnewtrip.
    { intros [Htick (t0 & Ht0 & Hzero)]%elem_of_passing.
      rewrite Hr2 in Ht0. injection Ht0 as <-. apply Z.eqb_eq in Hzero.
      split_and!; [by apply elem_of_passing in Htick as [? _]|lia|].
      intros [_ (t0 & Ht0 & Hst)]%elem_of_passing.
      rewrite Hr1 in Ht0. injection Ht0 as <-.
      apply elem_of_passing. split; [done|]. exists t1. split; [done|].
      destruct (Status t1); [done|]. by rewrite bool_decide_true in Hst. }
    assert (TripDuration t' = 0%Z → TripDuration t = 0%Z ∧ r ∉ activeTrips)
      as Hzero.
    { unfold t'. destruct (decide (r ∈ activeTrips)); simpl;
        [intros ?; exfalso; lia|].
      intros ?. split; [lia|done]. }
    split_and!; try done.
    + unfold t'. destruct (decide (r ∈ activeTrips)); simpl; lia.
    + rewrite Htrips. apply NoDup_app. split_and!; [done| |done].
      intros r' [_ (t0 & Ht0 & _)]%elem_of_passing Hin.
      destruct (Hnew _ Hin) as [Hnone _]. congruence.
    + intros r' t0 Hr0 HId0.
      pose proof (Hsame r') as Hs. rewrite Hr0 in Hs. simpl in Hs.
      destruct (h2 !! r') as [t2|] eqn:Hr2'; [|done].
      apply (f_equal (fmap Id)) in Hs. simpl in Hs. injection Hs as Hs.
      apply (Honly2 r' t2); congruence.
    + repeat case_decide; try lia; tauto.
    + repeat case_decide; try lia; tauto.
Qed.

Lemma once_turns n s r t :
  heap s !! r = Some t →
  (0 ≤ TripDuration t)%Z →
  NoDup (trips s) →
  only_trip (heap s) r t →
  (∀ k, calls s ≤ k → uuid env k ≠ Id t) →
  ∃ sent,
    batches (turns env props n s) = batches s ++ sent ∧
    length (records_of ENGINE_START (Id t) (concat sent))
      ≤ (if decide (r ∈ trips s ∧ TripDuration t = 0%Z) then 1 else 0) ∧
    length (records_of TRIP_FINISHED (Id t) (concat sent))
      ≤ (if decide (r ∈ trips s) then 1 else 0).
Proof.
  revert s t. induction n as [|n IH]; intros s t Hr Hdur Hnodup Honly Huuid.
  { exists []. rewrite app_nil_r. simpl. split_and!; [done|lia..]. }
  destruct (once_step s r t Hr Hdur Hnodup Honly Huuid)
    as (t1 & sent1 & Hr1 & HId1 & Hdur1 & Hnodup1 & Honly1 & Hcalls1 & Hb1
        & Hstart1 & Hfinish1).
  destruct (IH _ t1 Hr1 Hdur1 Hnodup1 Honly1)
    as (sent2 & Hb2 & Hstart2 & Hfinish2).
  { intros k Hk. rewrite HId1. apply Huuid. lia. }
  exists (sent1 ++ sent2). simpl.
  rewrite Hb2, Hb1, <- app_assoc, concat_app, !records_of_app, !length_app.
  rewrite HId1 in Hstart2, Hfinish2. split_and!; [done|lia..].
Qed.

(** X29: of a trip that has not started, the simulator sends at most
    one [engine-start] record and at most one [trip-finished] record,
    through any number of turns; it sends no [engine-start] record for
    a trip that has started, and none at all of these two for a trip
    that is not among its trips any more. *)
Theorem trip_started_and_finished_once n s r t :
  heap s !! r = Some t →
  (0 ≤ TripDuration t)%Z →
  NoDup (trips s) →
  only_trip (heap s) r t →
  (∀ k, calls s ≤ k → uuid env k ≠ Id t) →
  ∃ sent,
    batches (turns env props n s) = batches s ++ sent ∧
    length (records_of ENGINE_START (Id t) (concat sent)) ≤ 1 ∧
    length (records_of TRIP_FINISHED (Id t) (concat sent)) ≤ 1 ∧
    (TripDuration t ≠ 0%Z →
     records_of ENGINE_START (Id t) (concat sent) = []) ∧
    (r ∉ trips s →
     records_of ENGINE_START (Id t) (concat sent) = [] ∧
     records_of TRIP_FINISHED (Id t) (concat sent) = []).
Proof.
  intros Hr Hdur Hnodup Honly Huuid.
  destruct (once_turns n s r t Hr Hdur Hnodup Honly Huuid)
    as (sent & Hb & Hstart & Hfinish).
  exists sent. split_and!; [done| | | |].
  - destruct (decide (r ∈ trips s ∧ TripDuration t = 0%Z)); lia.
  - destruct (decide (r ∈ trips s)); lia.
  - intros Hstarted. rewrite decide_False in Hstart by tauto.
    by apply nil_length_inv, Nat.le_0_r.
  - intros Hgone. rewrite decide_False in Hstart by tauto.
    rewrite decide_False in Hfinish by tauto.
    split; by apply nil_length_inv, Nat.le_0_r.
Qed.

(** X30: the records of a turn that does not raise: first a
    [trip-finished] record for every trip that has reached its target
    duration, then an [engine-start] record for trips of the turn's
    ticker whose duration is 0, then a [keep-alive] record for trips of
    the turn's ticker that are under way and were not finished in this
    turn; sent in this order in batches of at most 500, none empty. A
    trip made in a turn is not reported in that turn. *)
Theorem turn_reports s :
  let s' := (runSimulationIteration env props s).1 in
  ((runSimulationIteration env props s).2 = RangeError ∧
   batches s' = batches s) ∨
  ∃ finished started alive,
    let iterationRecords := finished ++ started ++ alive in
    batches s' = batches s ++ recordChunks_from iterationRecords 0 ∧
    concat (recordChunks_from iterationRecords 0) = iterationRecords ∧
    Forall (λ chunk, 0 < length chunk ≤ 500)
           (recordChunks_from iterationRecords 0) ∧
    Forall2 (reports (heap s) TRIP_FINISHED) (tripsToFinish s) finished ∧
    Forall (λ e, Type_ e = ENGINE_START ∧
                 ∃ r t, r ∈ tickerTrips s ∧ heap s !! r = Some t ∧
                        TripId e = Id t ∧ TripDuration t = 0%Z) started ∧
    Forall (λ e, Type_ e = KEEP_ALIVE ∧
                 ∃ r t, r ∈ tickerTrips s ∧ (r ∉ tripsToFinish s) ∧
                        heap s !! r = Some t ∧ TripId e = Id t ∧
                        Status t = ACTIVE) alive.
Proof.
  intros s'. subst s'.
  destruct (turn_spec s) as (h1 & Hh1 & _ & _ & _ & _ & Hout).
  destruct Hout as [(Hraise & _ & _ & _ & Hbatches)
                   |(_ & _ & refs & h2 & finished & started & alive & _
                     & _ & _ & _ & Hold & _ & _ & _ & _ & Hrecf & Hrecs
                     & Hreca & Hbatches)]; [by left|right].
  exists finished, started, alive. cbv zeta.
  destruct (recordChunks_from_spec (finished ++ started ++ alive)
              (length (finished ++ started ++ alive)) 0)
    as (Hconcat & Hsizes & _); [lia|].
  rewrite drop_0 in Hconcat.
  assert (∀ r, r ∈ tickerTrips s →
               ∃ t, heap s !! r = Some t ∧
                    h2 !! r = Some (if decide (r ∈ tripsToFinish s)
                                    then with_Status FINISHED t else t))
    as Hticker.
  { intros r [_ (t & Ht & _)]%elem_of_passing. exists t. split; [done|].
    rewrite Hold; rewrite Hh1, Ht; [by case_decide|].
    case_decide; by eexists. }
  split_and!; try done.
  - apply Forall_forall. intros e He.
    destruct (reports_trip _ _ _ _ _ Hrecs He) as (r & Hr & Htype & Hid & _).
    split; [done|].
    apply elem_of_passing in Hr as [Hr (t2 & Ht2 & Hzero)].
    destruct (Hticker r Hr) as (t & Ht & Hh2).
    exists r, t. rewrite Ht2 in Hid, Hh2. injection Hh2 as ->.
    apply Z.eqb_eq in Hzero. simpl in Hid.
    split_and!; try done; by case_decide.
  - apply Forall_forall. intros e He.
    destruct (reports_trip _ _ _ _ _ Hreca He) as (r & Hr & Htype & Hid & _).
    split; [done|].
    apply elem_of_passing in Hr as [Hr (t2 & Ht2 & Hst)].
    destruct (Hticker r Hr) as (t & Ht & Hh2).
    exists r, t. rewrite Ht2 in Hid, Hh2. injection Hh2 as ->.
    apply bool_decide_eq_true in Hst. simpl in Hid.
    destruct (decide (r ∈ tripsToFinish s)); [done|]. by split_and!.
Qed.

End SimulatorTurn.

(** *** Runs *)

Section SimulatorRuns.
Import Simulator SimulatorScenarios.

Lemma ticker_of_new_trip_can_be_ten_witness :
  ∃ t,
    heap (create numbering index_props 0 constructed).1
      !! (create numbering index_props 0 constructed).2 = Some t ∧
    Ticker t = 10%Z.
Proof.
  destruct (proj2 (ticker_of_new_trip_can_be_ten numbering index_props)
              0 constructed) as (t & Ht & _ & Hten);
    [by vm_compute..|].
  exists t. split; [exact Ht|]. apply Hten. by vm_compute.
Defined.

Lemma stalled_trip_never_moves_witness :
  stalled (turns numbering index_props 3 waiting) 0 waiting_trip.
Proof.
  refine (proj1 (stalled_trip_never_moves numbering index_props 3 waiting 0
                   waiting_trip _ _ _ _)).
  - unfold stalled.
    split_and!; [reflexivity|apply list_elem_of_here|reflexivity|
                 simpl; lia|reflexivity].
  - simpl. lia.
  - intros r' t' Hr' _.
    change (heap waiting) with ({[ 0 := waiting_trip ]} : gmap nat Trip) in Hr'.
    by apply lookup_singleton_Some in Hr' as [<- _].
  - intros k _. discriminate.
Defined.

Lemma fleet_refilled_witness :
  Z.of_nat (length (trips (runSimulationIteration numbering index_props
                             (startSimulation constructed)).1)) = 100%Z.
Proof.
  apply (fleet_refilled numbering index_props (startSimulation constructed)).
  - reflexivity.
  - simpl. lia.
  - vm_compute. discriminate.
Defined.

Lemma trip_count_capped_witness :
  (Z.of_nat (length (trips (runSimulationIteration numbering counted_props
                              (startSimulation constructed)).1))
   + finishedTrips (runSimulationIteration numbering counted_props
                      (startSimulation constructed)).1 ≤ 3)%Z.
Proof.
  apply (trip_count_capped numbering counted_props
           (startSimulation constructed) 3).
  - reflexivity.
  - constructor.
Defined.

Lemma trip_started_and_finished_once_witness :
  ∃ sent,
    batches (turns numbering index_props 3 waiting) = sent ∧
    length (records_of ENGINE_START "t0" (concat sent)) ≤ 1.
Proof.
  destruct (trip_started_and_finished_once numbering index_props 3 waiting 0
              waiting_trip) as (sent & Hb & Hstart & _).
  - reflexivity.
  - simpl. lia.
  - repeat constructor. by intros ?%elem_of_nil.
  - intros r' t' Hr' _.
    change (heap waiting) with ({[ 0 := waiting_trip ]} : gmap nat Trip) in Hr'.
    by apply lookup_singleton_Some in Hr' as [<- _].
  - intros k _. discriminate.
  - exists sent. split; [exact Hb|exact Hstart].
Defined.

End SimulatorRuns.
